(** * Web Tracing Framework: the trace event database

    A shallow embedding of the event store ([wtf.db.EventList] and
    [wtf.db.EventIterator]), the event type table
    ([wtf.db.EventTypeTable]), the frame index ([wtf.db.FrameList]) and the
    statistics entries ([wtf.db.ScopeEventDataEntry]), with the properties
    the specification states about them.

    Conventions of the embedding:
    - a JavaScript number that is always an integer is a [Z]; a number that
      may be [undefined] or [NaN] (a read outside a typed array, arithmetic
      on such a read) is a [num], that is an [option Z] where [None] stands
      for both;
    - a [Uint32Array] is a [list Z] of cells in [0, 2^32): a write stores
      [ToUint32] of the value and is dropped outside the array, a read
      outside the array gives [None];
    - a JavaScript array or object used as a table by number is a [gmap];
      a plain object used as a table by name is a [gmap] of its own
      properties, read through [obj_get], which also finds the properties
      that every object inherits from [Object.prototype];
    - a time in milliseconds (TIME / 1000) is a rational [Q]; the product
      [time * 1000] that the lookups by time compare the TIME cells with
      is the double that the code computes ([double_mul]);
    - a function that can throw returns an [outcome], which keeps the state
      reached at the throw, because the buffers are mutated in place. *)

From Stdlib Require Import ZArith QArith Qabs Qround Lia.
From stdpp Require Import base tactics option list gmap strings pretty sorting.

Local Open Scope Z_scope.

(** ** JavaScript numbers and typed arrays *)

Definition num : Type := option Z.

Definition ToUint32 (v : num) : Z :=
  match v with
  | Some z => z mod 2 ^ 32
  | None => 0
  end.

(** [x | 0] on an integer. *)
Definition ToInt32 (z : Z) : Z := (z + 2 ^ 31) mod 2 ^ 32 - 2 ^ 31.

Definition num_add (a b : num) : num :=
  match a, b with Some x, Some y => Some (x + y) | _, _ => None end.

Definition num_sub (a b : num) : num :=
  match a, b with Some x, Some y => Some (x - y) | _, _ => None end.

Definition num_mul (a : num) (k : Z) : num :=
  match a with Some x => Some (x * k) | None => None end.

(** [a == k] for a number [k]. *)
Definition num_eqb (a : num) (k : Z) : bool :=
  match a with Some x => x =? k | None => false end.

(** Truthiness of a number ([if (a)], [!a]). *)
Definition truthy (a : num) : bool :=
  match a with Some x => negb (x =? 0) | None => false end.

Definition ta_get (a : list Z) (i : num) : num :=
  match i with
  | Some i => if 0 <=? i then a !! Z.to_nat i else None
  | None => None
  end.

Definition ta_set (a : list Z) (i : num) (v : num) : list Z :=
  match i with
  | Some i => if 0 <=? i then <[Z.to_nat i := ToUint32 v]> a else a
  | None => a
  end.

Global Arguments ta_get : simpl never.
Global Arguments ta_set : simpl never.
Global Arguments ToUint32 : simpl never.

(** [new Uint32Array(n)] *)
Definition new_Uint32Array (n : Z) : list Z := replicate (Z.to_nat n) 0.

(** A function that may throw: [Normal] is a return, [Throw] an exception,
    each with the state reached. *)
Inductive outcome (A : Type) : Type :=
  | Normal (a : A)
  | Throw (a : A).
Arguments Normal {A} a.
Arguments Throw {A} a.

Definition outcome_state {A} (r : outcome A) : A :=
  match r with Normal a => a | Throw a => a end.

Definition bind_outcome {A} (r : outcome A) (k : A → outcome A) : outcome A :=
  match r with Normal a => k a | Throw a => Throw a end.

(** ** Plain objects used as tables by name

    [{}] inherits the properties of [Object.prototype].  A read [obj[key]]
    of a key that the table has no entry of its own for finds the
    inherited property of that name, if there is one: a function, or for
    [__proto__] the prototype object.  Either is truthy and has none of
    the properties of the entries of the table. *)
Definition Object_prototype : list string :=
  ["constructor"; "hasOwnProperty"; "isPrototypeOf"; "propertyIsEnumerable";
   "toLocaleString"; "toString"; "valueOf"; "__proto__";
   "__defineGetter__"; "__defineSetter__"; "__lookupGetter__";
   "__lookupSetter__"].

(** What a read finds: an entry of the table, or an inherited property. *)
Inductive property (A : Type) : Type :=
  | Own (a : A)
  | Inherited (key : string).
Arguments Own {A} a.
Arguments Inherited {A} key.

Global Instance property_eq_dec {A} `{EqDecision A} : EqDecision (property A).
Proof. solve_decision. Defined.

(** [obj[key]], where [None] is [undefined]. *)
Definition obj_get {A} (obj : gmap string A) (key : string) : option (property A) :=
  match obj !! key with
  | Some a => Some (Own a)
  | None =>
      if bool_decide (key ∈ Object_prototype) then Some (Inherited key) else None
  end.

(** The entry that a read found.  A read of a name that is not one of
    [Object.prototype] finds an entry or nothing. *)
Definition own_entry {A} (found : option (property A)) : option A :=
  match found with
  | Some (Own a) => Some a
  | _ => None
  end.

(** ** wtf.db.EventStruct: offsets of the fields of a record, in cells *)

Module EventStruct.
Definition ID : Z := 0.
Definition TYPE : Z := 1.
Definition PARENT : Z := 2.
Definition DEPTH : Z := 3.
Definition TIME : Z := 4.
Definition NEXT_SIBLING : Z := 5.
Definition ARGUMENTS : Z := 6.
Definition VALUE : Z := 7.
Definition TAG : Z := 8.
Definition END_TIME : Z := 9.
Definition SYSTEM_TIME : Z := 10.
Definition CHILD_TIME : Z := 11.
Definition STRUCT_SIZE : Z := 12.
End EventStruct.

(** ** Event types *)

Inductive EventClass : Type := INSTANCE | SCOPE.

Global Instance EventClass_eq_dec : EqDecision EventClass.
Proof. solve_decision. Defined.

(** Modelled from the spec: [wtf.db.EventType] is not among the sources.
    The spec gives an event type a unique name, a small integer id (0 is
    reserved), a class and a bit mask of flags; [createScope] and
    [createInstance] make a not yet numbered type of that class without
    flags, as their callers in [rescopeEvents_] use them. *)
Record EventType : Type := mkEventType {
  name : string;
  id : Z;
  eventClass : EventClass;
  flags : Z
}.

Global Instance EventType_eq_dec : EqDecision EventType.
Proof. solve_decision. Defined.

Definition createScope (nm : string) : EventType := mkEventType nm 0 SCOPE 0.
Definition createInstance (nm : string) : EventType := mkEventType nm 0 INSTANCE 0.

(** ** wtf.db.EventTypeTable *)

Record EventTypeTable : Type := mkEventTypeTable {
  nextTypeId_ : Z;
  eventsById_ : gmap Z EventType;
  eventsByName_ : gmap string EventType
}.

Definition new_EventTypeTable : EventTypeTable :=
  mkEventTypeTable 1 ∅ ∅.

Definition getById (T : EventTypeTable) (i : Z) : option EventType :=
  eventsById_ T !! i.

(** [this.eventsByName_[name] || null]: a type of the table, or the
    property of [Object.prototype] of that name. *)
Definition getByName (T : EventTypeTable) (nm : string)
    : option (property EventType) :=
  obj_get (eventsByName_ T) nm.

(** [defineType] returns what it found under the name, or the type it has
    put into the table, and the table. *)
Definition defineType (T : EventTypeTable) (eventType : EventType)
    : property EventType * EventTypeTable :=
  match obj_get (eventsByName_ T) (name eventType) with
  | None =>
      let ty := mkEventType (name eventType) (nextTypeId_ T)
                  (eventClass eventType) (flags eventType) in
      (Own ty, mkEventTypeTable (nextTypeId_ T + 1)
                 (<[nextTypeId_ T := ty]> (eventsById_ T))
                 (<[name eventType := ty]> (eventsByName_ T)))
  | Some existingEventType => (existingEventType, T)
  end.

(** [found.id]: an inherited property has no [id]. *)
Definition property_id (found : property EventType) : num :=
  match found with
  | Own ty => Some (id ty)
  | Inherited _ => None
  end.

(** The tables a program can build: the new table and what [defineType]
    makes of a table. *)
Inductive table_reachable : EventTypeTable → Prop :=
  | reach_new : table_reachable new_EventTypeTable
  | reach_define T ty :
      table_reachable T → table_reachable (defineType T ty).2.

(** The invariant of the table: both indexes hold the same types, under
    their own name and id, the ids in use are 1 .. nextTypeId_ - 1, and no
    type stands under a name of [Object.prototype]. *)
Record table_wf (T : EventTypeTable) : Prop := mkTableWf {
  wf_next : 1 ≤ nextTypeId_ T;
  wf_by_id : ∀ i ty, eventsById_ T !! i = Some ty →
      id ty = i ∧ eventsByName_ T !! name ty = Some ty;
  wf_by_name : ∀ nm ty, eventsByName_ T !! nm = Some ty →
      name ty = nm ∧ eventsById_ T !! id ty = Some ty;
  wf_ids : ∀ i, is_Some (eventsById_ T !! i) ↔ 1 ≤ i < nextTypeId_ T;
  wf_own : ∀ nm ty, eventsByName_ T !! nm = Some ty → nm ∉ Object_prototype
}.

(** ** Argument data *)

(** A value of an argument, as far as the database looks at it. *)
Inductive Value : Type :=
  | VUndefined
  | VNum (z : Z)
  | VStr (s : string).

Global Instance Value_eq_dec : EqDecision Value.
Proof. solve_decision. Defined.

(** The property key a value turns into when it indexes an object. *)
Definition key_of (v : Value) : string :=
  match v with
  | VUndefined => "undefined"
  | VNum z => pretty z
  | VStr s => s
  end.

(** Modelled from the spec: [wtf.db.ArgumentData] is not among the sources.
    The spec makes it an ordered mapping from argument name to value, with
    [merge(other)]: fields from [other] overwrite identical names,
    preserving insertion order.  [get] of an absent name is [undefined]. *)
Definition ArgumentData : Type := list (string * Value).

Fixpoint args_get (a : ArgumentData) (key : string) : Value :=
  match a with
  | [] => VUndefined
  | (k, v) :: a' => if decide (k = key) then v else args_get a' key
  end.

Fixpoint args_put (a : ArgumentData) (key : string) (v : Value) : ArgumentData :=
  match a with
  | [] => [(key, v)]
  | (k, w) :: a' =>
      if decide (k = key) then (k, v) :: a' else (k, w) :: args_put a' key v
  end.

Definition merge (this other : ArgumentData) : ArgumentData :=
  foldl (λ acc kv, args_put acc kv.1 kv.2) this other.

(** ** wtf.db.EventList *)

(** [argumentData_] is the table of interned argument bags by id; index 0
    holds [null], which is here the absence of a key. *)
Record EventList : Type := mkEventList {
  eventTypeTable : EventTypeTable;
  count : Z;
  capacity_ : Z;
  eventData : list Z;
  argumentData_ : gmap Z ArgumentData;
  nextArgumentDataId_ : Z;
  firstEventTime_ : Q;
  lastEventTime_ : Q;
  maximumScopeDepth_ : Z
}.

Definition new_EventList (eventTypeTable : EventTypeTable) : EventList :=
  mkEventList eventTypeTable 0 0 (new_Uint32Array 0) ∅ 1 0%Q 0%Q 0.

Definition getCount (el : EventList) : Z := count el.

(** [this.argumentData_[i]] *)
Definition args_at (A : gmap Z ArgumentData) (i : num) : option ArgumentData :=
  match i with
  | Some i => A !! i
  | None => None
  end.

(** [for (n = 0; n < len; n++) newData[n] = oldData[n]] *)
Definition copy_cells (len : Z) (oldData newData : list Z) : list Z :=
  foldl (λ nd n, ta_set nd (Some n) (ta_get oldData (Some n))) newData (seqZ 0 len).

Definition insert (el : EventList) (eventType : EventType) (time : Z)
    (opt_argData : option ArgumentData) : EventList :=
  let grown :=
    if count el + 1 >=? capacity_ el then
      let capacity := Z.max (capacity_ el * 2) 1024 in
      let newSize := capacity * EventStruct.STRUCT_SIZE in
      (capacity,
       copy_cells (count el * EventStruct.STRUCT_SIZE) (eventData el)
         (new_Uint32Array newSize))
    else (capacity_ el, eventData el) in
  let o := count el * EventStruct.STRUCT_SIZE in
  let d := ta_set grown.2 (Some (o + EventStruct.ID)) (Some (count el)) in
  let d := ta_set d (Some (o + EventStruct.TYPE)) (Some (id eventType)) in
  let d := ta_set d (Some (o + EventStruct.PARENT)) (Some (-1)) in
  let d := ta_set d (Some (o + EventStruct.TIME)) (Some time) in
  match opt_argData with
  | Some args =>
      let argsId := nextArgumentDataId_ el in
      mkEventList (eventTypeTable el) (count el + 1) grown.1
        (ta_set d (Some (o + EventStruct.ARGUMENTS)) (Some argsId))
        (<[argsId := args]> (argumentData_ el)) (argsId + 1)
        (firstEventTime_ el) (lastEventTime_ el) (maximumScopeDepth_ el)
  | None =>
      mkEventList (eventTypeTable el) (count el + 1) grown.1 d
        (argumentData_ el) (nextArgumentDataId_ el)
        (firstEventTime_ el) (lastEventTime_ el) (maximumScopeDepth_ el)
  end.

(** An event as a data source hands it to [insert]. *)
Record Event : Type := mkEvent {
  ev_type : EventType;
  ev_time : Z;
  ev_args : option ArgumentData
}.

Definition insert_all (el : EventList) (evs : list Event) : EventList :=
  foldl (λ el ev, insert el (ev_type ev) (ev_time ev) (ev_args ev)) el evs.

(** A cell of a record that lies inside the buffer. *)
Definition cell (d : list Z) (i : Z) : Z := default 0 (ta_get d (Some i)).

(** Field [f] of record [i]. *)
Definition field (d : list Z) (i f : Z) : Z :=
  cell d (i * EventStruct.STRUCT_SIZE + f).

(** *** resortEvents_ *)

(** The comparator given to [sortIndex.sort]; the indices it is called on
    are records of the list, so its reads are inside the buffer. *)
Definition compare_events (eventData : list Z) (ai bi : Z) : Z :=
  let ao := ai * EventStruct.STRUCT_SIZE in
  let bo := bi * EventStruct.STRUCT_SIZE in
  let atime := cell eventData (ao + 4) in
  let btime := cell eventData (bo + 4) in
  if atime =? btime then cell eventData ao - cell eventData bo
  else atime - btime.

(** [a] may stand before [b] in the sorted array. *)
Definition sorts_before (eventData : list Z) (ai bi : Z) : Prop :=
  compare_events eventData ai bi ≤ 0.

Global Instance sorts_before_dec d a b : Decision (sorts_before d a b).
Proof. unfold sorts_before. apply _. Defined.

(** [Array.prototype.sort] leaves the algorithm open.  The comparator is a
    total preorder, and on records with distinct IDs a strict one, so that
    every algorithm gives the array that this merge sort gives
    ([sortIndex_unique] below). *)
Definition sortIndex (eventData : list Z) (count : Z) : list Z :=
  merge_sort (sorts_before eventData) (seqZ 0 count).

(** The inner loop that moves one record. *)
Definition copy_record (eventData : list Z) (oldOffset newOffset : Z)
    (newData : list Z) : list Z :=
  foldl (λ nd k, ta_set nd (Some (newOffset + k)) (ta_get eventData (Some (oldOffset + k))))
    newData (seqZ 0 EventStruct.STRUCT_SIZE).

Definition rearrange (eventData : list Z) (sortIndex : list Z) : list Z :=
  foldl (λ nd p, copy_record eventData (p.2 * EventStruct.STRUCT_SIZE)
                   (Z.of_nat p.1 * EventStruct.STRUCT_SIZE) nd)
    (new_Uint32Array (Z.of_nat (length eventData)))
    (imap (λ n s, (n, s)) sortIndex).

Definition renumber (count : Z) (newData : list Z) : list Z :=
  foldl (λ nd n, ta_set nd (Some (n * EventStruct.STRUCT_SIZE + EventStruct.ID)) (Some n))
    newData (seqZ 0 count).

(** ** wtf.db.EventIterator

    The cursor over the records of a list.  No indirection table is
    modelled: the iterators built by the code embedded here have none. *)

Record EventIterator : Type := mkEventIterator {
  eventList_ : EventList;
  firstIndex_ : Z;
  lastIndex_ : Z;
  index_ : Z;
  offset_ : Z
}.

Definition seek (it : EventIterator) (index : Z) : EventIterator :=
  if index <? 0 then
    mkEventIterator (eventList_ it) (firstIndex_ it) (lastIndex_ it)
      (lastIndex_ it + 1) (offset_ it)
  else if index >? lastIndex_ it then
    mkEventIterator (eventList_ it) (firstIndex_ it) (lastIndex_ it)
      index (offset_ it)
  else
    mkEventIterator (eventList_ it) (firstIndex_ it) (lastIndex_ it)
      index (index * EventStruct.STRUCT_SIZE).

Definition new_EventIterator (eventList : EventList)
    (firstIndex lastIndex index : Z) : EventIterator :=
  seek (mkEventIterator eventList firstIndex lastIndex index (-1)) index.

(** The cell of field [f] of the record the iterator is on. *)
Definition it_cell (it : EventIterator) (f : Z) : Z :=
  cell (eventData (eventList_ it)) (offset_ it + f).

Definition done (it : EventIterator) : bool := index_ it >? lastIndex_ it.

Definition getId (it : EventIterator) : Z := it_cell it EventStruct.ID.

Definition getType (it : EventIterator) : option EventType :=
  getById (eventTypeTable (eventList_ it)) (it_cell it EventStruct.TYPE).

Definition isScope (it : EventIterator) : bool :=
  negb (it_cell it EventStruct.END_TIME =? 0).

Definition isInstance (it : EventIterator) : bool :=
  it_cell it EventStruct.END_TIME =? 0.

Definition getDepth (it : EventIterator) : Z := it_cell it EventStruct.DEPTH.

Definition getTime (it : EventIterator) : Q :=
  (it_cell it EventStruct.TIME # 1000)%Q.

Definition getEndTime (it : EventIterator) : Q :=
  (it_cell it EventStruct.END_TIME # 1000)%Q.

Definition getArgumentData (el : EventList) (argsId : Z) : option ArgumentData :=
  argumentData_ el !! argsId.

Definition getArguments (it : EventIterator) : option ArgumentData :=
  let argsId := it_cell it EventStruct.ARGUMENTS in
  if argsId =? 0 then None else getArgumentData (eventList_ it) argsId.

Definition getArgument (it : EventIterator) (key : string) : Value :=
  match getArguments it with
  | Some args => args_get args key
  | None => VUndefined
  end.

Definition getTotalDuration (it : EventIterator) : Q :=
  ((it_cell it EventStruct.END_TIME - it_cell it EventStruct.TIME) # 1000)%Q.

Definition getUserDuration (it : EventIterator) : Q :=
  let total := it_cell it EventStruct.END_TIME - it_cell it EventStruct.TIME in
  ((total - it_cell it EventStruct.SYSTEM_TIME) # 1000)%Q.

Definition getOwnDuration (it : EventIterator) : Q :=
  let total := it_cell it EventStruct.END_TIME - it_cell it EventStruct.TIME in
  ((total - it_cell it EventStruct.CHILD_TIME) # 1000)%Q.

(** *** resortEvents_ (continued) *)

Definition resortEvents_ (el : EventList) : EventList :=
  let newData :=
    renumber (count el)
      (rearrange (eventData el) (sortIndex (eventData el) (count el))) in
  let sorted :=
    mkEventList (eventTypeTable el) (count el) (capacity_ el) newData
      (argumentData_ el) (nextArgumentDataId_ el) 0%Q 0%Q
      (maximumScopeDepth_ el) in
  if count el =? 0 then sorted
  else
    let it := new_EventIterator sorted 0 (count el - 1) 0 in
    let first := getTime it in
    let it := seek it (count el - 1) in
    let last := if isScope it then getEndTime it else getTime it in
    mkEventList (eventTypeTable el) (count el) (capacity_ el) newData
      (argumentData_ el) (nextArgumentDataId_ el) first last
      (maximumScopeDepth_ el).

(** *** rescopeEvents_ *)

(** The ids of the four generic event types, -1 for one the table lacks. *)
Record GenericIds : Type := mkGenericIds {
  scopeEnterId : Z;
  scopeLeaveId : Z;
  appendScopeDataId : Z;
  timeStampId : Z
}.

Definition id_or_minus_one (t : option EventType) : Z :=
  match t with Some ty => id ty | None => -1 end.

(** None of the four names is one of [Object.prototype]: the lookups find
    a type of the table or nothing. *)
Definition generic_ids (T : EventTypeTable) : GenericIds :=
  mkGenericIds
    (id_or_minus_one (own_entry (getByName T "wtf.scope#enter")))
    (id_or_minus_one (own_entry (getByName T "wtf.scope#leave")))
    (id_or_minus_one (own_entry (getByName T "wtf.scope#appendData")))
    (id_or_minus_one (own_entry (getByName T "wtf.trace#timeStamp"))).

(** What the loop of [rescopeEvents_] works on: the buffer, the argument
    table and the type table of the list, and the locals of the function. *)
Record Rescope : Type := mkRescope {
  r_eventData : list Z;
  r_argumentData : gmap Z ArgumentData;
  r_table : EventTypeTable;
  stack : list Z;
  typeStack : gmap Z (property EventType);
  childTimeStack : list Z;
  systemTimeStack : list Z;
  stackTop : Z;
  stackMax : Z
}.

Definition with_eventData (s : Rescope) (d : list Z) : Rescope :=
  mkRescope d (r_argumentData s) (r_table s) (stack s) (typeStack s)
    (childTimeStack s) (systemTimeStack s) (stackTop s) (stackMax s).

(** [getByName(name)], and [defineType(make(name))] if that is [null]. *)
Definition resolve_type (T : EventTypeTable) (make : string → EventType)
    (nm : string) : property EventType * EventTypeTable :=
  match getByName T nm with
  | Some ty => (ty, T)
  | None => defineType T (make nm)
  end.

(** [stack[++stackTop] = ID; typeStack[stackTop] = type; stackMax = max] *)
Definition push_scope (s : Rescope) (d : list Z) (T : EventTypeTable)
    (o : Z) (ty : property EventType) : Rescope :=
  let top := stackTop s + 1 in
  mkRescope d (r_argumentData s) T
    (ta_set (stack s) (Some top) (ta_get d (Some (o + EventStruct.ID))))
    (<[top := ty]> (typeStack s))
    (childTimeStack s) (systemTimeStack s) top (Z.max (stackMax s) top).

(** [appendScopeData_(scopeId, argsId)] on the buffer [d]. *)
Definition appendScopeData_ (s : Rescope) (d : list Z) (scopeId argsId : num)
    : outcome Rescope :=
  let o := num_mul scopeId EventStruct.STRUCT_SIZE in
  let scopeArgsId := ta_get d (num_add o (Some EventStruct.ARGUMENTS)) in
  if negb (truthy scopeArgsId) then
    Normal (with_eventData s
              (ta_set d (num_add o (Some EventStruct.ARGUMENTS)) argsId))
  else
    match args_at (r_argumentData s) scopeArgsId, args_at (r_argumentData s) argsId with
    | Some this, Some other =>
        Normal (mkRescope d
                  (<[default 0 scopeArgsId := merge this other]> (r_argumentData s))
                  (r_table s) (stack s) (typeStack s)
                  (childTimeStack s) (systemTimeStack s) (stackTop s) (stackMax s))
    | _, _ => Throw (with_eventData s d)
    end.

Section Flags.

(** The bit of [wtf.data.EventFlag.SYSTEM_TIME]; the enumeration is not
    among the sources, so the bit is a parameter. *)
Variable EventFlag_SYSTEM_TIME : Z.

Definition has_SYSTEM_TIME (ty : EventType) : bool :=
  negb (Z.land (flags ty) EventFlag_SYSTEM_TIME =? 0).

(** [typeStack[stackTop].flags & SYSTEM_TIME]: an inherited property has
    no [flags], and [undefined & bit] is 0. *)
Definition property_has_SYSTEM_TIME (found : property EventType) : bool :=
  match found with
  | Own ty => has_SYSTEM_TIME ty
  | Inherited _ => false
  end.

(** The scope leave branch; [d] is the buffer after the three writes that
    open every iteration. *)
Definition scope_leave (s : Rescope) (d : list Z) (o : Z)
    (parentId nextEventId : num) : outcome Rescope :=
  let d := ta_set d (Some (o + EventStruct.NEXT_SIBLING)) (Some 0) in
  let top := stackTop s - 1 in
  let scopeOffset := num_mul parentId EventStruct.STRUCT_SIZE in
  let d := ta_set d (num_add scopeOffset (Some EventStruct.NEXT_SIBLING)) nextEventId in
  let time := ta_get d (Some (o + EventStruct.TIME)) in
  let duration :=
    num_sub time (ta_get d (num_add scopeOffset (Some EventStruct.TIME))) in
  let d := ta_set d (num_add scopeOffset (Some EventStruct.END_TIME)) time in
  let childTime := ta_get (childTimeStack s) (Some top) in
  let systemTime := ta_get (systemTimeStack s) (Some top) in
  let d := ta_set d (num_add scopeOffset (Some EventStruct.SYSTEM_TIME)) systemTime in
  let d := ta_set d (num_add scopeOffset (Some EventStruct.CHILD_TIME)) childTime in
  let cts := ta_set (childTimeStack s) (Some top) (Some 0) in
  let sts := ta_set (systemTimeStack s) (Some top) (Some 0) in
  if top =? 0 then
    Normal (mkRescope d (r_argumentData s) (r_table s) (stack s) (typeStack s)
              cts sts top (stackMax s))
  else
    let cts :=
      ta_set cts (Some (top - 1)) (num_add (ta_get cts (Some (top - 1))) duration) in
    match typeStack s !! top with
    | None =>
        Throw (mkRescope d (r_argumentData s) (r_table s) (stack s) (typeStack s)
                 cts sts top (stackMax s))
    | Some ty =>
        let systemTime :=
          if property_has_SYSTEM_TIME ty then num_add systemTime duration
          else systemTime in
        let sts :=
          ta_set sts (Some (top - 1)) (num_add (ta_get sts (Some (top - 1))) systemTime) in
        Normal (mkRescope d (r_argumentData s) (r_table s) (stack s) (typeStack s)
                  cts sts top (stackMax s))
    end.

(** One iteration of the loop of [rescopeEvents_], on record [n]. *)
Definition rescope_step (g : GenericIds) (count : Z) (n : Z) (s : Rescope)
    : outcome Rescope :=
  let o := n * EventStruct.STRUCT_SIZE in
  let parentId := ta_get (stack s) (Some (stackTop s)) in
  let d := ta_set (r_eventData s) (Some (o + EventStruct.PARENT)) parentId in
  let d := ta_set d (Some (o + EventStruct.DEPTH)) (Some (stackTop s)) in
  let nextEventId :=
    if n <? count - 1
    then ta_get d (Some (o + EventStruct.STRUCT_SIZE + EventStruct.ID))
    else Some 0 in
  let d := ta_set d (Some (o + EventStruct.NEXT_SIBLING)) nextEventId in
  let typeId := ta_get d (Some (o + EventStruct.TYPE)) in
  if num_eqb typeId (scopeEnterId g) then
    match args_at (r_argumentData s) (ta_get d (Some (o + EventStruct.ARGUMENTS))) with
    | None => Throw (with_eventData s d)
    | Some args =>
        let r := resolve_type (r_table s) createScope (key_of (args_get args "name")) in
        let d := ta_set d (Some (o + EventStruct.TYPE)) (property_id r.1) in
        Normal (push_scope s d r.2 o r.1)
    end
  else if num_eqb typeId (scopeLeaveId g) then
    scope_leave s d o parentId nextEventId
  else if num_eqb typeId (appendScopeDataId g) then
    appendScopeData_ s d (ta_get (stack s) (Some (stackTop s)))
      (ta_get d (Some (o + EventStruct.ARGUMENTS)))
  else if num_eqb typeId (timeStampId g) then
    match args_at (r_argumentData s) (ta_get d (Some (o + EventStruct.ARGUMENTS))) with
    | None => Throw (with_eventData s d)
    | Some args =>
        let r := resolve_type (r_table s) createInstance (key_of (args_get args "name")) in
        let d := ta_set d (Some (o + EventStruct.TYPE)) (property_id r.1) in
        Normal (mkRescope d (r_argumentData s) r.2 (stack s) (typeStack s)
                  (childTimeStack s) (systemTimeStack s) (stackTop s) (stackMax s))
    end
  else
    match from_option (getById (r_table s)) None typeId with
    | None => Throw (with_eventData s d)
    | Some type =>
        if decide (eventClass type = SCOPE)
        then Normal (push_scope s d (r_table s) o (Own type))
        else Normal (with_eventData s d)
    end.

Fixpoint rescope_loop (g : GenericIds) (count : Z) (ns : list Z) (s : Rescope)
    : outcome Rescope :=
  match ns with
  | [] => Normal s
  | n :: ns' => bind_outcome (rescope_step g count n s) (rescope_loop g count ns')
  end.

Definition rescope_init (el : EventList) : Rescope :=
  mkRescope (eventData el) (argumentData_ el) (eventTypeTable el)
    (new_Uint32Array 256) ∅ (new_Uint32Array 256) (new_Uint32Array 256) 0 0.

Definition rescopeEvents_ (el : EventList) : outcome EventList :=
  match rescope_loop (generic_ids (eventTypeTable el)) (count el)
          (seqZ 0 (count el)) (rescope_init el) with
  | Normal s =>
      Normal (mkEventList (r_table s) (count el) (capacity_ el) (r_eventData s)
                (r_argumentData s) (nextArgumentDataId_ el)
                (firstEventTime_ el) (lastEventTime_ el) (stackMax s))
  | Throw s =>
      Throw (mkEventList (r_table s) (count el) (capacity_ el) (r_eventData s)
               (r_argumentData s) (nextArgumentDataId_ el)
               (firstEventTime_ el) (lastEventTime_ el) (maximumScopeDepth_ el))
  end.

End Flags.

(** *** Ancillary lists *)

(** [wtf.db.IAncillaryList]: the three methods of a derived index.  A
    handler gets the iterator to read the event; it has no access to the
    buffer other than through it. *)
Class IAncillaryList (L : Type) : Type := {
  beginRebuild : L → EventTypeTable → list (option EventType);
  handleEvent : L → Z → EventType → EventIterator → L;
  endRebuild : L → L
}.

(** An entry of [typeMap]: the position of the list in [lists], the index
    of the type in what its [beginRebuild] returned, and the type. *)
Record Handler : Type := mkHandler {
  h_list : nat;
  h_eventTypeIndex : Z;
  h_eventType : EventType
}.

Section Ancillary.
Context {L : Type} `{IAncillaryList L}.

Definition add_handlers (n : nat) (desiredTypes : list (option EventType))
    (typeMap : gmap Z (list Handler)) : gmap Z (list Handler) :=
  foldl (λ tm p,
           match p.2 with
           | None => tm
           | Some desiredType =>
               <[id desiredType :=
                   default [] (tm !! id desiredType)
                   ++ [mkHandler n (Z.of_nat p.1) desiredType]]> tm
           end)
    typeMap (imap (λ m t, (m, t)) desiredTypes).

Definition build_typeMap (T : EventTypeTable) (lists : list L)
    : gmap Z (list Handler) :=
  foldl (λ tm p, add_handlers p.1 (beginRebuild p.2 T) tm) ∅
    (imap (λ n l, (n, l)) lists).

Definition dispatch (it : EventIterator) (n : Z) (handlers : list Handler)
    (lists : list L) : list L :=
  foldl (λ ls h,
           alter (λ l, handleEvent l (h_eventTypeIndex h) (h_eventType h) (seek it n))
             (h_list h) ls)
    lists handlers.

Definition rebuildAncillaryLists_ (el : EventList) (lists : list L) : list L :=
  if decide (length lists = 0%nat) then lists
  else
    let typeMap := build_typeMap (eventTypeTable el) lists in
    let it := new_EventIterator el 0 (count el - 1) 0 in
    let lists :=
      foldl (λ ls n,
               let typeId :=
                 ta_get (eventData el)
                   (Some (n * EventStruct.STRUCT_SIZE + EventStruct.TYPE)) in
               match from_option (λ t, typeMap !! t) None typeId with
               | Some handlers => dispatch it n handlers ls
               | None => ls
               end)
        lists (seqZ 0 (count el)) in
    endRebuild <$> lists.

(** *** rebuild *)

Definition rebuild (EventFlag_SYSTEM_TIME : Z) (el : EventList) (lists : list L)
    : outcome (EventList * list L) :=
  match rescopeEvents_ EventFlag_SYSTEM_TIME (resortEvents_ el) with
  | Normal el' => Normal (el', rebuildAncillaryLists_ el' lists)
  | Throw el' => Throw (el', lists)
  end.

End Ancillary.

(** *** Lookup by time *)

Definition Qltb (x y : Q) : bool := negb (Qle_bool y x).

(** A double that is not NaN: a finite one is the rational it stands
    for. *)
Inductive double : Type :=
  | Finite (q : Q)
  | PlusInfinity
  | MinusInfinity.

(** [2^e] *)
Definition Qpow2 (e : Z) : Q :=
  if 0 <=? e then inject_Z (2 ^ e) else 1 # Z.to_pos (2 ^ (- e)).

(** The exponent [e] with [2^e <= |q| < 2^(e+1)], for [q] other than 0. *)
Definition binade (q : Q) : Z :=
  let e := Z.log2 (Z.abs (Qnum q)) - Z.log2 (Zpos (Qden q)) in
  if Qle_bool (Qpow2 e) (Qabs q) then e else e - 1.

(** To the nearest integer, a half to the even one. *)
Definition round_half_even (q : Q) : Z :=
  let fl := Qfloor q in
  match (q - inject_Z fl ?= 1 # 2)%Q with
  | Lt => fl
  | Gt => fl + 1
  | Eq => if Z.even fl then fl else fl + 1
  end.

(** The double nearest to [q], as IEEE 754 rounds a result (binary64, to
    nearest, ties to even): a multiple of [2^(e - 52)], where [e] is the
    exponent of [q] and at least -1022, and an infinity from [2^1024]
    on. *)
Definition round_double (q : Q) : double :=
  if Qeq_bool q 0 then Finite 0
  else
    let ulp := Qpow2 (Z.max (binade q) (-1022) - 52) in
    let r := Qred (inject_Z (round_half_even (q / ulp)) * ulp) in
    if Qle_bool (Qpow2 1024) (Qabs r)
    then (if Qle_bool 0 q then PlusInfinity else MinusInfinity)
    else Finite r.

(** [a * b] on doubles. *)
Definition double_mul (a b : Q) : double := round_double (a * b).

(** [a < t] for a number and a double; a comparison with [undefined] is
    false. *)
Definition num_lt_double (a : num) (t : double) : bool :=
  match a, t with
  | Some x, Finite q => Qltb (inject_Z x) q
  | Some _, PlusInfinity => true
  | Some _, MinusInfinity => false
  | None, _ => false
  end.

(** The [while (low < high)] loop of [getIndexOfEventNearTime]; it ends
    within [high - low] rounds ([near_loop_fuel] below). *)
Fixpoint near_loop (fuel : nat) (eventData : list Z) (time : double) (low high : Z) : Z :=
  match fuel with
  | O => low
  | S fuel =>
      if low <? high then
        let mid := ToInt32 ((low + high) ÷ 2) in
        let o := mid * EventStruct.STRUCT_SIZE in
        let midValue := ta_get eventData (Some (o + EventStruct.TIME)) in
        if num_lt_double midValue time
        then near_loop fuel eventData time (mid + 1) high
        else near_loop fuel eventData time low mid
      else low
  end.

(** [time] is in milliseconds, a finite double. *)
Definition getIndexOfEventNearTime (el : EventList) (time : Q) : Z :=
  let time := double_mul time 1000 in
  let low := near_loop (Z.to_nat (count el)) (eventData el) time 0 (count el - 1) in
  if low =? 0 then 0 else low - 1.

(** ** wtf.db.FrameList *)

(** Modelled from the spec: [wtf.db.Frame] is not among the sources.  A
    frame has its number, the start and the end event it was given, if
    any, and their times in milliseconds, 0 until the event is set. *)
Record Frame : Type := mkFrame {
  number_ : Value;
  startEvent_ : option Z;
  endEvent_ : option Z;
  time_ : Q;
  endTime_ : Q
}.

Definition new_Frame (number : Value) : Frame := mkFrame number None None 0%Q 0%Q.

Definition setStartEvent (f : Frame) (it : EventIterator) : Frame :=
  mkFrame (number_ f) (Some (getId it)) (endEvent_ f) (getTime it) (endTime_ f).

Definition setEndEvent (f : Frame) (it : EventIterator) : Frame :=
  mkFrame (number_ f) (startEvent_ f) (Some (getId it)) (time_ f) (getTime it).

(** Frames are objects that the map [frames_] and the array [frameList_]
    share: [frame_objects] holds them, and both refer to a frame by its
    position there. *)
Record FrameList : Type := mkFrameList {
  frame_objects : list Frame;
  frames_ : gmap string nat;
  frameList_ : list nat
}.

Definition new_FrameList : FrameList := mkFrameList [] ∅ [].

Definition FrameList_getCount (fl : FrameList) : Z := Z.of_nat (length (frameList_ fl)).

(** Neither name is one of [Object.prototype]. *)
Definition FrameList_beginRebuild (fl : FrameList) (T : EventTypeTable)
    : list (option EventType) :=
  [own_entry (getByName T "wtf.timing#frameStart");
   own_entry (getByName T "wtf.timing#frameEnd")].

(** [handleEvent]: the frame list after the call.  Under a number that
    is a name of [Object.prototype] the read [this.frames_[number]] finds
    the inherited property: no frame is made, and the call of
    [setStartEvent] or [setEndEvent], which the property lacks, throws
    with the frame list as it was. *)
Definition FrameList_handleEvent (fl : FrameList) (eventTypeIndex : Z)
    (eventType : EventType) (it : EventIterator) : FrameList :=
  let number := getArgument it "number" in
  match obj_get (frames_ fl) (key_of number) with
  | Some (Inherited _) => fl
  | frame =>
      let found :=
        match own_entry frame with
        | Some r => (r, fl)
        | None =>
            let r := length (frame_objects fl) in
            (r, mkFrameList (frame_objects fl ++ [new_Frame number])
                  (<[key_of number := r]> (frames_ fl))
                  (frameList_ fl ++ [r]))
        end in
      let fl := found.2 in
      if eventTypeIndex =? 0 then
        mkFrameList (alter (λ f, setStartEvent f it) found.1 (frame_objects fl))
          (frames_ fl) (frameList_ fl)
      else if eventTypeIndex =? 1 then
        mkFrameList (alter (λ f, setEndEvent f it) found.1 (frame_objects fl))
          (frames_ fl) (frameList_ fl)
      else fl
  end.

(** [frame.getTime() && frame.getEndTime()] *)
Definition frame_complete (f : Frame) : bool :=
  negb (Qeq_bool (time_ f) 0) && negb (Qeq_bool (endTime_ f) 0).

Definition FrameList_endRebuild (fl : FrameList) : FrameList :=
  let r :=
    foldl (λ acc n,
             match frame_objects fl !! n with
             | Some frame =>
                 if frame_complete frame then (acc.1 ++ [n], acc.2)
                 else (acc.1, delete (key_of (number_ frame)) acc.2)
             | None => acc
             end)
      ([], frames_ fl) (frameList_ fl) in
  mkFrameList (frame_objects fl) r.2 r.1.

Global Instance FrameList_ancillary : IAncillaryList FrameList := {
  beginRebuild := FrameList_beginRebuild;
  handleEvent := FrameList_handleEvent;
  endRebuild := FrameList_endRebuild
}.

(** [goog.math.clamp] of the Closure library. *)
Definition clamp (value lo hi : Z) : Z := Z.min (Z.max value lo) hi.

(** [getFrameAtTime]; [binarySelect frames time] stands for
    [goog.array.binarySelect(frameList_, wtf.db.Frame.selector, {time})],
    neither of which is among the sources. *)
Definition getFrameAtTime (binarySelect : list Frame → Q → Z)
    (fl : FrameList) (time : Q) : option Frame :=
  if decide (length (frameList_ fl) = 0%nat) then None
  else
    let frames := omap (λ r, frame_objects fl !! r) (frameList_ fl) in
    let index := binarySelect frames time in
    let index := if index <? 0 then - index - 2 else index in
    let index := clamp index 0 (Z.of_nat (length (frameList_ fl)) - 1) in
    match frames !! Z.to_nat index with
    | Some frame =>
        if Qle_bool (time_ frame) time && Qle_bool time (endTime_ frame)
        then Some frame else None
    | None => None
    end.

(** ** wtf.db.ScopeEventDataEntry *)

Record ScopeEventDataEntry : Type := mkScopeEventDataEntry {
  entry_eventType : EventType;
  entry_count : Z;
  totalTime_ : Q;
  userTime_ : Q;
  buckets_ : list Z
}.

Definition new_ScopeEventDataEntry (eventType : EventType) : ScopeEventDataEntry :=
  mkScopeEventDataEntry eventType 0 0%Q 0%Q (new_Uint32Array 1000).

(** [Math.round]: to the nearest integer, halves upwards. *)
Definition Math_round (x : Q) : Z := Qfloor (x + (1 # 2))%Q.

(** The bucket [appendEvent] counts an event of this user duration in. *)
Definition bucket_of (userDuration : Q) : Z :=
  let bucketIndex := ToInt32 (Math_round userDuration) in
  if bucketIndex >=? 1000 then 999 else bucketIndex.

Definition appendEvent (e : ScopeEventDataEntry) (it : EventIterator)
    : ScopeEventDataEntry :=
  let userDuration := getUserDuration it in
  let bucketIndex := bucket_of userDuration in
  mkScopeEventDataEntry (entry_eventType e) (entry_count e + 1)
    (totalTime_ e + getTotalDuration it)%Q
    (userTime_ e + userDuration)%Q
    (ta_set (buckets_ e) (Some bucketIndex)
       (num_add (ta_get (buckets_ e) (Some bucketIndex)) (Some 1))).

Definition getMeanTime (EventFlag_SYSTEM_TIME : Z) (e : ScopeEventDataEntry) : Q :=
  if negb (entry_count e =? 0) then
    if has_SYSTEM_TIME EventFlag_SYSTEM_TIME (entry_eventType e)
    then (totalTime_ e / inject_Z (entry_count e))%Q
    else (userTime_ e / inject_Z (entry_count e))%Q
  else 0%Q.

(** ** Definitions used to state the properties *)

Definition sum_cells (l : list Z) : Z := foldr Z.add 0 l.

(** How many of the events [its] fall into bucket [i]. *)
Definition events_in_bucket (its : list EventIterator) (i : Z) : Z :=
  Z.of_nat (length (filter (λ it, bucket_of (getUserDuration it) = i) its)).

(** *** A small database for the scenarios

    The four generic types, two scope types [A] and [B], of which [B] has
    the flags [b_flags], an instance type [X] and the two frame types. *)
Definition example_table (b_flags : Z) : EventTypeTable :=
  foldl (λ T ty, (defineType T ty).2) new_EventTypeTable
    [mkEventType "wtf.scope#enter" 0 SCOPE 0;
     mkEventType "wtf.scope#leave" 0 INSTANCE 0;
     mkEventType "wtf.scope#appendData" 0 INSTANCE 0;
     mkEventType "wtf.trace#timeStamp" 0 INSTANCE 0;
     mkEventType "A" 0 SCOPE 0;
     mkEventType "B" 0 SCOPE b_flags;
     mkEventType "X" 0 INSTANCE 0;
     mkEventType "wtf.timing#frameStart" 0 INSTANCE 0;
     mkEventType "wtf.timing#frameEnd" 0 INSTANCE 0].

Definition ty_enter : EventType := mkEventType "wtf.scope#enter" 1 SCOPE 0.
Definition ty_leave : EventType := mkEventType "wtf.scope#leave" 2 INSTANCE 0.
Definition ty_appendData : EventType := mkEventType "wtf.scope#appendData" 3 INSTANCE 0.
Definition ty_timeStamp : EventType := mkEventType "wtf.trace#timeStamp" 4 INSTANCE 0.
Definition ty_A : EventType := mkEventType "A" 5 SCOPE 0.
Definition ty_B (b_flags : Z) : EventType := mkEventType "B" 6 SCOPE b_flags.
Definition ty_X : EventType := mkEventType "X" 7 INSTANCE 0.
Definition ty_frameStart : EventType := mkEventType "wtf.timing#frameStart" 8 INSTANCE 0.
Definition ty_frameEnd : EventType := mkEventType "wtf.timing#frameEnd" 9 INSTANCE 0.

(** The list after the events [evs] and one [rebuild], with no ancillary
    list, whether [rebuild] returned or threw. *)
Definition rebuilt (EventFlag_SYSTEM_TIME b_flags : Z) (evs : list Event)
    : EventList :=
  (outcome_state
     (rebuild (L:=FrameList) EventFlag_SYSTEM_TIME
        (insert_all (new_EventList (example_table b_flags)) evs) [])).1.

(** A scope [A] from 0 to 100 μs and a scope [A] entered at 5000 μs that
    the trace does not leave. *)
Definition unclosed_scope_events : list Event :=
  [mkEvent ty_A 0 None; mkEvent ty_leave 100 None; mkEvent ty_A 5000 None].

(** Three instance events at 0, 1 and 2 ms. *)
Definition three_instants : list Event :=
  [mkEvent ty_X 0 None; mkEvent ty_X 1000 None; mkEvent ty_X 2000 None].

(** The frame lists a program can build: the new one and what the two
    mutating methods make of a list. *)
Inductive frames_reachable : FrameList → Prop :=
  | frames_new : frames_reachable new_FrameList
  | frames_handle fl i ty it :
      frames_reachable fl → frames_reachable (FrameList_handleEvent fl i ty it)
  | frames_end fl :
      frames_reachable fl → frames_reachable (FrameList_endRebuild fl).

(** The invariant of a frame list: the array refers to frames that exist,
    and a frame without an event has the time 0 in its place. *)
Definition FrameList_ok (fl : FrameList) : Prop :=
  (∀ r, r ∈ frameList_ fl → is_Some (frame_objects fl !! r)) ∧
  (∀ f, f ∈ frame_objects fl →
     (startEvent_ f = None → time_ f = 0%Q) ∧
     (endEvent_ f = None → endTime_ f = 0%Q)).

(** Scenario S4 of the spec. *)
Definition frame_events : list Event :=
  [mkEvent ty_frameStart 1000 (Some [("number", VNum 1)]);
   mkEvent ty_frameEnd 17000 (Some [("number", VNum 1)]);
   mkEvent ty_frameStart 17000 (Some [("number", VNum 2)])].

Definition frames_after_rebuild : list FrameList :=
  (outcome_state
     (rebuild 4 (insert_all (new_EventList (example_table 0)) frame_events)
        [new_FrameList])).2.

(** Scenario S3 of the spec: a scope [A] from 0 to 500 μs directly
    contains a scope [B] from 100 to 300 μs. *)
Definition system_time_events (b_flags : Z) : list Event :=
  [mkEvent ty_A 0 None; mkEvent (ty_B b_flags) 100 None;
   mkEvent ty_leave 300 None; mkEvent ty_leave 500 None].

(** The other way round: [B] from 0 to 500 μs contains [A] from 100 to 300. *)
Definition system_time_events_swapped (b_flags : Z) : list Event :=
  [mkEvent (ty_B b_flags) 0 None; mkEvent ty_A 100 None;
   mkEvent ty_leave 300 None; mkEvent ty_leave 500 None].

(** An instance event without arguments, then an append of arguments to
    the current scope while no scope is open. *)
Definition append_at_root_events : list Event :=
  [mkEvent ty_X 0 None;
   mkEvent ty_appendData 10 (Some [("k", VStr "v")])].

(** *** Invariants of the event list *)

Definition u32_cells (d : list Z) : Prop := Forall (λ z, 0 ≤ z < 2 ^ 32) d.

(** The invariant of an event list: the buffer has room for one more
    record, holds 32-bit cells, is zero behind the last record, every
    record carries its index as ID, and the ARGUMENTS cells name interned
    argument bags. *)
Record list_wf (el : EventList) : Prop := mkListWf {
  lwf_count : 0 ≤ count el < 2 ^ 32;
  lwf_length : Z.of_nat (length (eventData el)) = capacity_ el * 12;
  lwf_room : count el < capacity_ el ∨ (count el = 0 ∧ capacity_ el = 0);
  lwf_cells : u32_cells (eventData el);
  lwf_slack : ∀ j v, count el * 12 ≤ j →
      ta_get (eventData el) (Some j) = Some v → v = 0;
  lwf_id : ∀ i, 0 ≤ i < count el →
      ta_get (eventData el) (Some (i * 12)) = Some i;
  lwf_args_next : 1 ≤ nextArgumentDataId_ el ≤ count el + 1;
  lwf_args_dom : ∀ k, is_Some (argumentData_ el !! k) ↔
      1 ≤ k < nextArgumentDataId_ el;
  lwf_args_cell : ∀ i a, 0 ≤ i < count el →
      ta_get (eventData el) (Some (i * 12 + 6)) = Some a →
      a < nextArgumentDataId_ el
}.

Definition with_table (el : EventList) (T : EventTypeTable) : EventList :=
  mkEventList T (count el) (capacity_ el) (eventData el) (argumentData_ el)
    (nextArgumentDataId_ el) (firstEventTime_ el) (lastEventTime_ el)
    (maximumScopeDepth_ el).

(** The event lists a program can build.  A list starts empty over a type
    table; events are inserted (a typed array has fewer than 2^32 cells, so
    never 2^32 records); the list is rebuilt, and [rebuild] may return or
    throw; the database may define a type in the table. *)
Inductive list_reachable : EventList → Prop :=
  | lreach_new T :
      table_reachable T → list_reachable (new_EventList T)
  | lreach_insert el ty time args :
      list_reachable el → count el + 1 < 2 ^ 32 →
      list_reachable (insert el ty time args)
  | lreach_rebuild flag el :
      list_reachable el →
      list_reachable (outcome_state (rescopeEvents_ flag (resortEvents_ el)))
  | lreach_define el ty :
      list_reachable el →
      list_reachable (with_table el (defineType (eventTypeTable el) ty).2).

(** The capacity and the buffer that [insert] writes the record into. *)
Definition grown (el : EventList) : Z * list Z :=
  if count el + 1 >=? capacity_ el then
    let capacity := Z.max (capacity_ el * 2) 1024 in
    let newSize := capacity * EventStruct.STRUCT_SIZE in
    (capacity,
     copy_cells (count el * EventStruct.STRUCT_SIZE) (eventData el)
       (new_Uint32Array newSize))
  else (capacity_ el, eventData el).

(** *** The loop of rescopeEvents_, one iteration at a time

    What an iteration reads and writes, in terms of the state [s] it
    starts from: the reads of the code come after some of its writes, but
    never from a cell written before in the same iteration. *)

(** A sequence of writes [(cell, value)] to a typed array. *)
Definition apply_writes (d : list Z) (ws : list (num * num)) : list Z :=
  foldl (λ d w, ta_set d w.1 w.2) d ws.

(** Cell [j] of the buffer. *)
Definition rd (s : Rescope) (j : Z) : num := ta_get (r_eventData s) (Some j).

(** [stack[stackTop]] *)
Definition parent (s : Rescope) : num := ta_get (stack s) (Some (stackTop s)).

(** [nextEventId] *)
Definition next_id (cnt n : Z) (s : Rescope) : num :=
  if n <? cnt - 1 then rd s (n * 12 + 12) else Some 0.

(** Cell [f] of the record [stack[stackTop]]. *)
Definition scope_cell (s : Rescope) (f : Z) : num :=
  num_add (num_mul (parent s) 12) (Some f).

(** The three writes that open every iteration. *)
Definition prologue (cnt n : Z) (s : Rescope) : list (num * num) :=
  [(Some (n * 12 + 2), parent s);
   (Some (n * 12 + 3), Some (stackTop s));
   (Some (n * 12 + 5), next_id cnt n s)].

(** The writes of the scope leave branch. *)
Definition leave_writes (cnt n : Z) (s : Rescope) : list (num * num) :=
  prologue cnt n s ++
  [(Some (n * 12 + 5), Some 0);
   (scope_cell s 5, next_id cnt n s);
   (scope_cell s 9, rd s (n * 12 + 4));
   (scope_cell s 10, ta_get (systemTimeStack s) (Some (stackTop s - 1)));
   (scope_cell s 11, ta_get (childTimeStack s) (Some (stackTop s - 1)))].

(** [duration] of the scope leave branch. *)
Definition leave_duration (n : Z) (s : Rescope) : num :=
  num_sub (rd s (n * 12 + 4)) (ta_get (r_eventData s) (scope_cell s 4)).

(** The state after [stack[++stackTop] = ID; typeStack[stackTop] = ty]. *)
Definition pushed (n : Z) (s : Rescope) (d : list Z) (T : EventTypeTable)
    (ty : property EventType) : Rescope :=
  mkRescope d (r_argumentData s) T
    (ta_set (stack s) (Some (stackTop s + 1)) (rd s (n * 12)))
    (<[stackTop s + 1 := ty]> (typeStack s))
    (childTimeStack s) (systemTimeStack s) (stackTop s + 1)
    (Z.max (stackMax s) (stackTop s + 1)).

(** The state after the scope leave branch, given the two time stacks. *)
Definition scope_left (cnt n : Z) (s : Rescope) (cts sts : list Z) : Rescope :=
  mkRescope (apply_writes (r_eventData s) (leave_writes cnt n s))
    (r_argumentData s) (r_table s) (stack s) (typeStack s)
    cts sts (stackTop s - 1) (stackMax s).

Definition childTime_reset (s : Rescope) : list Z :=
  ta_set (childTimeStack s) (Some (stackTop s - 1)) (Some 0).

Definition systemTime_reset (s : Rescope) : list Z :=
  ta_set (systemTimeStack s) (Some (stackTop s - 1)) (Some 0).

Definition childTime_rolled (n : Z) (s : Rescope) : list Z :=
  ta_set (childTime_reset s) (Some (stackTop s - 1 - 1))
    (num_add (ta_get (childTime_reset s) (Some (stackTop s - 1 - 1)))
       (leave_duration n s)).

Definition systemTime_rolled (EventFlag_SYSTEM_TIME : Z) (n : Z) (s : Rescope)
    (ty : property EventType) : list Z :=
  let systemTime := ta_get (systemTimeStack s) (Some (stackTop s - 1)) in
  let systemTime :=
    if property_has_SYSTEM_TIME EventFlag_SYSTEM_TIME ty
    then num_add systemTime (leave_duration n s) else systemTime in
  ta_set (systemTime_reset s) (Some (stackTop s - 1 - 1))
    (num_add (ta_get (systemTime_reset s) (Some (stackTop s - 1 - 1))) systemTime).

(** The branch an iteration takes. *)
Inductive Kind : Type := KEnter | KLeave | KAppend | KTimeStamp | KOther.

Definition kind_of (g : GenericIds) (typeId : num) : Kind :=
  if num_eqb typeId (scopeEnterId g) then KEnter
  else if num_eqb typeId (scopeLeaveId g) then KLeave
  else if num_eqb typeId (appendScopeDataId g) then KAppend
  else if num_eqb typeId (timeStampId g) then KTimeStamp
  else KOther.

(** What one iteration on record [n] does to the state [s]: one rule for
    each path through the body of the loop. *)
Inductive Step (EventFlag_SYSTEM_TIME : Z) (g : GenericIds) (cnt n : Z)
    (s : Rescope) : outcome Rescope → Prop :=
  | step_enter_throw :
      kind_of g (rd s (n * 12 + 1)) = KEnter →
      args_at (r_argumentData s) (rd s (n * 12 + 6)) = None →
      Step EventFlag_SYSTEM_TIME g cnt n s
        (Throw (with_eventData s (apply_writes (r_eventData s) (prologue cnt n s))))
  | step_enter args :
      kind_of g (rd s (n * 12 + 1)) = KEnter →
      args_at (r_argumentData s) (rd s (n * 12 + 6)) = Some args →
      let r := resolve_type (r_table s) createScope (key_of (args_get args "name")) in
      Step EventFlag_SYSTEM_TIME g cnt n s
        (Normal (pushed n s
                   (apply_writes (r_eventData s)
                      (prologue cnt n s ++ [(Some (n * 12 + 1), property_id r.1)]))
                   r.2 r.1))
  | step_leave_root :
      kind_of g (rd s (n * 12 + 1)) = KLeave →
      stackTop s - 1 = 0 →
      Step EventFlag_SYSTEM_TIME g cnt n s
        (Normal (scope_left cnt n s (childTime_reset s) (systemTime_reset s)))
  | step_leave_throw :
      kind_of g (rd s (n * 12 + 1)) = KLeave →
      stackTop s - 1 ≠ 0 →
      typeStack s !! (stackTop s - 1) = None →
      Step EventFlag_SYSTEM_TIME g cnt n s
        (Throw (scope_left cnt n s (childTime_rolled n s) (systemTime_reset s)))
  | step_leave ty :
      kind_of g (rd s (n * 12 + 1)) = KLeave →
      stackTop s - 1 ≠ 0 →
      typeStack s !! (stackTop s - 1) = Some ty →
      Step EventFlag_SYSTEM_TIME g cnt n s
        (Normal (scope_left cnt n s (childTime_rolled n s)
                   (systemTime_rolled EventFlag_SYSTEM_TIME n s ty)))
  | step_append_adopt :
      kind_of g (rd s (n * 12 + 1)) = KAppend →
      truthy (ta_get (r_eventData s) (scope_cell s 6)) = false →
      Step EventFlag_SYSTEM_TIME g cnt n s
        (Normal (with_eventData s
                   (apply_writes (r_eventData s)
                      (prologue cnt n s ++ [(scope_cell s 6, rd s (n * 12 + 6))]))))
  | step_append_merge scopeArgsId this other :
      kind_of g (rd s (n * 12 + 1)) = KAppend →
      ta_get (r_eventData s) (scope_cell s 6) = Some scopeArgsId →
      scopeArgsId ≠ 0 →
      r_argumentData s !! scopeArgsId = Some this →
      args_at (r_argumentData s) (rd s (n * 12 + 6)) = Some other →
      Step EventFlag_SYSTEM_TIME g cnt n s
        (Normal (mkRescope (apply_writes (r_eventData s) (prologue cnt n s))
                   (<[scopeArgsId := merge this other]> (r_argumentData s))
                   (r_table s) (stack s) (typeStack s)
                   (childTimeStack s) (systemTimeStack s) (stackTop s) (stackMax s)))
  | step_append_throw scopeArgsId :
      kind_of g (rd s (n * 12 + 1)) = KAppend →
      ta_get (r_eventData s) (scope_cell s 6) = Some scopeArgsId →
      scopeArgsId ≠ 0 →
      r_argumentData s !! scopeArgsId = None ∨
      args_at (r_argumentData s) (rd s (n * 12 + 6)) = None →
      Step EventFlag_SYSTEM_TIME g cnt n s
        (Throw (with_eventData s (apply_writes (r_eventData s) (prologue cnt n s))))
  | step_timeStamp_throw :
      kind_of g (rd s (n * 12 + 1)) = KTimeStamp →
      args_at (r_argumentData s) (rd s (n * 12 + 6)) = None →
      Step EventFlag_SYSTEM_TIME g cnt n s
        (Throw (with_eventData s (apply_writes (r_eventData s) (prologue cnt n s))))
  | step_timeStamp args :
      kind_of g (rd s (n * 12 + 1)) = KTimeStamp →
      args_at (r_argumentData s) (rd s (n * 12 + 6)) = Some args →
      let r := resolve_type (r_table s) createInstance (key_of (args_get args "name")) in
      Step EventFlag_SYSTEM_TIME g cnt n s
        (Normal (mkRescope
                   (apply_writes (r_eventData s)
                      (prologue cnt n s ++ [(Some (n * 12 + 1), property_id r.1)]))
                   (r_argumentData s) r.2 (stack s) (typeStack s)
                   (childTimeStack s) (systemTimeStack s) (stackTop s) (stackMax s)))
  | step_other_throw :
      kind_of g (rd s (n * 12 + 1)) = KOther →
      from_option (getById (r_table s)) None (rd s (n * 12 + 1)) = None →
      Step EventFlag_SYSTEM_TIME g cnt n s
        (Throw (with_eventData s (apply_writes (r_eventData s) (prologue cnt n s))))
  | step_other_scope ty :
      kind_of g (rd s (n * 12 + 1)) = KOther →
      from_option (getById (r_table s)) None (rd s (n * 12 + 1)) = Some ty →
      eventClass ty = SCOPE →
      Step EventFlag_SYSTEM_TIME g cnt n s
        (Normal (pushed n s (apply_writes (r_eventData s) (prologue cnt n s))
                   (r_table s) (Own ty)))
  | step_other_instance ty :
      kind_of g (rd s (n * 12 + 1)) = KOther →
      from_option (getById (r_table s)) None (rd s (n * 12 + 1)) = Some ty →
      eventClass ty ≠ SCOPE →
      Step EventFlag_SYSTEM_TIME g cnt n s
        (Normal (with_eventData s (apply_writes (r_eventData s) (prologue cnt n s)))).

(** The cells an iteration may write: three cells of its record in
    every branch, the TYPE of its record in the two branches that resolve
    a name, and cells of the record [stack[stackTop]], of which the
    ARGUMENTS only when it holds no id yet. *)
Definition write_ok (g : GenericIds) (n : Z) (s : Rescope) (w : num * num) : Prop :=
  ∀ j, w.1 = Some j →
    (j = n * 12 + 2 ∨ j = n * 12 + 3 ∨ j = n * 12 + 5) ∨
    (j = n * 12 + 1 ∧
       (kind_of g (rd s (n * 12 + 1)) = KEnter ∨
        kind_of g (rd s (n * 12 + 1)) = KTimeStamp)) ∨
    (∃ p, parent s = Some p ∧
       (j = p * 12 + 5 ∨ j = p * 12 + 9 ∨ j = p * 12 + 10 ∨ j = p * 12 + 11)) ∨
    (∃ p, parent s = Some p ∧ j = p * 12 + 6 ∧
       truthy (rd s j) = false ∧ w.2 = rd s (n * 12 + 6)).

(** The invariant of the loop of [rescopeEvents_] on the list [el]: the
    buffer keeps its length and its 32-bit cells, the ID, TIME, VALUE and TAG
    cells and the cells behind the last record are those of [el], the
    stack holds indices of records, and the ARGUMENTS cells name interned
    bags. *)
Record rescope_inv (el : EventList) (s : Rescope) : Prop := mkRescopeInv {
  ri_length : length (r_eventData s) = length (eventData el);
  ri_u32 : u32_cells (r_eventData s);
  ri_frame : ∀ j,
      j mod 12 = 0 ∨ j mod 12 = 4 ∨ j mod 12 = 7 ∨ j mod 12 = 8 ∨ count el * 12 ≤ j →
      rd s j = ta_get (eventData el) (Some j);
  ri_stack : ∀ k p, ta_get (stack s) (Some k) = Some p → 0 ≤ p < Z.max 1 (count el);
  ri_args_dom : ∀ k,
      is_Some (r_argumentData s !! k) ↔ is_Some (argumentData_ el !! k);
  ri_args_cell : ∀ i a, 0 ≤ i < count el →
      rd s (i * 12 + 6) = Some a → a < nextArgumentDataId_ el
}.

(** Record [a] comes before record [b] in the order of the spec: by TIME,
    and at equal times by position, which is the order of insertion. *)
Definition time_then_index (d : list Z) (a b : Z) : Prop :=
  field d a EventStruct.TIME < field d b EventStruct.TIME ∨
  (field d a EventStruct.TIME = field d b EventStruct.TIME ∧ a < b).

(** Scenario S2 of the spec: the events of S1 inserted in reverse. *)
Definition out_of_order_events : list Event :=
  [mkEvent ty_leave 500 None;
   mkEvent ty_leave 400 None;
   mkEvent ty_enter 100 (Some [("name", VStr "B")]);
   mkEvent ty_enter 0 (Some [("name", VStr "A")])].

(** The double that a decimal literal stands for, where it is finite. *)
Definition literal (q : Q) : Q :=
  match round_double q with
  | Finite r => r
  | _ => 0%Q
  end.

(** Three instance events at 0, 2.007 and 4.014 ms. *)
Definition drifting_instants : list Event :=
  [mkEvent ty_X 0 None; mkEvent ty_X 2007 None; mkEvent ty_X 4014 None].

(** A scope [A] from 0 to 1 μs with an instance event inside it, and an
    instance event after it. *)
Definition short_scope_events : list Event :=
  [mkEvent ty_A 0 None; mkEvent ty_X 0 None; mkEvent ty_leave 1 None;
   mkEvent ty_X 5 None].

(** Two events at the same time, told apart by their arguments, and an
    earlier event inserted after them. *)
Definition tied_events : list Event :=
  [mkEvent ty_X 5 (Some [("k", VNum 1)]);
   mkEvent ty_X 5 (Some [("k", VNum 2)]);
   mkEvent ty_A 0 None].

(** *** A second rebuild next to the first

    The second pass over a buffer [dy] is compared with the first pass
    over [dx] at the same iteration [n], where [F] is the buffer the first
    pass ends with and the second starts from. *)

(** The second pass has, in every cell, what the first has now or what it
    ends with; the ID and TIME cells agree; the TYPE cells of the records
    still to come and all ARGUMENTS cells are already final. *)
Record buf_rel (n : Z) (F dx dy : list Z) : Prop := mkBufRel {
  br_len : length dy = length dx;
  br_cells : ∀ j,
      ta_get dy (Some j) = ta_get dx (Some j) ∨
      ta_get dy (Some j) = ta_get F (Some j);
  br_fixed : ∀ j, j mod 12 = 0 ∨ j mod 12 = 4 →
      ta_get dy (Some j) = ta_get dx (Some j);
  br_types : ∀ i, n ≤ i →
      ta_get dy (Some (i * 12 + 1)) = ta_get F (Some (i * 12 + 1));
  br_args : ∀ j, j mod 12 = 6 → ta_get dy (Some j) = ta_get F (Some j)
}.

(** The argument ids in the final buffer name bags of the table. *)
Definition store_ok (F : list Z) (A : gmap Z ArgumentData) : Prop :=
  ∀ j v, j mod 12 = 6 → ta_get F (Some j) = Some v → v ≠ 0 → is_Some (A !! v).

(** The state of the second pass: the locals of the first, with a buffer,
    an argument table and the type table of its own. *)
Definition resume (X : Rescope) (dy : list Z) (ay : gmap Z ArgumentData)
    (T1 : EventTypeTable) : Rescope :=
  mkRescope dy ay T1 (stack X) (typeStack X) (childTimeStack X)
    (systemTimeStack X) (stackTop X) (stackMax X).

(** Record [i] is taken the same way by both passes: where the first pass
    over [dx] resolves a generic scope enter (a generic time stamp), the
    type in the final buffer [F] is not generic and of class SCOPE (not of
    class SCOPE) in the final table [T1]; and an append of scope data has
    arguments. *)
Definition kinds_ok (g : GenericIds) (T1 : EventTypeTable) (F dx : list Z)
    (i : Z) : Prop :=
  let t0 := ta_get dx (Some (i * 12 + 1)) in
  let t1 := ta_get F (Some (i * 12 + 1)) in
  (kind_of g t0 = KEnter →
     kind_of g t1 = KOther ∧
     ∃ ty, from_option (getById T1) None t1 = Some ty ∧ eventClass ty = SCOPE) ∧
  (kind_of g t0 = KTimeStamp →
     kind_of g t1 = KOther ∧
     ∃ ty, from_option (getById T1) None t1 = Some ty ∧ eventClass ty ≠ SCOPE) ∧
  (kind_of g t0 = KAppend → truthy (ta_get dx (Some (i * 12 + 6))) = true).

(** The condition under which a rebuild can be repeated: [el1] is the list
    after the first rebuild of [el0].  The first rebuild has defined no
    type under one of the four generic names, the type ids fit a cell, and
    every record is taken the same way again. *)
Definition rebuild_keeps_kinds (el0 el1 : EventList) : Prop :=
  generic_ids (eventTypeTable el1) = generic_ids (eventTypeTable el0) ∧
  nextTypeId_ (eventTypeTable el1) ≤ 2 ^ 32 ∧
  ∀ i, 0 ≤ i < count el0 →
    kinds_ok (generic_ids (eventTypeTable el0)) (eventTypeTable el1)
      (eventData el1) (eventData (resortEvents_ el0)) i.

(** A generic time stamp with the name of a property of
    [Object.prototype]. *)
Definition inherited_name_events : list Event :=
  [mkEvent ty_timeStamp 0 (Some [("name", VStr "toString")])].

(** A generic scope enter that names the instance type [X], and an event
    after it. *)
Definition name_collision_events : list Event :=
  [mkEvent ty_enter 0 (Some [("name", VStr "X")]);
   mkEvent ty_X 5 None].

(** ** wtf.db.EventList: getters and the iterators it hands out *)

Definition getFirstEventTime (el : EventList) : Q := firstEventTime_ el.

Definition getLastEventTime (el : EventList) : Q := lastEventTime_ el.

Definition getMaximumScopeDepth (el : EventList) : Z := maximumScopeDepth_ el.

(** [begin]: the last index is [getCount()], not [count - 1]. *)
Definition begin (el : EventList) : EventIterator :=
  new_EventIterator el 0 (getCount el) 0.

Definition beginEventRange (el : EventList) (startIndex endIndex : Z)
    : EventIterator :=
  new_EventIterator el startIndex endIndex startIndex.

Definition getEvent (el : EventList) (id : Z) : EventIterator :=
  new_EventIterator el id id id.

Definition getEventNearTime (el : EventList) (time : Q) : EventIterator :=
  getEvent el (getIndexOfEventNearTime el time).

(** ** wtf.db.EventIterator: moving the cursor *)

(** [next] does not look at [lastIndex_]. *)
Definition next (it : EventIterator) : EventIterator :=
  let index := index_ it + 1 in
  mkEventIterator (eventList_ it) (firstIndex_ it) (lastIndex_ it)
    index (index * EventStruct.STRUCT_SIZE).

(** The loop of [nextScope] and of [nextInstance], which differ in the
    test [stop] on the END_TIME cell that ends it.  The index grows by one
    in each round and the loop ends when it is beyond [lastIndex]: [fuel]
    rounds are enough when [fuel > lastIndex - i]. *)
Fixpoint skip_loop (stop : num → bool) (fuel : nat) (eventData : list Z)
    (lastIndex i o : Z) : Z * Z :=
  match fuel with
  | O => (i, o)
  | S fuel =>
      if i <=? lastIndex then
        let i := i + 1 in
        let o := o + EventStruct.STRUCT_SIZE in
        if stop (ta_get eventData (Some (o + EventStruct.END_TIME))) then (i, o)
        else skip_loop stop fuel eventData lastIndex i o
      else (i, o)
  end.

Definition skip_to (stop : num → bool) (it : EventIterator) : EventIterator :=
  let r := skip_loop stop (Z.to_nat (lastIndex_ it - index_ it + 1))
             (eventData (eventList_ it)) (lastIndex_ it) (index_ it) (offset_ it) in
  mkEventIterator (eventList_ it) (firstIndex_ it) (lastIndex_ it) r.1 r.2.

(** [if (eventData[o + END_TIME]) break] *)
Definition nextScope (it : EventIterator) : EventIterator := skip_to truthy it.

(** [if (!eventData[o + END_TIME]) break] *)
Definition nextInstance (it : EventIterator) : EventIterator :=
  skip_to (λ v, negb (truthy v)) it.

(** [seek(eventData_[offset_ + NEXT_SIBLING])]; [None] when the cell lies
    outside the buffer and [index_] becomes [undefined]. *)
Definition nextSibling (it : EventIterator) : option EventIterator :=
  match ta_get (eventData (eventList_ it))
          (Some (offset_ it + EventStruct.NEXT_SIBLING)) with
  | Some i => Some (seek it i)
  | None => None
  end.

(** [a >= 0]; a comparison with [undefined] is false. *)
Definition num_geb0 (a : num) : bool :=
  match a with Some x => 0 <=? x | None => false end.

Definition moveToParent (it : EventIterator) : EventIterator :=
  let parentIndex :=
    ta_get (eventData (eventList_ it)) (Some (offset_ it + EventStruct.PARENT)) in
  match parentIndex with
  | Some p => if 0 <=? p then seek it p else seek it (lastIndex_ it + 1)
  | None => seek it (lastIndex_ it + 1)
  end.

(** [getParent(opt_fast)].  [cachedParentIt_] is the iterator that the fast
    mode keeps and moves; the result is the parent, if any, and the cache
    afterwards. *)
Definition getParent (it : EventIterator) (cachedParentIt_ : option EventIterator)
    (opt_fast : bool) : option EventIterator * option EventIterator :=
  let parentIndex :=
    ta_get (eventData (eventList_ it)) (Some (offset_ it + EventStruct.PARENT)) in
  match parentIndex with
  | Some p =>
      if 0 <=? p then
        if opt_fast then
          let it' :=
            match cachedParentIt_ with
            | None => new_EventIterator (eventList_ it) 0 (count (eventList_ it)) p
            | Some c => seek c p
            end in
          (Some it', Some it')
        else
          (Some (new_EventIterator (eventList_ it) 0 (count (eventList_ it)) p),
           cachedParentIt_)
      else (None, cachedParentIt_)
  | None => (None, cachedParentIt_)
  end.




(** The iterator stands on a record of its list. *)
Definition on_record (it : EventIterator) : Prop :=
  0 ≤ index_ it < count (eventList_ it) ∧
  offset_ it = index_ it * EventStruct.STRUCT_SIZE.

(** ** The scope tree that rescopeEvents_ builds *)

(** What the writes of an iteration after the three that open it may be:
    none of them is to a PARENT or DEPTH cell, one to a NEXT_SIBLING cell
    writes 0 or [nextEventId], and one to an END_TIME cell writes the time
    of the record into the record [stack[stackTop]]. *)
Definition later_write_ok (cnt n : Z) (s : Rescope) (w : num * num) : Prop :=
  ∀ j, w.1 = Some j →
    j mod 12 ≠ 2 ∧ j mod 12 ≠ 3 ∧
    (j mod 12 = 5 → w.2 = Some 0 ∨ w.2 = next_id cnt n s) ∧
    (j mod 12 = 9 →
       ∃ p, parent s = Some p ∧ j = p * 12 + 9 ∧ w.2 = rd s (n * 12 + 4)).

(** The invariant of the loop of [rescopeEvents_] before the iteration on
    record [n], as long as no iteration has thrown: the stack holds, from
    slot 1 to slot [stackTop] and as far as it has slots, the open scopes,
    each one level deeper than the one before; every record before [n]
    has the depth at which it was met, which is at most [stackMax], and as
    its parent the scope that was open then: record 0 at depth 0 and
    beyond the 255 levels that the stack has room for. *)
Record tree_inv (n : Z) (s : Rescope) : Prop := mkTreeInv {
  ti_top : 0 ≤ stackTop s ≤ stackMax s;
  ti_max : stackMax s ≤ n;
  ti_length : length (stack s) = 256%nat;
  ti_root : ta_get (stack s) (Some 0) = Some 0;
  ti_stack : ∀ k, 1 ≤ k ≤ stackTop s → k ≤ 255 →
      ∃ p, ta_get (stack s) (Some k) = Some p ∧ 0 ≤ p < n ∧
           rd s (p * 12 + 3) = Some (k - 1);
  ti_types : ∀ k, is_Some (typeStack s !! k) → 1 ≤ k;
  ti_records : ∀ m, 0 ≤ m < n →
      ∃ dm pm, rd s (m * 12 + 3) = Some dm ∧ rd s (m * 12 + 2) = Some pm ∧
        0 ≤ dm ≤ stackMax s ∧
        (dm = 0 → pm = 0) ∧
        (1 ≤ dm ≤ 255 → 0 ≤ pm < m ∧ rd s (pm * 12 + 3) = Some (dm - 1)) ∧
        (256 ≤ dm → pm = 0)
}.

(** A scope that has an end does not end before it begins. *)
Definition end_times_ok (cnt : Z) (d : list Z) : Prop :=
  ∀ m, 0 ≤ m < cnt →
    field d m EventStruct.END_TIME = 0 ∨
    field d m EventStruct.TIME ≤ field d m EventStruct.END_TIME.

(** ** wtf.db.EventList: the enclosing root scope and time ranges *)

(** [while (depth-- > 0) { o = i * STRUCT_SIZE; i = eventData[o + PARENT]; }] *)
Fixpoint to_root (depth : nat) (eventData : list Z) (i : num) : num :=
  match depth with
  | O => i
  | S depth =>
      let o := num_mul i EventStruct.STRUCT_SIZE in
      to_root depth eventData
        (ta_get eventData (num_add o (Some EventStruct.PARENT)))
  end.

(** The [while (i >= 0)] loop of [getIndexOfRootScopeIncludingTime].  The
    code gives no bound on its rounds; the result is [None] when the loop
    has not ended within [fuel] rounds. *)
Fixpoint root_loop (fuel : nat) (eventData : list Z) (time : double) (nearId : Z)
    (i : num) : option num :=
  match fuel with
  | O => None
  | S fuel =>
      if num_geb0 i then
        let o := num_mul i EventStruct.STRUCT_SIZE in
        let depth := ta_get eventData (num_add o (Some EventStruct.DEPTH)) in
        let i := to_root (Z.to_nat (default 0 depth)) eventData i in
        let o := num_mul i EventStruct.STRUCT_SIZE in
        let endTime := ta_get eventData (num_add o (Some EventStruct.END_TIME)) in
        if truthy endTime then
          if num_lt_double endTime time then Some (Some nearId) else Some i
        else root_loop fuel eventData time nearId (num_sub i (Some 1))
      else Some (Some nearId)
  end.

Definition getIndexOfRootScopeIncludingTime (fuel : nat) (el : EventList)
    (time : Q) : option num :=
  let nearId := getIndexOfEventNearTime el time in
  if nearId =? 0 then Some (Some 0)
  else
    let time := double_mul time 1000 in
    root_loop fuel (eventData el) time nearId (Some nearId).

(** [beginTimeRange]; [None] when the search for the root scope has not
    ended within [fuel] rounds or has ended without a number. *)
Definition beginTimeRange (fuel : nat) (el : EventList) (startTime endTime : Q)
    (opt_startAtRoot : bool) : option EventIterator :=
  let startIndex :=
    if opt_startAtRoot then
      match getIndexOfRootScopeIncludingTime fuel el startTime with
      | Some (Some i) => Some i
      | _ => None
      end
    else Some (getIndexOfEventNearTime el startTime) in
  match startIndex with
  | Some startIndex =>
      let endIndex := getIndexOfEventNearTime el endTime in
      let endIndex := if endIndex <? startIndex then startIndex else endIndex in
      Some (beginEventRange el startIndex endIndex)
  | None => None
  end.

(** ** wtf.db.FrameList: lookups *)

(** [getAllFrames]: the frames that [frameList_] refers to. *)
Definition FrameList_getAllFrames (fl : FrameList) : list Frame :=
  omap (λ r, frame_objects fl !! r) (frameList_ fl).

(** [getFrame]: [this.frames_[value] || null], a frame of the map or the
    property of [Object.prototype] of that name. *)
Definition FrameList_getFrame (fl : FrameList) (value : Value)
    : option (property Frame) :=
  match obj_get (frames_ fl) (key_of value) with
  | Some (Own r) => Own <$> frame_objects fl !! r
  | Some (Inherited key) => Some (Inherited key)
  | None => None
  end.

(** The map and the array of a frame list describe the same frames: the
    array has no frame twice, each of its frames is in the map under its
    number, and the map has nothing else. *)
Record frames_inv (fl : FrameList) : Prop := mkFramesInv {
  fi_nodup : NoDup (frameList_ fl);
  fi_list : ∀ r, r ∈ frameList_ fl →
      ∃ f, frame_objects fl !! r = Some f ∧
           frames_ fl !! key_of (number_ f) = Some r;
  fi_map : ∀ k r, frames_ fl !! k = Some r →
      r ∈ frameList_ fl ∧
      ∃ f, frame_objects fl !! r = Some f ∧ key_of (number_ f) = k
}.

(** ** wtf.db.EventStatistics *)

(** [wtf.db.SortMode] *)
Inductive SortMode : Type := ANY | COUNT | TOTAL_TIME | MEAN_TIME.

(** An entry of the table: a [ScopeEventDataEntry], or an
    [InstanceEventDataEntry], which has the event type and the count of
    [EventDataEntry] and nothing else. *)
Inductive EventDataEntry : Type :=
  | ScopeEntry (e : ScopeEventDataEntry)
  | InstanceEntry (eventType : EventType) (count : Z).

Definition EventDataEntry_getEventType (e : EventDataEntry) : EventType :=
  match e with
  | ScopeEntry s => entry_eventType s
  | InstanceEntry ty _ => ty
  end.

Definition EventDataEntry_getCount (e : EventDataEntry) : Z :=
  match e with
  | ScopeEntry s => entry_count s
  | InstanceEntry _ c => c
  end.

(** [appendEvent], by the class of the entry. *)
Definition EventDataEntry_appendEvent (e : EventDataEntry) (it : EventIterator)
    : EventDataEntry :=
  match e with
  | ScopeEntry s => ScopeEntry (appendEvent s it)
  | InstanceEntry ty c => InstanceEntry ty (c + 1)
  end.

(** The table.  Entries are objects that the maps and the list share:
    [entry_objects] holds them and a map or the list refers to an entry by
    its position there.  [entriesByClass_] is its two maps. *)
Record EventStatistics : Type := mkEventStatistics {
  entry_objects : list EventDataEntry;
  table_ : gmap string nat;
  entriesByClass_SCOPE : gmap string nat;
  entriesByClass_INSTANCE : gmap string nat;
  list_ : list nat;
  listSortMode_ : SortMode;
  filteredEventCount_ : Z
}.

(** [flags & bit], as a condition *)
Definition has_flag (flags bit : Z) : bool := negb (Z.land flags bit =? 0).

(** The locals of [rebuild], with the fields of the table that it writes
    while it runs. *)
Record StatsBuild : Type := mkStatsBuild {
  sb_objects : list EventDataEntry;
  sb_tableById : gmap Z nat;
  sb_list : list nat;
  sb_scopeEntries : gmap string nat;
  sb_instanceEntries : gmap string nat;
  sb_filteredEventCount : Z
}.

Section Statistics.
Variables EventFlag_INTERNAL EventFlag_BUILTIN : Z.
Variable opt_filter : option (EventIterator → bool).

(** [tableById[type.id]], with a new entry of the class of the event when
    there is none. *)
Definition stats_entry (b : StatsBuild) (type : EventType) (it : EventIterator)
    : nat * StatsBuild :=
  match sb_tableById b !! id type with
  | Some r => (r, b)
  | None =>
      let r := length (sb_objects b) in
      if isScope it then
        (r, mkStatsBuild
              (sb_objects b ++ [ScopeEntry (new_ScopeEventDataEntry type)])
              (<[id type := r]> (sb_tableById b)) (sb_list b ++ [r])
              (<[name type := r]> (sb_scopeEntries b)) (sb_instanceEntries b)
              (sb_filteredEventCount b))
      else
        (r, mkStatsBuild
              (sb_objects b ++ [InstanceEntry type 0])
              (<[id type := r]> (sb_tableById b)) (sb_list b ++ [r])
              (sb_scopeEntries b) (<[name type := r]> (sb_instanceEntries b))
              (sb_filteredEventCount b))
  end.

(** The body of the [while (!it.done())] loop, up to [it.next()], which
    every path through it ends with.  It throws on an event whose type is
    not in the table, where [getType] returns null. *)
Definition stats_event (b : StatsBuild) (it : EventIterator) : outcome StatsBuild :=
  match getType it with
  | None => Throw b
  | Some type =>
      if has_flag (flags type) EventFlag_INTERNAL
         || has_flag (flags type) EventFlag_BUILTIN then Normal b
      else if match opt_filter with
              | Some filter => negb (filter it)
              | None => false
              end then Normal b
      else
        let found := stats_entry b type it in
        let b := found.2 in
        Normal (mkStatsBuild
                  (alter (λ e, EventDataEntry_appendEvent e it) found.1 (sb_objects b))
                  (sb_tableById b) (sb_list b)
                  (sb_scopeEntries b) (sb_instanceEntries b)
                  (sb_filteredEventCount b + 1))
  end.

(** The loop over the events of one zone: [next] moves the index on by
    one, so that [lastIndex_ - index_ + 1] rounds are enough. *)
Fixpoint stats_loop (fuel : nat) (it : EventIterator) (b : StatsBuild)
    : outcome StatsBuild :=
  match fuel with
  | O => Normal b
  | S fuel =>
      if done it then Normal b
      else bind_outcome (stats_event b it) (stats_loop fuel (next it))
  end.

(** The events of one zone; [beginTimeRange] is called without
    [opt_startAtRoot] and needs no search for a root. *)
Definition stats_zone (startTime endTime : Q) (b : StatsBuild) (eventList : EventList)
    : outcome StatsBuild :=
  match beginTimeRange 0 eventList startTime endTime false with
  | Some it => stats_loop (Z.to_nat (lastIndex_ it - index_ it + 1)) it b
  | None => Throw b
  end.

Fixpoint stats_zones (startTime endTime : Q) (zones : list EventList) (b : StatsBuild)
    : outcome StatsBuild :=
  match zones with
  | [] => Normal b
  | eventList :: zones =>
      bind_outcome (stats_zone startTime endTime b eventList)
        (stats_zones startTime endTime zones)
  end.

(** [rebuild]; [zones] are the event lists of the zones of the database.
    An entry has no property [name], so that [tableByName[list[n].name]]
    is [tableByName[undefined]] for each one. *)
Definition EventStatistics_rebuild (st : EventStatistics) (zones : list EventList)
    (startTime endTime : Q) : outcome EventStatistics :=
  let b0 := mkStatsBuild (entry_objects st) ∅ [] ∅ ∅ 0 in
  match stats_zones startTime endTime zones b0 with
  | Normal b =>
      let tableByName :=
        foldl (λ t r, <[key_of VUndefined := r]> t) (∅ : gmap string nat)
          (sb_list b) in
      Normal (mkEventStatistics (sb_objects b) tableByName
                (sb_scopeEntries b) (sb_instanceEntries b) (sb_list b) ANY
                (sb_filteredEventCount b))
  | Throw b =>
      Throw (mkEventStatistics (sb_objects b) (table_ st)
               (sb_scopeEntries b) (sb_instanceEntries b) (list_ st)
               (listSortMode_ st) (sb_filteredEventCount b))
  end.

End Statistics.

Definition getFilteredEventCount (st : EventStatistics) : Z := filteredEventCount_ st.

(** The entries of the list, in its order. *)
Definition stats_entries (st : EventStatistics) : list EventDataEntry :=
  omap (λ r, entry_objects st !! r) (list_ st).

(** The sum of the counts of the entries that [refs] refers to. *)
Definition sum_counts (objs : list EventDataEntry) (refs : list nat) : Z :=
  foldr (λ r acc, from_option EventDataEntry_getCount 0 (objs !! r) + acc) 0 refs.

(** The invariant of the loop of [rebuild]: the list has no entry twice,
    its references are to entries, the map by type id leads into the
    list, and the counts of the entries add up to the filtered event
    count. *)
Record stats_inv (b : StatsBuild) : Prop := mkStatsInv {
  si_nodup : NoDup (sb_list b);
  si_valid : ∀ r, r ∈ sb_list b → is_Some (sb_objects b !! r);
  si_table : ∀ i r, sb_tableById b !! i = Some r → r ∈ sb_list b;
  si_sum : sum_counts (sb_objects b) (sb_list b) = sb_filteredEventCount b;
  si_counted : ∀ r e, r ∈ sb_list b → sb_objects b !! r = Some e →
      1 ≤ EventDataEntry_getCount e
}.

(** The events that the loop of [EventStatistics.rebuild] visits from [it]
    on, and the ones it visits in a zone and in all of them. *)
Fixpoint visited (fuel : nat) (it : EventIterator) : list EventIterator :=
  match fuel with
  | O => []
  | S fuel => if done it then [] else it :: visited fuel (next it)
  end.

Definition zone_visited (startTime endTime : Q) (eventList : EventList)
    : list EventIterator :=
  match beginTimeRange 0 eventList startTime endTime false with
  | Some it => visited (Z.to_nat (lastIndex_ it - index_ it + 1)) it
  | None => []
  end.

(** An event that is of a type with the id [i], not internal and not
    built in, and that the filter lets through. *)
Definition counted_as (EventFlag_INTERNAL EventFlag_BUILTIN : Z)
    (opt_filter : option (EventIterator → bool)) (i : Z) (it : EventIterator)
    : bool :=
  match getType it with
  | Some type =>
      negb (has_flag (flags type) EventFlag_INTERNAL
            || has_flag (flags type) EventFlag_BUILTIN)
      && match opt_filter with
         | Some filter => filter it
         | None => true
         end
      && (id type =? i)
  | None => false
  end.

Definition number_counted_as (EventFlag_INTERNAL EventFlag_BUILTIN : Z)
    (opt_filter : option (EventIterator → bool)) (i : Z)
    (its : list EventIterator) : Z :=
  Z.of_nat (length (filter
    (λ it, counted_as EventFlag_INTERNAL EventFlag_BUILTIN opt_filter i it = true)
    its)).

(** The second invariant of the loop of [rebuild], after the events
    [seen]: the map by type id has an entry for just the ids that an event
    was counted for, and the entry is in the list, of a type with the id
    and with the number of those events as its count. *)
Record stats_table_inv (EventFlag_INTERNAL EventFlag_BUILTIN : Z)
    (opt_filter : option (EventIterator → bool))
    (b : StatsBuild) (seen : list EventIterator) : Prop := mkStatsTableInv {
  st_table : ∀ i,
    match sb_tableById b !! i with
    | Some r =>
        r ∈ sb_list b ∧
        ∃ e, sb_objects b !! r = Some e ∧ id (EventDataEntry_getEventType e) = i ∧
             EventDataEntry_getCount e
             = number_counted_as EventFlag_INTERNAL EventFlag_BUILTIN opt_filter i seen
    | None =>
        number_counted_as EventFlag_INTERNAL EventFlag_BUILTIN opt_filter i seen = 0
    end;
  st_list : ∀ r, r ∈ sb_list b →
    ∃ e, sb_objects b !! r = Some e ∧
         sb_tableById b !! id (EventDataEntry_getEventType e) = Some r
}.

(** [new wtf.db.EventStatistics(db)] *)
Definition new_EventStatistics : EventStatistics :=
  mkEventStatistics [] ∅ ∅ ∅ [] ANY 0.

(** * Properties *)

(** ** The event type table *)

Lemma obj_get_own {A} (obj : gmap string A) (key : string) (a : A) :
  obj !! key = Some a → obj_get obj key = Some (Own a).
Proof. intros Ha. unfold obj_get. by rewrite Ha. Qed.

Lemma obj_get_Own {A} (obj : gmap string A) (key : string) (a : A) :
  obj_get obj key = Some (Own a) ↔ obj !! key = Some a.
Proof.
  unfold obj_get. destruct (obj !! key) as [b|].
  - split; intros [= ->]; done.
  - case_bool_decide; split; intros [=].
Qed.

Lemma obj_get_Inherited {A} (obj : gmap string A) (key k : string) :
  obj_get obj key = Some (Inherited k) ↔
  obj !! key = None ∧ key ∈ Object_prototype ∧ k = key.
Proof.
  unfold obj_get. destruct (obj !! key) as [b|].
  - split; [intros [=] | intros ([=] & _)].
  - case_bool_decide as Hk.
    + split; [by intros [= <-] | by intros (_ & _ & ->)].
    + split; [intros [=] | by intros (_ & ? & _)].
Qed.

Lemma obj_get_None {A} (obj : gmap string A) (key : string) :
  obj_get obj key = None ↔ obj !! key = None ∧ key ∉ Object_prototype.
Proof.
  unfold obj_get. destruct (obj !! key) as [b|].
  - split; [intros [=] | intros ([=] & _)].
  - case_bool_decide as Hk.
    + split; [intros [=] | by intros (_ & ?)].
    + by split.
Qed.

(** A read of a name that is not one of [Object.prototype] finds an entry
    or nothing. *)
Lemma obj_get_plain {A} (obj : gmap string A) (key : string) :
  key ∉ Object_prototype → obj_get obj key = Own <$> obj !! key.
Proof.
  intros Hk. unfold obj_get. destruct (obj !! key); [done|].
  by rewrite bool_decide_eq_false_2.
Qed.

(** The names that the code looks up as literals are not names of
    [Object.prototype]: those lookups find a type of the table or
    nothing. *)
Lemma literal_names_plain (T : EventTypeTable) (nm : string) :
  nm ∈ ["wtf.scope#enter"; "wtf.scope#leave"; "wtf.scope#appendData";
        "wtf.trace#timeStamp"; "wtf.timing#frameStart"; "wtf.timing#frameEnd"] →
  getByName T nm = Own <$> eventsByName_ T !! nm ∧
  own_entry (getByName T nm) = eventsByName_ T !! nm.
Proof.
  intros Hin.
  assert (Hplain : nm ∉ Object_prototype).
  { revert nm Hin. apply Forall_forall.
    repeat constructor; apply (bool_decide_unpack _); vm_compute; exact I. }
  unfold getByName. rewrite (obj_get_plain _ _ Hplain).
  split; [done|]. by destruct (eventsByName_ T !! nm).
Qed.

Lemma table_wf_new : table_wf new_EventTypeTable.
Proof.
  split; simpl; try lia; try (intros ? ?; rewrite lookup_empty; done).
  intros i. rewrite lookup_empty. split; [intros [? ?]; done | lia].
Qed.

Lemma table_wf_define T ty : table_wf T → table_wf (defineType T ty).2.
Proof.
  intros [Hn Hid Hnm Hids Hown]. unfold defineType.
  destruct (obj_get (eventsByName_ T) (name ty)) as [e|] eqn:E; simpl; [by split|].
  apply obj_get_None in E as [E Hplain].
  assert (Hfresh : eventsById_ T !! nextTypeId_ T = None).
  { destruct (eventsById_ T !! nextTypeId_ T) eqn:E'; [|done].
    assert (is_Some (eventsById_ T !! nextTypeId_ T)) as H%Hids by eauto. lia. }
  split; simpl.
  - lia.
  - intros i t. rewrite lookup_insert. case_decide as Hi.
    + intros [= <-]. simpl. split; [done|]. by rewrite lookup_insert_eq.
    + intros Ht. destruct (Hid _ _ Ht) as [? Hb]. split; [done|].
      rewrite lookup_insert_ne; [done|]. intros Heq. congruence.
  - intros nm t. rewrite lookup_insert. case_decide as Hi.
    + intros [= <-]. simpl. split; [done|]. by rewrite lookup_insert_eq.
    + intros Ht. destruct (Hnm _ _ Ht) as [? Hb]. split; [done|].
      rewrite lookup_insert_ne; [done|]. intros Heq.
      rewrite <- Heq in Hb. congruence.
  - intros i. rewrite lookup_insert. case_decide as Hi.
    + subst. split; [lia | eauto].
    + rewrite Hids. lia.
  - intros nm t. rewrite lookup_insert. case_decide as Hi.
    + by intros [= <-]; subst nm.
    + apply Hown.
Qed.

Lemma table_reachable_wf T : table_reachable T → table_wf T.
Proof.
  induction 1; [apply table_wf_new | by apply table_wf_define].
Qed.

(** [defineType] interns by name, for names that are not names of
    [Object.prototype].  A type whose name finds nothing gets the id
    [nextTypeId_], which then moves up by one, and is found again under
    that id and under its name; a type whose name finds something yields
    what was found and leaves the table as it is, whatever the rest of the
    descriptor says; in every table built by [defineType] the ids in use
    are exactly 1 .. [nextTypeId_] - 1. *)
Lemma defineType_spec :
  nextTypeId_ new_EventTypeTable = 1 ∧
  (∀ T ty, getByName T (name ty) = None →
     let r := defineType T ty in
     r.1 = Own (mkEventType (name ty) (nextTypeId_ T) (eventClass ty) (flags ty)) ∧
     nextTypeId_ r.2 = nextTypeId_ T + 1 ∧
     own_entry (Some r.1) = getById r.2 (nextTypeId_ T) ∧
     getByName r.2 (name ty) = Some r.1 ∧
     (∀ i, i ≠ nextTypeId_ T → getById r.2 i = getById T i) ∧
     (∀ nm, nm ≠ name ty → getByName r.2 nm = getByName T nm)) ∧
  (∀ T ty e, getByName T (name ty) = Some e → defineType T ty = (e, T)) ∧
  (∀ T, table_reachable T →
     1 ≤ nextTypeId_ T ∧
     (∀ i, is_Some (getById T i) ↔ 1 ≤ i < nextTypeId_ T) ∧
     (∀ i ty, getById T i = Some ty →
        id ty = i ∧ getByName T (name ty) = Some (Own ty))).
Proof.
  split; [done|]. split; [|split].
  - intros T ty Hnone. unfold getByName in Hnone. unfold defineType, getById, getByName.
    rewrite Hnone. simpl. apply obj_get_None in Hnone as [Hnone Hplain].
    repeat split.
    + by rewrite lookup_insert_eq.
    + apply obj_get_own. by rewrite lookup_insert_eq.
    + intros i Hi. by rewrite lookup_insert_ne.
    + intros nm Hne. unfold obj_get. by rewrite lookup_insert_ne.
  - intros T ty e He. unfold getByName in He. unfold defineType. by rewrite He.
  - intros T HT. apply table_reachable_wf in HT as [Hn Hid Hnm Hids Hown].
    unfold getById, getByName. split; [done|]. split; [done|].
    intros i ty Hty. destruct (Hid _ _ Hty) as [? ?]. split; [done|].
    by apply obj_get_own.
Qed.

(** A name of [Object.prototype] never gets a type: in every table built
    by [defineType] the lookup by such a name finds the inherited
    property, and [defineType] returns it and leaves the table as it is. *)
Lemma defineType_inherited (T : EventTypeTable) (ty : EventType) :
  table_reachable T → name ty ∈ Object_prototype →
  getByName T (name ty) = Some (Inherited (name ty)) ∧
  defineType T ty = (Inherited (name ty), T).
Proof.
  intros HT%table_reachable_wf Hin.
  assert (Hnone : eventsByName_ T !! name ty = None).
  { destruct (eventsByName_ T !! name ty) as [e|] eqn:E; [|done].
    by apply (wf_own T HT) in E. }
  assert (Hget : obj_get (eventsByName_ T) (name ty) = Some (Inherited (name ty)))
    by (by apply obj_get_Inherited).
  split; [done|]. unfold defineType. by rewrite Hget.
Qed.

(** C7, the code at the failing input.  On a new table [defineType] of a
    scope type named [toString] finds the function that every object
    inherits under that name: it returns the function, gives out no id,
    and leaves the table empty, so that no type is found under id 1, and
    what [getByName] finds under the name is the function again.  A type
    named [A] gets id 1 and is found under both. *)
Theorem defineType_inherited_name :
  let T := new_EventTypeTable in
  getByName T "toString" = Some (Inherited "toString") ∧
  (let r := defineType T (createScope "toString") in
   r.1 = Inherited "toString" ∧ property_id r.1 = None ∧
   r.2 = T ∧ nextTypeId_ r.2 = 1 ∧
   getById r.2 1 = None ∧
   getByName r.2 "toString" = Some (Inherited "toString")) ∧
  (let r := defineType T (createScope "A") in
   r.1 = Own (mkEventType "A" 1 SCOPE 0) ∧ nextTypeId_ r.2 = 2 ∧
   getById r.2 1 = Some (mkEventType "A" 1 SCOPE 0) ∧
   getByName r.2 "A" = Some (Own (mkEventType "A" 1 SCOPE 0))).
Proof. vm_compute. repeat split; reflexivity. Qed.

(** ** Statistics entries *)

(** C10. [getMeanTime] divides by the count only when it is not 0. *)
Theorem getMeanTime_cases (EventFlag_SYSTEM_TIME : Z) (e : ScopeEventDataEntry) :
  (entry_count e = 0 → getMeanTime EventFlag_SYSTEM_TIME e = 0%Q) ∧
  (entry_count e ≠ 0 →
     ¬ (inject_Z (entry_count e) == 0)%Q ∧
     (Z.land (flags (entry_eventType e)) EventFlag_SYSTEM_TIME ≠ 0 →
        getMeanTime EventFlag_SYSTEM_TIME e
        = (totalTime_ e / inject_Z (entry_count e))%Q) ∧
     (Z.land (flags (entry_eventType e)) EventFlag_SYSTEM_TIME = 0 →
        getMeanTime EventFlag_SYSTEM_TIME e
        = (userTime_ e / inject_Z (entry_count e))%Q)).
Proof.
  unfold getMeanTime, has_SYSTEM_TIME. split.
  - intros ->. reflexivity.
  - intros Hc. apply Z.eqb_neq in Hc as Hc'. rewrite Hc'. simpl. split; [|split].
    + unfold Qeq, inject_Z. simpl. lia.
    + intros Hf. apply Z.eqb_neq in Hf. by rewrite Hf.
    + intros Hf. apply Z.eqb_eq in Hf. by rewrite Hf.
Qed.

Lemma sum_cells_insert (l : list Z) (i : nat) (x v : Z) :
  l !! i = Some x → sum_cells (<[i := v]> l) = sum_cells l - x + v.
Proof.
  revert i. induction l as [|a l IH]; intros [|i] Hi; simplify_eq/=.
  - lia.
  - rewrite (IH i Hi). lia.
Qed.

Lemma sum_cells_lookup_le (l : list Z) (i : nat) (x : Z) :
  Forall (λ z, 0 ≤ z) l → l !! i = Some x → 0 ≤ x ≤ sum_cells l.
Proof.
  intros Hl. revert i. induction Hl as [|a l Ha Hl IH]; intros [|i] Hi; simplify_eq/=.
  - assert (0 ≤ sum_cells l); [|lia].
    clear -Hl. induction Hl; simpl; lia.
  - specialize (IH i Hi). lia.
Qed.

Lemma bucket_of_upper (ud : Q) : bucket_of ud ≤ 999.
Proof. unfold bucket_of. case_match; lia. Qed.

Lemma bucket_of_min (ud : Q) :
  - 2 ^ 31 ≤ Math_round ud < 2 ^ 31 → bucket_of ud = Z.min (Math_round ud) 999.
Proof.
  intros Hr. unfold bucket_of, ToInt32.
  replace ((Math_round ud + 2 ^ 31) `mod` 2 ^ 32 - 2 ^ 31) with (Math_round ud).
  - case_match; lia.
  - rewrite Z.mod_small; lia.
Qed.

(** The state of an entry after the events [its], when none of them falls
    below bucket 0. *)
Lemma appendEvent_invariant (ty : EventType) (its : list EventIterator) :
  Z.of_nat (length its) < 2 ^ 32 →
  Forall (λ it, 0 ≤ bucket_of (getUserDuration it)) its →
  let e := foldl appendEvent (new_ScopeEventDataEntry ty) its in
  entry_count e = Z.of_nat (length its) ∧
  length (buckets_ e) = 1000%nat ∧
  Forall (λ z, 0 ≤ z) (buckets_ e) ∧
  sum_cells (buckets_ e) = entry_count e ∧
  ∀ i, 0 ≤ i < 1000 →
    buckets_ e !! Z.to_nat i = Some (events_in_bucket its i).
Proof.
  induction its as [|it its IH] using rev_ind; intros Hlen Hall e.
  - subst e. simpl. split; [done|]. split; [done|]. split.
    { apply Forall_replicate. lia. }
    split; [by vm_compute|].
    intros i Hi. unfold events_in_bucket. simpl.
    apply lookup_replicate_2. lia.
  - rewrite length_app in Hlen. simpl in Hlen.
    apply Forall_app in Hall as [Hall Hit%Forall_inv]. cbv beta in Hit.
    destruct IH as (Hc & Hl & Hpos & Hsum & Hb); [lia|done|].
    subst e. rewrite foldl_app. simpl.
    set (e := foldl appendEvent (new_ScopeEventDataEntry ty) its) in *.
    pose proof (bucket_of_upper (getUserDuration it)) as Hup.
    set (b := bucket_of (getUserDuration it)) in *.
    assert (Hbb : buckets_ e !! Z.to_nat b = Some (events_in_bucket its b))
      by (apply Hb; lia).
    pose proof (sum_cells_lookup_le _ _ _ Hpos Hbb) as Hle.
    unfold appendEvent. fold b. simpl.
    unfold ta_get, ta_set. destruct (Z.leb_spec 0 b); [|lia].
    rewrite Hbb. simpl. unfold ToUint32.
    rewrite Z.mod_small by lia.
    rewrite length_app. simpl. split; [lia|]. split; [by rewrite length_insert|].
    split.
    { apply Forall_insert; [done|lia]. }
    split.
    { rewrite (sum_cells_insert _ _ _ _ Hbb). lia. }
    intros i Hi. unfold events_in_bucket. rewrite filter_app, length_app.
    rewrite filter_cons, filter_nil. fold b.
    destruct (decide (b = i)) as [->|Hne].
    + rewrite list_lookup_insert_eq; [|apply lookup_lt_is_Some; eauto].
      f_equal. unfold events_in_bucket. simpl. lia.
    + rewrite list_lookup_insert_ne by lia.
      rewrite Hb by done. unfold events_in_bucket. simpl. f_equal. lia.
Qed.

(** C5, as amended.  After fewer than 2^32 events none of which has a user
    duration that rounds below 0, an entry counts the events, its 1000
    buckets add up to the count, bucket [i] holds the number of events
    with [min(round(user_duration_ms), 999) = i], and that index is within
    0 .. 999. *)
Theorem histogram_invariant (ty : EventType) (its : list EventIterator) :
  Z.of_nat (length its) < 2 ^ 32 →
  Forall (λ it, 0 ≤ bucket_of (getUserDuration it)) its →
  let e := foldl appendEvent (new_ScopeEventDataEntry ty) its in
  entry_count e = Z.of_nat (length its) ∧
  length (buckets_ e) = 1000%nat ∧
  sum_cells (buckets_ e) = entry_count e ∧
  (∀ i, 0 ≤ i < 1000 →
     buckets_ e !! Z.to_nat i = Some (events_in_bucket its i)) ∧
  Forall (λ it,
            0 ≤ bucket_of (getUserDuration it) ≤ 999 ∧
            (- 2 ^ 31 ≤ Math_round (getUserDuration it) < 2 ^ 31 →
             bucket_of (getUserDuration it)
             = Z.min (Math_round (getUserDuration it)) 999)) its.
Proof.
  intros Hlen Hall e.
  destruct (appendEvent_invariant ty its Hlen Hall) as (Hc & Hl & _ & Hs & Hb).
  repeat split; try done.
  eapply Forall_impl; [exact Hall|]. intros it Hit. simpl in Hit.
  split; [split; [done | apply bucket_of_upper] | apply bucket_of_min].
Qed.

(** C5, witness: three events in buckets 0, 6 and 999. *)
Lemma histogram_invariant_witness :
  let el := rebuilt 4 0 [mkEvent ty_A 0 None; mkEvent ty_leave 400 None;
                       mkEvent ty_A 1000 None; mkEvent ty_leave 6700 None;
                       mkEvent ty_A 10000 None; mkEvent ty_leave 1009900 None] in
  let its := [new_EventIterator el 0 5 0; new_EventIterator el 0 5 2;
              new_EventIterator el 0 5 4] in
  let e := foldl appendEvent (new_ScopeEventDataEntry ty_A) its in
  (bucket_of <$> (getUserDuration <$> its)) = [0; 6; 999] ∧
  entry_count e = 3 ∧ sum_cells (buckets_ e) = entry_count e.
Proof.
  intros el its e. split; [by vm_compute|].
  assert (Hlen : Z.of_nat (length its) < 2 ^ 32) by (vm_compute; done).
  assert (Hall : Forall (λ it, 0 ≤ bucket_of (getUserDuration it)) its).
  { repeat constructor; by vm_compute. }
  destruct (histogram_invariant ty_A its Hlen Hall) as (Hc & _ & Hs & _).
  split; [exact Hc | exact Hs].
Defined.

(** The index is clamped from above only: an event whose user duration
    rounds below 0 is counted, and no bucket changes. *)
Lemma appendEvent_below_zero (e : ScopeEventDataEntry) (it : EventIterator) :
  bucket_of (getUserDuration it) < 0 →
  entry_count (appendEvent e it) = entry_count e + 1 ∧
  buckets_ (appendEvent e it) = buckets_ e.
Proof.
  intros Hneg. unfold appendEvent. cbn [entry_count buckets_].
  split; [done|]. unfold ta_set.
  by destruct (Z.leb_spec 0 (bucket_of (getUserDuration it))); [lia|].
Qed.

(** C5, counterexample.  The second scope [A] of the trace is not left, so
    its END_TIME is 0 and its user duration is -5 ms: [appendEvent] counts
    it and increments no bucket. *)
Lemma histogram_counterexample :
  let el := rebuilt 4 0 unclosed_scope_events in
  let its := [new_EventIterator el 0 2 0; new_EventIterator el 0 2 2] in
  let e := foldl appendEvent (new_ScopeEventDataEntry ty_A) its in
  getUserDuration (new_EventIterator el 0 2 2) = (-5000 # 1000)%Q ∧
  entry_count e = 2 ∧ sum_cells (buckets_ e) = 1 ∧
  sum_cells (buckets_ e) ≠ entry_count e.
Proof. vm_compute. repeat split; done. Qed.

(** ** Lookup by time *)

(** The loop of [getIndexOfEventNearTime] ends within [high - low] rounds:
    any fuel from there on gives the same result. *)
Lemma near_loop_fuel (f1 f2 : nat) (d : list Z) (t : double) (low high : Z) :
  0 ≤ low → high < 2 ^ 31 →
  high - low ≤ Z.of_nat f1 → high - low ≤ Z.of_nat f2 →
  near_loop f1 d t low high = near_loop f2 d t low high.
Proof.
  revert f2 low high. induction f1 as [|f1 IH]; intros f2 low high Hl Hh H1 H2.
  - destruct f2 as [|f2]; [done|]. simpl.
    destruct (Z.ltb_spec low high); [lia|done].
  - destruct f2 as [|f2]; simpl.
    + destruct (Z.ltb_spec low high); [lia|done].
    + destruct (Z.ltb_spec low high); [|done].
      assert (Hmid : ToInt32 ((low + high) ÷ 2) = (low + high) / 2).
      { rewrite Z.quot_div_nonneg by lia. unfold ToInt32.
        assert (0 ≤ (low + high) / 2 < 2 ^ 31).
        { split; [apply Z.div_pos; lia|]. apply Z.div_lt_upper_bound; lia. }
        rewrite Z.mod_small; lia. }
      rewrite Hmid.
      assert (low ≤ (low + high) / 2 < high).
      { split; [apply Z.div_le_lower_bound; lia|apply Z.div_lt_upper_bound; lia]. }
      destruct (num_lt_double _ t); apply IH; lia.
Qed.

(** C3, the code at the failing inputs.  Of three records with TIME 0, 1000
    and 2000 μs, the lookup at 3 ms gives record 1 although record 2 is
    the last one with TIME ≤ 3000, and the lookup at 1 ms gives record 0
    although record 1 has TIME 1000. *)
Lemma getIndexOfEventNearTime_off_by_one :
  let el := rebuilt 4 0 three_instants in
  ((λ i, field (eventData el) i EventStruct.TIME) <$> [0; 1; 2]) = [0; 1000; 2000] ∧
  getIndexOfEventNearTime el 3 = 1 ∧
  getIndexOfEventNearTime el 1 = 0.
Proof. by vm_compute. Qed.

(** ** The frame list *)

Lemma FrameList_ok_new : FrameList_ok new_FrameList.
Proof. split; intros ? H; by apply elem_of_nil in H. Qed.

(** The frame [r] of a frame list is given the event. *)
Lemma FrameList_ok_set (fl1 : FrameList) (r : nat) (i : Z) (it : EventIterator) :
  FrameList_ok fl1 →
  FrameList_ok
    (if i =? 0 then
       mkFrameList (alter (λ f, setStartEvent f it) r (frame_objects fl1))
         (frames_ fl1) (frameList_ fl1)
     else if i =? 1 then
       mkFrameList (alter (λ f, setEndEvent f it) r (frame_objects fl1))
         (frames_ fl1) (frameList_ fl1)
     else fl1).
Proof.
  intros [Hrefs1 Hfr1].
  assert (Halter : ∀ g : Frame → Frame,
    (∀ f, ((startEvent_ f = None → time_ f = 0%Q) ∧ (endEvent_ f = None → endTime_ f = 0%Q)) →
          ((startEvent_ (g f) = None → time_ (g f) = 0%Q) ∧
           (endEvent_ (g f) = None → endTime_ (g f) = 0%Q))) →
    FrameList_ok (mkFrameList (alter g r (frame_objects fl1)) (frames_ fl1) (frameList_ fl1))).
  { intros g Hg. split; simpl.
    - intros r' Hr'. destruct (Hrefs1 r' Hr') as [f Hf].
      destruct (decide (r = r')) as [->|Hne].
      + exists (g f). rewrite list_lookup_alter_eq. by rewrite Hf.
      + exists f. by rewrite list_lookup_alter_ne.
    - intros f [k Hk]%list_elem_of_lookup.
      destruct (decide (r = k)) as [->|Hne].
      + rewrite list_lookup_alter_eq in Hk.
        destruct (frame_objects fl1 !! k) as [f0|] eqn:E; simplify_eq/=.
        apply Hg, Hfr1. apply list_elem_of_lookup. eauto.
      + rewrite list_lookup_alter_ne in Hk by done.
        apply Hfr1. apply list_elem_of_lookup. eauto. }
  repeat case_match; [apply Halter..|by split].
  - intros f [? ?]. simpl. split; [done|auto].
  - intros f [? ?]. simpl. split; [auto|done].
Qed.

Lemma FrameList_ok_handleEvent fl i ty it :
  FrameList_ok fl → FrameList_ok (FrameList_handleEvent fl i ty it).
Proof.
  intros Hok. unfold FrameList_handleEvent.
  set (number := getArgument it "number").
  destruct (obj_get (frames_ fl) (key_of number)) as [[r|key]|] eqn:Eg;
    [|done|]; cbv zeta; cbn [own_entry fst snd].
  - by apply FrameList_ok_set.
  - apply FrameList_ok_set. destruct Hok as [Hrefs Hfr]. split; simpl.
    + intros r [Hr| ->%list_elem_of_singleton]%elem_of_app.
      * destruct (Hrefs r Hr) as [f Hf]. exists f. by apply lookup_app_l_Some.
      * exists (new_Frame number). by rewrite list_lookup_middle.
    + intros f [Hf| ->%list_elem_of_singleton]%elem_of_app; [by apply Hfr|done].
Qed.

(** What the loop of [endRebuild] computes: the complete frames of the
    array, in order, and the map without the numbers of the others. *)
Lemma endRebuild_fold (objs : list Frame) (refs : list nat)
    (valid : list nat) (m : gmap string nat) :
  let r := foldl (λ acc n,
                    match objs !! n with
                    | Some frame =>
                        if frame_complete frame then (acc.1 ++ [n], acc.2)
                        else (acc.1, delete (key_of (number_ frame)) acc.2)
                    | None => acc
                    end) (valid, m) refs in
  (∀ n, n ∈ r.1 ↔
        n ∈ valid ∨ (n ∈ refs ∧ ∃ f, objs !! n = Some f ∧ frame_complete f = true)) ∧
  (∀ k, m !! k = None → r.2 !! k = None) ∧
  (∀ n f, n ∈ refs → objs !! n = Some f → frame_complete f = false →
          r.2 !! key_of (number_ f) = None).
Proof.
  revert valid m. induction refs as [|n refs IH]; intros valid m; simpl.
  - split; [|split]; [|done|].
    + intros n. split; [auto|]. intros [?|[Hn _]]; [done|by apply elem_of_nil in Hn].
    + intros n f Hn. by apply elem_of_nil in Hn.
  - destruct (objs !! n) as [frame|] eqn:E.
    + destruct (frame_complete frame) eqn:Ec; simpl.
      * destruct (IH (valid ++ [n]) m) as (H1 & H2 & H3). split; [|split]; [|done|].
        -- intros k. rewrite H1, elem_of_app, list_elem_of_singleton, elem_of_cons.
           split; [|intros [?|[[->|?] ?]]; eauto]. intros [[?| ->]|[? ?]]; [by left| |by eauto].
           right. split; [by left|eauto].
        -- intros k f [->|Hk]%elem_of_cons Hf Hc; [congruence|by eapply H3].
      * destruct (IH valid (delete (key_of (number_ frame)) m)) as (H1 & H2 & H3).
        split; [|split].
        -- intros k. rewrite H1, elem_of_cons. split; [intros [?|[? ?]]; eauto|].
           intros [?|[[->|?] (f & Hf & Hc)]]; [by left|congruence|right; eauto].
        -- intros k Hk. apply H2. rewrite lookup_delete. case_decide; done.
        -- intros k f [->|Hk]%elem_of_cons Hf Hc; [|by eapply H3].
           simplify_eq. apply H2. by rewrite lookup_delete_eq.
    + destruct (IH valid m) as (H1 & H2 & H3). split; [|split]; [|done|].
      * intros k. rewrite H1, elem_of_cons. split; [intros [?|[? ?]]; eauto|].
        intros [?|[[->|?] (f & Hf & Hc)]]; [by left|congruence|right; eauto].
      * intros k f [->|Hk]%elem_of_cons Hf Hc; [congruence|by eapply H3].
Qed.

Lemma FrameList_ok_endRebuild fl :
  FrameList_ok fl → FrameList_ok (FrameList_endRebuild fl).
Proof.
  intros [Hrefs Hfr]. unfold FrameList_endRebuild.
  destruct (endRebuild_fold (frame_objects fl) (frameList_ fl) [] (frames_ fl))
    as (H1 & _ & _).
  split; simpl; [|done].
  intros r Hr. apply H1 in Hr as [Hr|[Hr _]]; [by apply elem_of_nil in Hr|auto].
Qed.

Lemma frames_reachable_ok fl : frames_reachable fl → FrameList_ok fl.
Proof.
  induction 1; auto using FrameList_ok_new, FrameList_ok_handleEvent,
    FrameList_ok_endRebuild.
Qed.

Lemma frame_complete_events (f : Frame) :
  ((startEvent_ f = None → time_ f = 0%Q) ∧ (endEvent_ f = None → endTime_ f = 0%Q)) →
  frame_complete f = true → is_Some (startEvent_ f) ∧ is_Some (endEvent_ f).
Proof.
  intros [Hs He]. unfold frame_complete. intros [H1 H2]%andb_prop.
  split.
  - destruct (startEvent_ f); [eauto|]. rewrite Hs in H1 by done. done.
  - destruct (endEvent_ f); [eauto|]. rewrite He in H2 by done. done.
Qed.

Lemma clamp_single (x : Z) : clamp x 0 (Z.of_nat 1 - 1) = 0.
Proof. unfold clamp. lia. Qed.

(** C8. After [endRebuild] every frame of the array, which [getCount]
    counts, has a start and an end event, and a frame of the array that
    lacked one is neither in the array nor, under its number, in the map.
    In scenario S4 one frame is left after [rebuild], and it is frame 1
    that [getFrameAtTime] finds at 10 ms. *)
Theorem endRebuild_keeps_complete_frames :
  (∀ fl, frames_reachable fl →
     let fl' := FrameList_endRebuild fl in
     FrameList_getCount fl' = Z.of_nat (length (frameList_ fl')) ∧
     (∀ r, r ∈ frameList_ fl' →
        ∃ f, frame_objects fl' !! r = Some f ∧
             is_Some (startEvent_ f) ∧ is_Some (endEvent_ f)) ∧
     (∀ r f, r ∈ frameList_ fl → frame_objects fl !! r = Some f →
        startEvent_ f = None ∨ endEvent_ f = None →
        (r ∉ frameList_ fl') ∧ frames_ fl' !! key_of (number_ f) = None)) ∧
  (∃ fl, frames_after_rebuild = [fl] ∧ frames_reachable fl ∧
     FrameList_getCount fl = 1 ∧
     ∀ binarySelect,
       getFrameAtTime binarySelect fl 10
       = Some (mkFrame (VNum 1) (Some 0) (Some 1) (1000 # 1000) (17000 # 1000))).
Proof.
  split.
  - intros fl Hfl fl'. apply frames_reachable_ok in Hfl as [Hrefs Hfr].
    split; [done|]. subst fl'. unfold FrameList_endRebuild.
    destruct (endRebuild_fold (frame_objects fl) (frameList_ fl) [] (frames_ fl))
      as (H1 & _ & H3). simpl. split.
    + intros r [Hr|[Hr (f & Hf & Hc)]]%H1; [by apply elem_of_nil in Hr|].
      exists f. split; [done|]. apply frame_complete_events; [|done].
      apply Hfr. apply list_elem_of_lookup. eauto.
    + intros r f Hr Hf Hnone.
      assert (Hc : frame_complete f = false).
      { assert (Hin : f ∈ frame_objects fl) by (apply list_elem_of_lookup; eauto).
        destruct (Hfr f Hin) as [Hs He]. unfold frame_complete.
        destruct Hnone as [Hn|Hn]; [rewrite (Hs Hn)|rewrite (He Hn)]; simpl; [done|].
        apply andb_false_r. }
      split; [|by eapply H3].
      intros [Hr'|[_ (f' & Hf' & Hc')]]%H1; [by apply elem_of_nil in Hr'|congruence].
  - eexists. split; [by vm_compute|]. split.
    + set (el := (outcome_state
         (rebuild 4 (insert_all (new_EventList (example_table 0)) frame_events)
            [new_FrameList])).1).
      pose (it := new_EventIterator el 0 (count el - 1) 0).
      pose (fl3 := FrameList_handleEvent
                     (FrameList_handleEvent
                        (FrameList_handleEvent new_FrameList 0 ty_frameStart (seek it 0))
                        1 ty_frameEnd (seek it 1))
                     0 ty_frameStart (seek it 2)).
      assert (Hr : frames_reachable (FrameList_endRebuild fl3))
        by (repeat constructor).
      revert Hr. by vm_compute.
    + split; [done|]. intros binarySelect.
      unfold getFrameAtTime. simpl frameList_. simpl length.
      rewrite decide_False by done. rewrite clamp_single. done.
Qed.

(** ** The re-scope pass at the scenarios *)

(** C2, the code at the failing input.  [B] carries the SYSTEM_TIME flag
    and lasts 200 μs inside [A], which does not carry it: [rebuild] returns,
    the 200 μs are in the CHILD_TIME of [A], and the SYSTEM_TIME of [A] is
    0, whatever bit the flag is. *)
Lemma system_time_not_rolled_up (EventFlag_SYSTEM_TIME : Z) :
  EventFlag_SYSTEM_TIME ≠ 0 →
  let flag := EventFlag_SYSTEM_TIME in
  has_SYSTEM_TIME flag (ty_B flag) = true ∧
  has_SYSTEM_TIME flag ty_A = false ∧
  match rebuild (L:=FrameList) flag
          (insert_all (new_EventList (example_table flag)) (system_time_events flag)) []
  with
  | Normal (el, _) =>
      field (eventData el) 1 EventStruct.TYPE = id (ty_B flag) ∧
      field (eventData el) 1 EventStruct.PARENT = 0 ∧
      field (eventData el) 1 EventStruct.END_TIME
        - field (eventData el) 1 EventStruct.TIME = 200 ∧
      field (eventData el) 0 EventStruct.CHILD_TIME = 200 ∧
      field (eventData el) 0 EventStruct.SYSTEM_TIME = 0
  | Throw _ => False
  end.
Proof.
  intros Hflag flag. split; [|split; [done|by vm_compute]].
  unfold has_SYSTEM_TIME. simpl. rewrite Z.land_diag.
  by apply negb_true_iff, Z.eqb_neq.
Qed.

(** The flag that the leave branch tests is that of the scope that becomes
    the top of the stack: with [B] outside and [A] inside, the 200 μs of
    [A] are in the SYSTEM_TIME of [B] (here with the bit 4). *)
Lemma system_time_of_the_parent_flag :
  match rebuild (L:=FrameList) 4
          (insert_all (new_EventList (example_table 4)) (system_time_events_swapped 4)) []
  with
  | Normal (el, _) =>
      field (eventData el) 0 EventStruct.TYPE = id (ty_B 4) ∧
      field (eventData el) 1 EventStruct.TYPE = id ty_A ∧
      field (eventData el) 1 EventStruct.END_TIME
        - field (eventData el) 1 EventStruct.TIME = 200 ∧
      field (eventData el) 0 EventStruct.SYSTEM_TIME = 200
  | Throw _ => False
  end.
Proof. by vm_compute. Qed.

(** C4, the code at the failing input.  An instance event [X] without
    arguments is record 0; the append of arguments that follows finds no
    open scope.  [rebuild] returns, and the ARGUMENTS cell of record 0,
    which was 0, now holds the id of the arguments of the append; the
    append itself stays an instance, with END_TIME 0. *)
Lemma append_at_root_changes_record_0 :
  let el0 := insert_all (new_EventList (example_table 0)) append_at_root_events in
  field (eventData el0) 0 EventStruct.TYPE = id ty_X ∧
  field (eventData el0) 0 EventStruct.ARGUMENTS = 0 ∧
  field (eventData el0) 1 EventStruct.ARGUMENTS = 1 ∧
  match rebuild (L:=FrameList) 4 el0 [] with
  | Normal (el, _) =>
      field (eventData el) 0 EventStruct.TYPE = id ty_X ∧
      field (eventData el) 0 EventStruct.ARGUMENTS = 1 ∧
      getArguments (new_EventIterator el 0 1 0) = Some [("k", VStr "v")] ∧
      field (eventData el) 1 EventStruct.TYPE = id ty_appendData ∧
      field (eventData el) 1 EventStruct.DEPTH = 0 ∧
      field (eventData el) 1 EventStruct.END_TIME = 0
  | Throw _ => False
  end.
Proof. by vm_compute. Qed.

(** C2, witness: the bit 4. *)
Lemma system_time_not_rolled_up_witness :
  has_SYSTEM_TIME 4 (ty_B 4) = true ∧
  field (eventData (rebuilt 4 4 (system_time_events 4))) 0 EventStruct.SYSTEM_TIME = 0.
Proof.
  destruct (system_time_not_rolled_up 4 ltac:(done)) as (Hb & _ & Hr).
  split; [exact Hb|]. unfold rebuilt.
  destruct (rebuild _ _ _) as [[el ?]|]; [|done].
  simpl. by destruct Hr as (_ & _ & _ & _ & ->).
Defined.

(** ** Typed arrays *)

Ltac es := cbv [EventStruct.ID EventStruct.TYPE EventStruct.PARENT
  EventStruct.DEPTH EventStruct.TIME EventStruct.NEXT_SIBLING
  EventStruct.ARGUMENTS EventStruct.VALUE EventStruct.TAG EventStruct.END_TIME
  EventStruct.SYSTEM_TIME EventStruct.CHILD_TIME EventStruct.STRUCT_SIZE] in *.

Lemma ToUint32_range (v : num) : 0 ≤ ToUint32 v < 2 ^ 32.
Proof. destruct v; unfold ToUint32; [apply Z.mod_pos_bound|]; lia. Qed.

Lemma ToUint32_small (z : Z) : 0 ≤ z < 2 ^ 32 → ToUint32 (Some z) = z.
Proof. intros. unfold ToUint32. by apply Z.mod_small. Qed.

Lemma ta_set_length (d : list Z) (i v : num) :
  length (ta_set d i v) = length d.
Proof.
  destruct i as [i|]; unfold ta_set; [|done]. case_match; [apply length_insert|done].
Qed.

Lemma ta_get_Some (d : list Z) (i v : Z) :
  ta_get d (Some i) = Some v → 0 ≤ i < Z.of_nat (length d).
Proof.
  unfold ta_get. destruct (Z.leb_spec 0 i); [|done].
  intros Hv%lookup_lt_Some. lia.
Qed.

Lemma ta_get_is_Some (d : list Z) (i : Z) :
  0 ≤ i < Z.of_nat (length d) → is_Some (ta_get d (Some i)).
Proof.
  intros Hi. unfold ta_get. destruct (Z.leb_spec 0 i); [|lia].
  apply lookup_lt_is_Some. lia.
Qed.

Lemma ta_get_None (d : list Z) (i : Z) :
  ¬ (0 ≤ i < Z.of_nat (length d)) → ta_get d (Some i) = None.
Proof.
  intros Hi. unfold ta_get. destruct (Z.leb_spec 0 i); [|done].
  apply lookup_ge_None. lia.
Qed.

Lemma ta_get_set_eq (d : list Z) (i : Z) (v : num) :
  0 ≤ i < Z.of_nat (length d) →
  ta_get (ta_set d (Some i) v) (Some i) = Some (ToUint32 v).
Proof.
  intros Hi. unfold ta_get, ta_set. destruct (Z.leb_spec 0 i); [|lia].
  apply list_lookup_insert_eq. lia.
Qed.

Lemma ta_get_set_ne (d : list Z) (i j v : num) :
  i ≠ j → ta_get (ta_set d i v) j = ta_get d j.
Proof.
  intros Hne. destruct i as [i|], j as [j|]; unfold ta_get, ta_set; try done.
  destruct (Z.leb_spec 0 i), (Z.leb_spec 0 j); try done.
  apply list_lookup_insert_ne. intros Heq. apply Hne. f_equal. lia.
Qed.

(** A read after a write: the written value at the written cell, if it is
    inside the array, and the old value elsewhere. *)
Lemma ta_get_set (d : list Z) (i j : Z) (v : num) :
  ta_get (ta_set d (Some i) v) (Some j) =
  if decide (i = j ∧ 0 ≤ i < Z.of_nat (length d)) then Some (ToUint32 v)
  else ta_get d (Some j).
Proof.
  case_decide as H.
  - destruct H as [-> H]. by apply ta_get_set_eq.
  - destruct (decide (i = j)) as [->|Hne].
    + rewrite !ta_get_None; [done|lia|rewrite ta_set_length; lia].
    + apply ta_get_set_ne. congruence.
Qed.

Lemma ta_set_u32 (d : list Z) (i v : num) :
  u32_cells d → u32_cells (ta_set d i v).
Proof.
  intros Hd. destruct i as [i|]; unfold ta_set; [|done]. case_match; [|done].
  destruct (decide (Z.to_nat i < length d)%nat).
  - apply Forall_insert; [done|apply ToUint32_range].
  - rewrite list_insert_ge; [done|lia].
Qed.

Lemma ta_get_u32 (d : list Z) (i : num) (v : Z) :
  u32_cells d → ta_get d i = Some v → 0 ≤ v < 2 ^ 32.
Proof.
  intros Hd. destruct i as [i|]; unfold ta_get; [|done]. case_match; [|done].
  intros Hv. eapply (Forall_lookup_1 _ _ _ _ Hd Hv).
Qed.

Lemma new_Uint32Array_length (n : Z) :
  Z.of_nat (length (new_Uint32Array n)) = Z.max 0 n.
Proof. unfold new_Uint32Array. rewrite length_replicate. lia. Qed.

Lemma new_Uint32Array_get (n j v : Z) :
  ta_get (new_Uint32Array n) (Some j) = Some v → v = 0.
Proof.
  unfold ta_get. case_match; [|done]. unfold new_Uint32Array.
  intros [-> _]%lookup_replicate. done.
Qed.

Lemma new_Uint32Array_u32 (n : Z) : u32_cells (new_Uint32Array n).
Proof. apply Forall_replicate. lia. Qed.

Lemma foldl_seqZ_snoc {A} (f : A → Z → A) (a : A) (n : Z) :
  0 ≤ n → foldl f a (seqZ 0 (n + 1)) = f (foldl f a (seqZ 0 n)) n.
Proof.
  intros Hn. rewrite seqZ_app by lia. rewrite foldl_app.
  replace (seqZ (0 + n) 1) with [n]; [done|].
  rewrite seqZ_cons by lia. rewrite seqZ_nil by lia. f_equal; lia.
Qed.

Lemma copy_block_length (src dst : list Z) (so no : Z) (ks : list Z) :
  length (foldl (λ nd k, ta_set nd (Some (no + k)) (ta_get src (Some (so + k))))
            dst ks) = length dst.
Proof.
  revert dst. induction ks as [|k l IH]; intros dst; simpl; [done|].
  rewrite IH. apply ta_set_length.
Qed.

Lemma copy_block_u32 (src dst : list Z) (so no : Z) (ks : list Z) :
  u32_cells dst →
  u32_cells (foldl (λ nd k, ta_set nd (Some (no + k)) (ta_get src (Some (so + k))))
            dst ks).
Proof.
  revert dst. induction ks as [|k l IH]; intros dst Hd; simpl; [done|].
  apply IH. by apply ta_set_u32.
Qed.

(** The loop that copies [len] cells from [src] at [so] to [dst] at [no]. *)
Lemma copy_block_get (src dst : list Z) (so no len j : Z) :
  0 ≤ len → 0 ≤ no →
  ta_get (foldl (λ nd k, ta_set nd (Some (no + k)) (ta_get src (Some (so + k))))
            dst (seqZ 0 len)) (Some j)
  = if decide (no ≤ j < no + len ∧ j < Z.of_nat (length dst))
    then Some (ToUint32 (ta_get src (Some (so + (j - no)))))
    else ta_get dst (Some j).
Proof.
  intros Hlen Hno. revert j. pattern len. apply natlike_ind; [| |done].
  - intros j. rewrite seqZ_nil by lia. simpl foldl. rewrite decide_False by lia. done.
  - intros n Hn IH j. unfold Z.succ. rewrite foldl_seqZ_snoc by done.
    rewrite ta_get_set, copy_block_length, IH.
    repeat case_decide; try lia; try done.
    repeat f_equal. lia.
Qed.

(** ** insert *)

Lemma copy_cells_spec (len : Z) (oldData newData : list Z) :
  0 ≤ len →
  length (copy_cells len oldData newData) = length newData ∧
  (u32_cells newData → u32_cells (copy_cells len oldData newData)) ∧
  ∀ j, ta_get (copy_cells len oldData newData) (Some j)
       = if decide (0 ≤ j < len ∧ j < Z.of_nat (length newData))
         then Some (ToUint32 (ta_get oldData (Some j)))
         else ta_get newData (Some j).
Proof.
  intros Hlen. unfold copy_cells.
  change (foldl (λ nd n, ta_set nd (Some n) (ta_get oldData (Some n))) newData
            (seqZ 0 len))
    with (foldl (λ nd k, ta_set nd (Some (0 + k)) (ta_get oldData (Some (0 + k))))
            newData (seqZ 0 len)).
  split; [apply copy_block_length|]. split; [apply copy_block_u32|].
  intros j. rewrite copy_block_get by lia.
  replace (0 + (j - 0)) with j by lia.
  repeat case_decide; try lia; done.
Qed.

Lemma grown_spec (el : EventList) :
  list_wf el →
  (grown el).1 = (if count el + 1 >=? capacity_ el
                  then Z.max (capacity_ el * 2) 1024 else capacity_ el) ∧
  count el + 1 < (grown el).1 ∧
  Z.of_nat (length (grown el).2) = (grown el).1 * 12 ∧
  u32_cells (grown el).2 ∧
  (∀ j, 0 ≤ j < count el * 12 →
     ta_get (grown el).2 (Some j) = ta_get (eventData el) (Some j)) ∧
  (∀ j v, count el * 12 ≤ j → ta_get (grown el).2 (Some j) = Some v → v = 0).
Proof.
  intros [Hc Hlen Hroom Hu Hslack _ _ _ _]. unfold grown.
  destruct (Z.geb_spec (count el + 1) (capacity_ el)) as [Hge|Hlt]; simpl.
  - split; [done|]. split; [lia|]. es.
    destruct (copy_cells_spec (count el * 12) (eventData el)
      (new_Uint32Array (Z.max (capacity_ el * 2) 1024 * 12))) as (Hl & Hu' & Hg); [lia|].
    split; [|split; [|split]].
    + rewrite Hl, new_Uint32Array_length. lia.
    + apply Hu', new_Uint32Array_u32.
    + intros j Hj. rewrite Hg, new_Uint32Array_length. rewrite decide_True by lia.
      destruct (ta_get_is_Some (eventData el) j) as [v Hv]; [lia|].
      rewrite Hv. f_equal. apply ToUint32_small. by eapply ta_get_u32.
    + intros j v Hj. rewrite Hg. rewrite decide_False by lia.
      apply new_Uint32Array_get.
  - split; [done|]. split; [lia|]. split; [done|]. split; [done|].
    split; [done|]. apply Hslack.
Qed.

Lemma insert_eventData (el : EventList) ty time args :
  eventData (insert el ty time args) =
  let o := count el * 12 in
  let d := ta_set (grown el).2 (Some (o + 0)) (Some (count el)) in
  let d := ta_set d (Some (o + 1)) (Some (id ty)) in
  let d := ta_set d (Some (o + 2)) (Some (-1)) in
  let d := ta_set d (Some (o + 4)) (Some time) in
  match args with
  | Some _ => ta_set d (Some (o + 6)) (Some (nextArgumentDataId_ el))
  | None => d
  end.
Proof. unfold insert. fold (grown el). by destruct args. Qed.

Lemma insert_count (el : EventList) ty time args :
  count (insert el ty time args) = count el + 1.
Proof. unfold insert. by destruct args. Qed.

Lemma insert_capacity (el : EventList) ty time args :
  capacity_ (insert el ty time args) = (grown el).1.
Proof. unfold insert. fold (grown el). by destruct args. Qed.

Lemma insert_table (el : EventList) ty time args :
  eventTypeTable (insert el ty time args) = eventTypeTable el.
Proof. unfold insert. by destruct args. Qed.

Ltac ta_simpl :=
  repeat (rewrite ?ta_get_set, ?ta_set_length;
          repeat case_decide; try lia; try done).

(** The cells of the buffer after [insert]. *)
Lemma insert_get (el : EventList) ty time args (j : Z) :
  list_wf el → count el + 1 < 2 ^ 32 →
  ta_get (eventData (insert el ty time args)) (Some j) =
  if decide (j = count el * 12) then Some (count el)
  else if decide (j = count el * 12 + 1) then Some (ToUint32 (Some (id ty)))
  else if decide (j = count el * 12 + 2) then Some (ToUint32 (Some (-1)))
  else if decide (j = count el * 12 + 4) then Some (ToUint32 (Some time))
  else if decide (j = count el * 12 + 6 ∧ is_Some args)
       then Some (nextArgumentDataId_ el)
  else ta_get (grown el).2 (Some j).
Proof.
  intros Hwf Hb. destruct (grown_spec el Hwf) as (_ & Hroom & Hlen & _).
  pose proof (lwf_count el Hwf) as Hc.
  pose proof (lwf_args_next el Hwf) as Hn.
  rewrite insert_eventData. cbv zeta.
  assert (Hcs : ToUint32 (Some (count el)) = count el) by (apply ToUint32_small; lia).
  assert (Hns : ToUint32 (Some (nextArgumentDataId_ el)) = nextArgumentDataId_ el)
    by (apply ToUint32_small; lia).
  destruct args as [a|].
  - rewrite !ta_get_set, !ta_set_length, Hcs, Hns.
    repeat case_decide; try lia; try done;
      match goal with
      | H : ¬ (_ ∧ is_Some _) |- _ => exfalso; apply H; split; [lia|eauto]
      | H : _ ∧ is_Some _ |- _ => destruct H; lia
      end.
  - rewrite !ta_get_set, !ta_set_length, Hcs.
    repeat case_decide; try lia; try done;
      match goal with
      | H : _ ∧ is_Some None |- _ => destruct H as [_ [? ?]]; done
      end.
Qed.

Lemma insert_args (el : EventList) ty time args :
  nextArgumentDataId_ (insert el ty time args)
  = match args with
    | Some _ => nextArgumentDataId_ el + 1
    | None => nextArgumentDataId_ el
    end ∧
  argumentData_ (insert el ty time args)
  = match args with
    | Some a => <[nextArgumentDataId_ el := a]> (argumentData_ el)
    | None => argumentData_ el
    end.
Proof. unfold insert. by destruct args. Qed.

Lemma insert_length (el : EventList) ty time args :
  length (eventData (insert el ty time args)) = length (grown el).2.
Proof.
  rewrite insert_eventData. cbv zeta. destruct args; by rewrite !ta_set_length.
Qed.

Lemma insert_u32 (el : EventList) ty time args :
  u32_cells (grown el).2 → u32_cells (eventData (insert el ty time args)).
Proof.
  intros Hu. rewrite insert_eventData. cbv zeta.
  destruct args; repeat apply ta_set_u32; done.
Qed.

Lemma insert_wf (el : EventList) ty time args :
  list_wf el → count el + 1 < 2 ^ 32 → list_wf (insert el ty time args).
Proof.
  intros Hwf Hb.
  destruct (grown_spec el Hwf) as (Hcap & Hroom & Hlen & Hu & Hold & Hzero).
  pose proof (λ j, insert_get el ty time args j Hwf Hb) as Hget.
  destruct (insert_args el ty time args) as [Hnext Hargs].
  destruct Hwf as [Hc _ _ _ _ Hid Hn Hdom Hcell].
  split.
  - rewrite insert_count. lia.
  - by rewrite insert_length, insert_capacity.
  - rewrite insert_count, insert_capacity. lia.
  - by apply insert_u32.
  - intros j v. rewrite insert_count. intros Hj. rewrite Hget.
    repeat case_decide; try lia. intros Hv. eapply Hzero; [|exact Hv]. lia.
  - intros i. rewrite insert_count. intros Hi. rewrite Hget.
    repeat case_decide; try lia.
    + f_equal. lia.
    + rewrite Hold by lia. apply Hid. lia.
  - rewrite Hnext, insert_count. destruct args; lia.
  - intros k. rewrite Hnext, Hargs. destruct args as [a|]; [|apply Hdom].
    rewrite lookup_insert. case_decide as Hk.
    + subst. split; [lia|eauto].
    + rewrite Hdom. lia.
  - intros i a. rewrite insert_count, Hnext. intros Hi.
    rewrite Hget.
    repeat case_decide; try lia.
    + intros [= <-]. destruct args; [lia|].
      match goal with H : _ ∧ is_Some None |- _ => destruct H as [_ [? ?]]; done end.
    + destruct (decide (i = count el)) as [->|Hne].
      * intros ->%Hzero; [|lia]. destruct args; lia.
      * rewrite Hold by lia. intros Ha%Hcell; [|lia]. destruct args; lia.
Qed.

Lemma new_EventList_wf (T : EventTypeTable) : list_wf (new_EventList T).
Proof.
  split; simpl.
  - lia.
  - done.
  - lia.
  - apply new_Uint32Array_u32.
  - intros j v Hj. apply new_Uint32Array_get.
  - lia.
  - lia.
  - intros k. rewrite lookup_empty. split; [intros [? ?]; done|lia].
  - lia.
Qed.

(** ** resortEvents_ *)

Lemma copy_record_spec (d nd : list Z) (so no : Z) :
  0 ≤ no →
  length (copy_record d so no nd) = length nd ∧
  (u32_cells nd → u32_cells (copy_record d so no nd)) ∧
  ∀ j, ta_get (copy_record d so no nd) (Some j)
       = if decide (no ≤ j < no + 12 ∧ j < Z.of_nat (length nd))
         then Some (ToUint32 (ta_get d (Some (so + (j - no)))))
         else ta_get nd (Some j).
Proof.
  intros Hno. unfold copy_record.
  split; [apply copy_block_length|]. split; [apply copy_block_u32|].
  intros j. by rewrite copy_block_get.
Qed.

Lemma rearrange_snoc (d : list Z) (σ : list Z) (s : Z) :
  rearrange d (σ ++ [s])
  = copy_record d (s * 12) (Z.of_nat (length σ) * 12) (rearrange d σ).
Proof.
  unfold rearrange. rewrite imap_app, foldl_app. simpl.
  by rewrite Nat.add_0_r.
Qed.

Lemma rearrange_length (d σ : list Z) : length (rearrange d σ) = length d.
Proof.
  induction σ as [|s σ IH] using rev_ind.
  - unfold rearrange. simpl. unfold new_Uint32Array.
    rewrite length_replicate. lia.
  - rewrite rearrange_snoc.
    destruct (copy_record_spec d (rearrange d σ) (s * 12) (Z.of_nat (length σ) * 12))
      as (-> & _); [lia|done].
Qed.

Lemma rearrange_u32 (d σ : list Z) : u32_cells (rearrange d σ).
Proof.
  induction σ as [|s σ IH] using rev_ind.
  - apply new_Uint32Array_u32.
  - rewrite rearrange_snoc.
    destruct (copy_record_spec d (rearrange d σ) (s * 12) (Z.of_nat (length σ) * 12))
      as (_ & Hu & _); [lia|auto].
Qed.

(** Record [n] of the rearranged buffer is record [σ n] of the old one. *)
Lemma rearrange_get_record (d σ : list Z) (n : nat) (s k : Z) :
  σ !! n = Some s → 0 ≤ k < 12 →
  Z.of_nat n * 12 + k < Z.of_nat (length d) →
  ta_get (rearrange d σ) (Some (Z.of_nat n * 12 + k))
  = Some (ToUint32 (ta_get d (Some (s * 12 + k)))).
Proof.
  intros Hs Hk Hin. revert Hs. induction σ as [|s' σ IH] using rev_ind; [done|].
  intros Hs. rewrite rearrange_snoc.
  destruct (copy_record_spec d (rearrange d σ) (s' * 12) (Z.of_nat (length σ) * 12))
    as (_ & _ & ->); [lia|].
  rewrite rearrange_length.
  apply lookup_app_Some in Hs as [Hs|[Hlen Hs]].
  - apply lookup_lt_Some in Hs as Hlt. rewrite decide_False by lia. by apply IH.
  - destruct (n - length σ)%nat as [|m] eqn:E; [|by destruct m].
    simpl in Hs. simplify_eq. replace n with (length σ) in * by lia.
    rewrite decide_True by lia. repeat f_equal. lia.
Qed.

(** Behind the records of [σ] the rearranged buffer is zero. *)
Lemma rearrange_get_slack (d σ : list Z) (j v : Z) :
  Z.of_nat (length σ) * 12 ≤ j →
  ta_get (rearrange d σ) (Some j) = Some v → v = 0.
Proof.
  induction σ as [|s σ IH] using rev_ind; intros Hj.
  - apply new_Uint32Array_get.
  - rewrite length_app in Hj. simpl in Hj. rewrite rearrange_snoc.
    destruct (copy_record_spec d (rearrange d σ) (s * 12) (Z.of_nat (length σ) * 12))
      as (_ & _ & ->); [lia|].
    rewrite decide_False by lia. apply IH. lia.
Qed.

Lemma renumber_length (cnt : Z) (nd : list Z) :
  length (renumber cnt nd) = length nd.
Proof.
  unfold renumber. generalize (seqZ 0 cnt). intros l. revert nd.
  induction l as [|n l IH]; intros nd; simpl; [done|].
  rewrite IH. apply ta_set_length.
Qed.

Lemma renumber_u32 (cnt : Z) (nd : list Z) :
  u32_cells nd → u32_cells (renumber cnt nd).
Proof.
  unfold renumber. generalize (seqZ 0 cnt). intros l. revert nd.
  induction l as [|n l IH]; intros nd Hu; simpl; [done|].
  apply IH. by apply ta_set_u32.
Qed.

Lemma renumber_get (cnt : Z) (nd : list Z) (j : Z) :
  0 ≤ cnt →
  ta_get (renumber cnt nd) (Some j)
  = if decide (j mod 12 = 0 ∧ 0 ≤ j < cnt * 12 ∧ j < Z.of_nat (length nd))
    then Some (ToUint32 (Some (j / 12)))
    else ta_get nd (Some j).
Proof.
  intros Hcnt. revert j. pattern cnt. apply natlike_ind; [| |done].
  - intros j. unfold renumber. rewrite seqZ_nil by lia. simpl.
    rewrite decide_False by lia. done.
  - intros n Hn IH j. unfold Z.succ, renumber. rewrite foldl_seqZ_snoc by done.
    fold (renumber n nd). es. rewrite ta_get_set, renumber_length, IH.
    pose proof (Z.div_mod j 12 ltac:(lia)) as Hdm.
    pose proof (Z.mod_pos_bound j 12 ltac:(lia)) as Hmb.
    repeat case_decide; try lia; try done.
    repeat f_equal. lia.
Qed.

Lemma resort_eventData (el : EventList) :
  eventData (resortEvents_ el)
  = renumber (count el) (rearrange (eventData el) (sortIndex (eventData el) (count el))).
Proof. unfold resortEvents_. by case_match. Qed.

Lemma resort_fields (el : EventList) :
  count (resortEvents_ el) = count el ∧
  capacity_ (resortEvents_ el) = capacity_ el ∧
  eventTypeTable (resortEvents_ el) = eventTypeTable el ∧
  argumentData_ (resortEvents_ el) = argumentData_ el ∧
  nextArgumentDataId_ (resortEvents_ el) = nextArgumentDataId_ el.
Proof. unfold resortEvents_. by case_match. Qed.

Global Instance sorts_before_total (d : list Z) : Total (sorts_before d).
Proof.
  intros a b. unfold sorts_before, compare_events.
  rewrite (Z.eqb_sym (cell d (b * EventStruct.STRUCT_SIZE + 4))).
  case_match; lia.
Qed.

Global Instance sorts_before_trans (d : list Z) : Transitive (sorts_before d).
Proof.
  intros a b c. unfold sorts_before, compare_events.
  repeat case_match; rewrite ?Z.eqb_eq, ?Z.eqb_neq in *; lia.
Qed.

Lemma sortIndex_perm (d : list Z) (cnt : Z) : sortIndex d cnt ≡ₚ seqZ 0 cnt.
Proof. apply merge_sort_Permutation. Qed.

Lemma sortIndex_sorted (d : list Z) (cnt : Z) :
  StronglySorted (sorts_before d) (sortIndex d cnt).
Proof. apply StronglySorted_merge_sort; apply _. Qed.

Lemma sortIndex_length (d : list Z) (cnt : Z) :
  Z.of_nat (length (sortIndex d cnt)) = Z.max 0 cnt.
Proof. rewrite (Permutation_length (sortIndex_perm d cnt)), length_seqZ. lia. Qed.

Lemma sortIndex_elem (d : list Z) (cnt s : Z) :
  s ∈ sortIndex d cnt ↔ 0 ≤ s < cnt.
Proof. rewrite (sortIndex_perm d cnt), elem_of_seqZ. lia. Qed.

(** [sort] has no choice: a permutation of the indices that the comparator
    accepts as sorted is the one the merge sort gives, when the records
    have their index as ID. *)
Lemma sortIndex_unique (d : list Z) (cnt : Z) (σ : list Z) :
  (∀ i, 0 ≤ i < cnt → field d i EventStruct.ID = i) →
  σ ≡ₚ seqZ 0 cnt → StronglySorted (sorts_before d) σ →
  σ = sortIndex d cnt.
Proof.
  intros Hid Hperm Hsorted.
  apply (StronglySorted_unique_strong (sorts_before d));
    [|done|apply sortIndex_sorted|by rewrite sortIndex_perm].
  intros a b Ha Hb. rewrite Hperm, elem_of_seqZ in Ha.
  rewrite sortIndex_elem in Hb.
  unfold sorts_before, compare_events. unfold field in Hid. es.
  rewrite (Z.eqb_sym (cell d (b * 12 + 4))).
  pose proof (Hid a ltac:(lia)) as Ha'. pose proof (Hid b ltac:(lia)) as Hb'.
  rewrite Z.add_0_r in Ha', Hb'. rewrite Ha', Hb'.
  case_match; lia.
Qed.

(** ** rescopeEvents_: one iteration *)

Lemma apply_writes_app d ws1 ws2 :
  apply_writes d (ws1 ++ ws2) = apply_writes (apply_writes d ws1) ws2.
Proof. apply foldl_app. Qed.

Lemma Step_eq f g cnt n s r r' : Step f g cnt n s r → r = r' → Step f g cnt n s r'.
Proof. by intros ? <-. Qed.

Lemma scope_cell_ne s f j f' :
  f ≠ f' → 0 ≤ f < 12 → 0 ≤ f' < 12 → scope_cell s f ≠ Some (j * 12 + f').
Proof.
  intros. unfold scope_cell. destruct (parent s) as [p|]; simpl; [|done].
  intros [=]. lia.
Qed.

(** A read of the state after the prologue, outside its three cells. *)
Lemma prologue_get cnt n s (i : num) :
  i ≠ Some (n * 12 + 2) → i ≠ Some (n * 12 + 3) → i ≠ Some (n * 12 + 5) →
  ta_get (apply_writes (r_eventData s) (prologue cnt n s)) i
  = ta_get (r_eventData s) i.
Proof.
  intros. unfold apply_writes, prologue. simpl. by rewrite !ta_get_set_ne.
Qed.

Lemma scope_leave_eq f cnt n s :
  scope_leave f s (apply_writes (r_eventData s) (prologue cnt n s)) (n * 12)
    (parent s) (next_id cnt n s)
  = if stackTop s - 1 =? 0
    then Normal (scope_left cnt n s (childTime_reset s) (systemTime_reset s))
    else match typeStack s !! (stackTop s - 1) with
         | None => Throw (scope_left cnt n s (childTime_rolled n s) (systemTime_reset s))
         | Some ty => Normal (scope_left cnt n s (childTime_rolled n s)
                                (systemTime_rolled f n s ty))
         end.
Proof.
  unfold scope_leave. es. cbv zeta.
  set (d3 := apply_writes (r_eventData s) (prologue cnt n s)).
  fold (scope_cell s 5) (scope_cell s 4) (scope_cell s 9) (scope_cell s 10)
    (scope_cell s 11).
  assert (Et : ta_get (ta_set (ta_set d3 (Some (n * 12 + 5)) (Some 0))
                  (scope_cell s 5) (next_id cnt n s)) (Some (n * 12 + 4))
               = rd s (n * 12 + 4)).
  { rewrite ta_get_set_ne by (apply scope_cell_ne; lia).
    rewrite ta_get_set_ne by (intros [=]; lia).
    apply prologue_get; intros [=]; lia. }
  assert (Es : ta_get (ta_set (ta_set d3 (Some (n * 12 + 5)) (Some 0))
                  (scope_cell s 5) (next_id cnt n s)) (scope_cell s 4)
               = ta_get (r_eventData s) (scope_cell s 4)).
  { unfold scope_cell. destruct (parent s) as [p|]; simpl; [|done].
    rewrite !ta_get_set_ne by (intros [=]; lia).
    apply prologue_get; intros [=]; lia. }
  rewrite Et, Es. fold (leave_duration n s).
  fold (childTime_reset s) (systemTime_reset s).
  fold (childTime_rolled n s).
  change (ta_set _ (scope_cell s 11) _)
    with (apply_writes (r_eventData s) (leave_writes cnt n s)).
  reflexivity.
Qed.

Lemma push_scope_eq n s d T ty :
  ta_get d (Some (n * 12 + 0)) = rd s (n * 12) →
  push_scope s d T (n * 12) ty = pushed n s d T ty.
Proof. intros Hd. unfold push_scope, pushed. es. by rewrite Hd. Qed.

Lemma kind_of_enter g t : num_eqb t (scopeEnterId g) = true → kind_of g t = KEnter.
Proof. unfold kind_of. by intros ->. Qed.

Lemma rescope_step_spec f g cnt n s : Step f g cnt n s (rescope_step f g cnt n s).
Proof.
  unfold rescope_step. es. cbv zeta.
  fold (parent s).
  assert (E1 : ta_get (ta_set (ta_set (r_eventData s) (Some (n * 12 + 2)) (parent s))
                  (Some (n * 12 + 3)) (Some (stackTop s))) (Some (n * 12 + 12 + 0))
               = rd s (n * 12 + 12)).
  { rewrite !ta_get_set_ne by (intros [=]; lia). unfold rd. f_equal. f_equal. lia. }
  rewrite E1.
  fold (next_id cnt n s).
  change (ta_set (ta_set (ta_set (r_eventData s) (Some (n * 12 + 2)) (parent s))
                  (Some (n * 12 + 3)) (Some (stackTop s))) (Some (n * 12 + 5)) (next_id cnt n s))
    with (apply_writes (r_eventData s) (prologue cnt n s)).
  rewrite !(prologue_get cnt n s (Some (n * 12 + 1))) by (intros [=]; lia).
  rewrite !(prologue_get cnt n s (Some (n * 12 + 6))) by (intros [=]; lia).
  fold (rd s (n * 12 + 1)) (rd s (n * 12 + 6)).
  set (d3 := apply_writes (r_eventData s) (prologue cnt n s)).
  assert (Eid : ∀ v, ta_get (ta_set d3 (Some (n * 12 + 1)) v) (Some (n * 12 + 0)) = rd s (n * 12)).
  { intros v. rewrite ta_get_set_ne by (intros [=]; lia). subst d3.
    rewrite prologue_get by (intros [=]; lia). unfold rd. do 2 f_equal. lia. }
  assert (Eid' : ta_get d3 (Some (n * 12 + 0)) = rd s (n * 12)).
  { subst d3. rewrite prologue_get by (intros [=]; lia). unfold rd. do 2 f_equal. lia. }
  assert (Hkind : kind_of g (rd s (n * 12 + 1)) = kind_of g (rd s (n * 12 + 1))) by done.
  unfold kind_of at 2 in Hkind.
  destruct (num_eqb (rd s (n * 12 + 1)) (scopeEnterId g)).
  { destruct (args_at _ _) as [args|] eqn:Ea.
    - rewrite push_scope_eq by apply Eid. by apply step_enter.
    - by apply step_enter_throw. }
  destruct (num_eqb (rd s (n * 12 + 1)) (scopeLeaveId g)).
  { subst d3. rewrite scope_leave_eq.
    destruct (Z.eqb_spec (stackTop s - 1) 0).
    - by apply step_leave_root.
    - destruct (typeStack s !! _) eqn:Et.
      + by apply step_leave.
      + by apply step_leave_throw. }
  destruct (num_eqb (rd s (n * 12 + 1)) (appendScopeDataId g)).
  { unfold appendScopeData_. es. fold (scope_cell s 6).
    subst d3. rewrite (prologue_get cnt n s (scope_cell s 6)) by (apply scope_cell_ne; lia).
    destruct (ta_get (r_eventData s) (scope_cell s 6)) as [sid|] eqn:Es.
    - destruct (decide (sid = 0)) as [->|Hne].
      + simpl. eapply Step_eq; [apply step_append_adopt; [done|by rewrite Es]|].
        by rewrite apply_writes_app.
      + assert (Htr : truthy (Some sid) = true).
        { simpl. by apply negb_true_iff, Z.eqb_neq. }
        rewrite Htr. simpl.
        destruct (r_argumentData s !! sid) as [this|] eqn:Ethis.
        * destruct (args_at _ (rd s _)) as [other|] eqn:Eo.
          -- eapply step_append_merge; eauto.
          -- eapply step_append_throw; eauto.
        * eapply step_append_throw; eauto.
    - simpl. eapply Step_eq; [apply step_append_adopt; [done|by rewrite Es]|].
      by rewrite apply_writes_app. }
  destruct (num_eqb (rd s (n * 12 + 1)) (timeStampId g)).
  { destruct (args_at _ _) as [args|] eqn:Ea.
    - by apply step_timeStamp.
    - by apply step_timeStamp_throw. }
  destruct (from_option _ _ _) as [ty|] eqn:Ety.
  - case_decide.
    + rewrite push_scope_eq by apply Eid'. by apply step_other_scope.
    + by eapply step_other_instance.
  - by apply step_other_throw.
Qed.

Lemma Step_fun f g cnt n s r : Step f g cnt n s r → rescope_step f g cnt n s = r.
Proof.
  intros H. pose proof (rescope_step_spec f g cnt n s) as H'.
  destruct H; inversion H'; try congruence; simplify_eq; try reflexivity;
    try (match goal with
         | H1 : truthy ?x = false, H2 : ?x = Some ?v, H3 : ?v ≠ 0 |- _ =>
             rewrite H2 in H1; simpl in H1;
             apply negb_false_iff, Z.eqb_eq in H1; congruence
         | H : _ ∨ _ |- _ => destruct H; congruence
         end).
Qed.

Lemma apply_writes_length d ws : length (apply_writes d ws) = length d.
Proof.
  revert d. induction ws as [|w ws IH]; intros d; [done|].
  unfold apply_writes in *. simpl. rewrite IH. apply ta_set_length.
Qed.

Lemma apply_writes_u32 d ws : u32_cells d → u32_cells (apply_writes d ws).
Proof.
  revert d. induction ws as [|w ws IH]; intros d Hd; [done|].
  unfold apply_writes in *. simpl. apply IH. by apply ta_set_u32.
Qed.

(** A cell after a sequence of writes holds its old value or the value of
    one of the writes to it. *)
Lemma apply_writes_get d ws j :
  ta_get (apply_writes d ws) (Some j) = ta_get d (Some j) ∨
  ∃ w, w ∈ ws ∧ w.1 = Some j ∧
       ta_get (apply_writes d ws) (Some j) = Some (ToUint32 w.2).
Proof.
  induction ws as [|w ws IH] using rev_ind; [by left|].
  rewrite apply_writes_app. unfold apply_writes at 1 3. simpl.
  fold (apply_writes d ws).
  destruct (decide (w.1 = Some j)) as [Hw|Hw].
  - rewrite Hw. destruct (decide (0 ≤ j < Z.of_nat (length d))) as [Hj|Hj].
    + right. exists w. rewrite ta_get_set_eq by (by rewrite apply_writes_length).
      split; [apply elem_of_app; right; by left|done].
    + left. rewrite !ta_get_None; [done|done|].
      by rewrite ta_set_length, apply_writes_length.
  - rewrite ta_get_set_ne by done.
    destruct IH as [IH|(w' & Hin & Hw' & IH)]; [by left|right].
    exists w'. split; [apply elem_of_app; by left|done].
Qed.

Lemma apply_writes_get_other d ws j :
  (∀ w, w ∈ ws → w.1 ≠ Some j) →
  ta_get (apply_writes d ws) (Some j) = ta_get d (Some j).
Proof.
  intros Hws. destruct (apply_writes_get d ws j) as [H|(w & Hin & Hw & _)]; [done|].
  by destruct (Hws w Hin).
Qed.

Ltac forall_list :=
  repeat first [assumption | apply Forall_nil_2 | apply Forall_cons_2
               | (apply Forall_app; split)].

Lemma write_ok_cell g n s j v :
  j = n * 12 + 2 ∨ j = n * 12 + 3 ∨ j = n * 12 + 5 → write_ok g n s (Some j, v).
Proof. intros Hj j' [= <-]. by left. Qed.

Lemma write_ok_prologue g cnt n s : Forall (write_ok g n s) (prologue cnt n s).
Proof. unfold prologue. forall_list; apply write_ok_cell; lia. Qed.

Lemma write_ok_scope_cell g n s f v :
  f = 5 ∨ f = 9 ∨ f = 10 ∨ f = 11 → write_ok g n s (scope_cell s f, v).
Proof.
  intros Hf j. unfold scope_cell. simpl.
  destruct (parent s) as [p|] eqn:Ep; simpl; [|done].
  intros [= <-]. right. right. left. exists p. split; [done|]. lia.
Qed.

Lemma write_ok_leave g cnt n s : Forall (write_ok g n s) (leave_writes cnt n s).
Proof.
  pose proof (write_ok_prologue g cnt n s).
  unfold leave_writes. forall_list;
    first [apply write_ok_cell; lia | apply write_ok_scope_cell; lia].
Qed.

(** The buffer after an iteration, whether it returns or throws. *)
Lemma step_writes f g cnt n s :
  ∃ ws, r_eventData (outcome_state (rescope_step f g cnt n s))
        = apply_writes (r_eventData s) ws ∧
        Forall (write_ok g n s) ws.
Proof.
  pose proof (write_ok_prologue g cnt n s) as Hpro.
  pose proof (write_ok_leave g cnt n s) as Hleave.
  destruct (rescope_step_spec f g cnt n s);
    (eexists; split; [reflexivity|]); try done.
  - forall_list; try (apply write_ok_cell; lia).
    intros j [= <-]. right. left. split; [done|]. by left.
  - forall_list; try (apply write_ok_cell; lia). intros j. simpl. intros Hj. right. right. right.
    unfold rd, scope_cell in *. destruct (parent s) as [p|]; simpl in *; [|done].
    exists p. simplify_eq. done.
  - forall_list; try (apply write_ok_cell; lia).
    intros j [= <-]. right. left. split; [done|by right].
Qed.

(** The stack after an iteration. *)
Lemma step_stack f g cnt n s :
  let s' := outcome_state (rescope_step f g cnt n s) in
  stack s' = stack s ∨
  stack s' = ta_set (stack s) (Some (stackTop s + 1)) (rd s (n * 12)).
Proof. destruct (rescope_step_spec f g cnt n s); simpl; auto. Qed.

(** The argument table after an iteration: a bag may have been merged
    into. *)
Lemma step_args f g cnt n s :
  let s' := outcome_state (rescope_step f g cnt n s) in
  r_argumentData s' = r_argumentData s ∨
  ∃ k this new, r_argumentData s !! k = Some this ∧
                r_argumentData s' = <[k := new]> (r_argumentData s).
Proof. destruct (rescope_step_spec f g cnt n s); simpl; eauto 10. Qed.

Lemma mod12 (j : Z) : j = 12 * (j / 12) + j mod 12 ∧ 0 ≤ j mod 12 < 12.
Proof. split; [apply Z.div_mod; lia|apply Z.mod_pos_bound; lia]. Qed.

Lemma rescope_step_inv f g el n s :
  list_wf el → rescope_inv el s → 0 ≤ n < count el →
  rescope_inv el (outcome_state (rescope_step f g (count el) n s)).
Proof.
  intros Hwf [Hlen Hu Hfr Hst Hdom Hcell] Hn.
  destruct (step_writes f g (count el) n s) as (ws & Hd & Hws).
  rewrite Forall_forall in Hws.
  assert (Hparent : ∀ p, parent s = Some p → 0 ≤ p < count el).
  { intros p Hp. apply Hst in Hp. lia. }
  split.
  - by rewrite Hd, apply_writes_length.
  - rewrite Hd. by apply apply_writes_u32.
  - intros j Hj. unfold rd. rewrite Hd, apply_writes_get_other; [by apply Hfr|].
    intros w Hw Hw1. destruct (mod12 j) as [Hj1 Hj2].
    destruct (Hws w Hw j Hw1) as [?|[[? _]|[(p & Hp & ?)|(p & Hp & ? & _)]]];
      try apply Hparent in Hp; lia.
  - intros k p.
    destruct (step_stack f g (count el) n s) as [->| ->]; [apply Hst|].
    destruct (decide (k = stackTop s + 1)) as [->|Hne].
    + destruct (decide (0 ≤ stackTop s + 1 < Z.of_nat (length (stack s)))).
      * rewrite ta_get_set_eq by done. intros [= <-].
        rewrite Hfr by (left; apply Z_mod_mult).
        rewrite (lwf_id el Hwf) by done.
        rewrite ToUint32_small; [lia|]. pose proof (lwf_count el Hwf). lia.
      * rewrite ta_get_None; [done|by rewrite ta_set_length].
    + rewrite ta_get_set_ne by congruence. apply Hst.
  - intros k.
    destruct (step_args f g (count el) n s) as [->|(k' & this & new & Hk & ->)];
      [apply Hdom|]. rewrite <- Hdom.
    rewrite lookup_insert. case_decide; [subst; split; eauto|done].
  - intros i a Hi. unfold rd. rewrite Hd.
    destruct (apply_writes_get (r_eventData s) ws (i * 12 + 6))
      as [->|(w & Hw & Hw1 & ->)]; [by apply Hcell|].
    intros [= <-].
    destruct (Hws w Hw _ Hw1) as [?|[[? _]|[(p & Hp & ?)|(p & Hp & ? & _ & Hw2)]]];
      try lia.
    destruct w as [w1 w2]. simpl in *. subst w2.
    destruct (rd s (n * 12 + 6)) as [a|] eqn:Ea.
    + rewrite ToUint32_small; [by apply (Hcell n)|].
      by apply (ta_get_u32 (r_eventData s) (Some (n * 12 + 6))).
    + unfold ToUint32. pose proof (lwf_args_next el Hwf). lia.
Qed.

Lemma rescope_loop_inv f g el ns s :
  list_wf el → rescope_inv el s → Forall (λ n, 0 ≤ n < count el) ns →
  rescope_inv el (outcome_state (rescope_loop f g (count el) ns s)).
Proof.
  intros Hwf Hinv Hns. revert s Hinv.
  induction Hns as [|n ns Hn Hns IH]; intros s Hinv; [done|].
  simpl. pose proof (rescope_step_inv f g el n s Hwf Hinv Hn) as Hstep.
  destruct (rescope_step f g (count el) n s) as [s1|s1]; simpl in *; [by apply IH|done].
Qed.

Lemma rescope_init_inv el : list_wf el → rescope_inv el (rescope_init el).
Proof.
  intros Hwf. split; simpl; try done.
  - apply Hwf.
  - intros k p Hp. apply new_Uint32Array_get in Hp. lia.
  - intros i a Hi Ha. pose proof (lwf_args_cell el Hwf i a Hi). auto.
Qed.

Lemma seqZ_bounds (cnt : Z) : Forall (λ n, 0 ≤ n < cnt) (seqZ 0 cnt).
Proof. apply Forall_forall. intros n Hn%elem_of_seqZ. lia. Qed.

(** The fields of the list after [rescopeEvents_], whether it returns or
    throws. *)
Lemma rescope_fields f el :
  let el' := outcome_state (rescopeEvents_ f el) in
  let s := outcome_state (rescope_loop f (generic_ids (eventTypeTable el)) (count el)
                            (seqZ 0 (count el)) (rescope_init el)) in
  count el' = count el ∧ capacity_ el' = capacity_ el ∧
  nextArgumentDataId_ el' = nextArgumentDataId_ el ∧
  eventData el' = r_eventData s ∧ argumentData_ el' = r_argumentData s ∧
  eventTypeTable el' = r_table s.
Proof. unfold rescopeEvents_. by destruct (rescope_loop _ _ _ _ _). Qed.

Lemma rescope_wf f el : list_wf el → list_wf (outcome_state (rescopeEvents_ f el)).
Proof.
  intros Hwf.
  destruct (rescope_fields f el) as (Hc & Hcap & Hnext & Hd & Ha & _).
  pose proof (rescope_loop_inv f (generic_ids (eventTypeTable el)) el
    (seqZ 0 (count el)) (rescope_init el) Hwf (rescope_init_inv el Hwf)
    (seqZ_bounds (count el))) as [Hlen Hu Hfr Hst Hdom Hcell].
  split; rewrite ?Hc, ?Hcap, ?Hnext, ?Hd, ?Ha; try apply Hwf.
  - rewrite Hlen. apply Hwf.
  - done.
  - intros j v Hj. fold (rd (outcome_state (rescope_loop f (generic_ids (eventTypeTable el)) (count el)
                            (seqZ 0 (count el)) (rescope_init el))) j).
    rewrite Hfr by lia. by apply (lwf_slack el Hwf).
  - intros i Hi. fold (rd (outcome_state (rescope_loop f (generic_ids (eventTypeTable el)) (count el)
                            (seqZ 0 (count el)) (rescope_init el))) (i * 12)).
    rewrite Hfr by (left; apply Z_mod_mult).
    by apply (lwf_id el Hwf).
  - intros k. rewrite Hdom. apply Hwf.
  - done.
Qed.

(** Record [n] of the resorted buffer is record [σ n] of the old one, but
    for its ID, which is [n]. *)
Lemma resort_record (el : EventList) (n : nat) (s k : Z) :
  list_wf el → sortIndex (eventData el) (count el) !! n = Some s → 0 ≤ k < 12 →
  ta_get (eventData (resortEvents_ el)) (Some (Z.of_nat n * 12 + k))
  = if decide (k = 0) then Some (Z.of_nat n)
    else ta_get (eventData el) (Some (s * 12 + k)).
Proof.
  intros Hwf Hs Hk. pose proof (lwf_count el Hwf) as Hc.
  pose proof (lwf_length el Hwf) as Hlen. pose proof (lwf_room el Hwf) as Hroom.
  assert (Hn : Z.of_nat n < count el).
  { apply lookup_lt_Some in Hs. pose proof (sortIndex_length (eventData el) (count el)). lia. }
  assert (Hs' : 0 ≤ s < count el).
  { apply sortIndex_elem with (d := eventData el). by eapply list_elem_of_lookup_2. }
  rewrite resort_eventData, renumber_get by lia.
  rewrite rearrange_length.
  destruct (mod12 (Z.of_nat n * 12 + k)) as [Hm1 Hm2].
  case_decide as Hd.
  - rewrite decide_True by lia. f_equal.
    replace (Z.of_nat n * 12 + k) with (Z.of_nat n * 12) by lia.
    rewrite Z.div_mul by lia. apply ToUint32_small. lia.
  - rewrite decide_False by lia.
    rewrite (rearrange_get_record _ _ _ _ _ Hs) by lia.
    destruct (ta_get_is_Some (eventData el) (s * 12 + k)) as [v Hv]; [lia|].
    rewrite Hv. f_equal. apply ToUint32_small.
    eapply ta_get_u32; [apply Hwf|exact Hv].
Qed.

Lemma resort_wf (el : EventList) : list_wf el → list_wf (resortEvents_ el).
Proof.
  intros Hwf. destruct (resort_fields el) as (Hc & Hcap & _ & Ha & Hnext).
  pose proof (lwf_count el Hwf) as Hcnt.
  pose proof (sortIndex_length (eventData el) (count el)) as Hsl.
  split; rewrite ?Hc, ?Hcap, ?Ha, ?Hnext; try apply Hwf.
  - rewrite resort_eventData, renumber_length, rearrange_length. apply Hwf.
  - rewrite resort_eventData. apply renumber_u32, rearrange_u32.
  - intros j v Hj. rewrite resort_eventData, renumber_get by lia.
    rewrite decide_False by lia. apply rearrange_get_slack. lia.
  - intros i Hi.
    destruct (lookup_lt_is_Some_2 (sortIndex (eventData el) (count el)) (Z.to_nat i))
      as [s Hs]; [lia|].
    pose proof (resort_record el (Z.to_nat i) s 0 Hwf Hs ltac:(lia)) as Hr.
    rewrite Z2Nat.id, Z.add_0_r in Hr by lia. by rewrite Hr.
  - intros i a Hi.
    destruct (lookup_lt_is_Some_2 (sortIndex (eventData el) (count el)) (Z.to_nat i))
      as [s Hs]; [lia|].
    pose proof (resort_record el (Z.to_nat i) s 6 Hwf Hs ltac:(lia)) as Hr.
    rewrite Z2Nat.id in Hr by lia. rewrite Hr. simpl.
    apply (lwf_args_cell el Hwf).
    apply sortIndex_elem with (d := eventData el). by eapply list_elem_of_lookup_2.
Qed.

Lemma list_reachable_wf (el : EventList) : list_reachable el → list_wf el.
Proof.
  induction 1 as [T HT|el ty time args Hel IH Hb|f el Hel IH|el ty Hel IH].
  - apply new_EventList_wf.
  - by apply insert_wf.
  - by apply rescope_wf, resort_wf.
  - destruct IH. by split.
Qed.

(** ** The claims on insert and on the order after rebuild *)

(** C9. [insert] appends one record to a list a program can build: the
    count goes up by one; the new record has the count as ID, the type id
    and the time as 32-bit cells (themselves when they fit), PARENT -1 as a
    32-bit cell, that is 4294967295, NEXT_SIBLING 0, END_TIME 0 and the id
    of the interned arguments, if any; the cells of the records before
    are unchanged; when the record after this one would not fit, the
    capacity becomes twice the capacity and at least 1024, and the buffer
    has 12 cells for each record of the capacity. *)
Theorem insert_appends (el : EventList) ty time args :
  list_reachable el → count el + 1 < 2 ^ 32 →
  let el' := insert el ty time args in
  let new f := ta_get (eventData el') (Some (count el * 12 + f)) in
  count el' = count el + 1 ∧
  new EventStruct.ID = Some (count el) ∧
  new EventStruct.TYPE = Some (ToUint32 (Some (id ty))) ∧
  (0 ≤ id ty < 2 ^ 32 → new EventStruct.TYPE = Some (id ty)) ∧
  new EventStruct.TIME = Some (ToUint32 (Some time)) ∧
  (0 ≤ time < 2 ^ 32 → new EventStruct.TIME = Some time) ∧
  new EventStruct.PARENT = Some (ToUint32 (Some (-1))) ∧
  ToUint32 (Some (-1)) = 4294967295 ∧
  new EventStruct.NEXT_SIBLING = Some 0 ∧
  new EventStruct.END_TIME = Some 0 ∧
  new EventStruct.ARGUMENTS
    = Some (match args with Some _ => nextArgumentDataId_ el | None => 0 end) ∧
  (∀ a, args = Some a → getArgumentData el' (nextArgumentDataId_ el) = Some a) ∧
  (∀ j, 0 ≤ j < count el * 12 →
     ta_get (eventData el') (Some j) = ta_get (eventData el) (Some j)) ∧
  capacity_ el' = (if count el + 1 >=? capacity_ el
                   then Z.max (capacity_ el * 2) 1024 else capacity_ el) ∧
  Z.of_nat (length (eventData el')) = capacity_ el' * 12 ∧
  count el' < capacity_ el'.
Proof.
  intros Hel%list_reachable_wf Hb el' new.
  destruct (grown_spec el Hel) as (Hcap & Hroom & Hlen & Hu & Hold & Hzero).
  pose proof (λ j, insert_get el ty time args j Hel Hb) as Hget.
  pose proof (lwf_count el Hel) as Hc.
  assert (Hslack : ∀ f, 0 ≤ f < 12 →
    ta_get (grown el).2 (Some (count el * 12 + f)) = Some 0).
  { intros f Hf. destruct (ta_get_is_Some (grown el).2 (count el * 12 + f)) as [v Hv]; [lia|].
    rewrite Hv. f_equal. eapply Hzero; [|exact Hv]. lia. }
  subst new el'. es. cbv beta.
  split; [apply insert_count|].
  split. { rewrite Hget. rewrite decide_True by lia. done. }
  assert (Hty : ta_get (eventData (insert el ty time args)) (Some (count el * 12 + 1))
                = Some (ToUint32 (Some (id ty)))).
  { rewrite Hget. repeat case_decide; try lia. done. }
  split; [done|]. split. { intros Hid. by rewrite Hty, ToUint32_small. }
  assert (Htm : ta_get (eventData (insert el ty time args)) (Some (count el * 12 + 4))
                = Some (ToUint32 (Some time))).
  { rewrite Hget. repeat case_decide; try lia. done. }
  split; [done|]. split. { intros Ht. by rewrite Htm, ToUint32_small. }
  split. { rewrite Hget. repeat case_decide; try lia. done. }
  split; [done|].
  split. { rewrite Hget. repeat case_decide; try lia. apply Hslack. lia. }
  split. { rewrite Hget. repeat case_decide; try lia. apply Hslack. lia. }
  split.
  { rewrite Hget. repeat case_decide; try lia.
    - destruct args; [done|].
      match goal with H : _ ∧ is_Some None |- _ => destruct H as [_ [? ?]]; done end.
    - destruct args as [a|]; [|apply Hslack; lia].
      match goal with H : ¬ (_ ∧ is_Some _) |- _ => destruct H; split; [lia|eauto] end. }
  split.
  { intros a ->. unfold getArgumentData.
    destruct (insert_args el ty time (Some a)) as [_ ->]. apply lookup_insert_eq. }
  split.
  { intros j Hj. rewrite Hget. repeat case_decide; try lia. by apply Hold. }
  rewrite insert_capacity, insert_length, insert_count. done.
Qed.

Lemma rebuild_list {L} `{IAncillaryList L} f (el : EventList) (lists : list L) :
  (outcome_state (rebuild f el lists)).1
  = outcome_state (rescopeEvents_ f (resortEvents_ el)).
Proof. unfold rebuild. by destruct (rescopeEvents_ _ _). Qed.

(** [rescopeEvents_] leaves the ID and TIME cells as they are, whether it
    returns or throws. *)
Lemma rescope_keeps_id_time f (el : EventList) (j : Z) :
  list_wf el → j mod 12 = 0 ∨ j mod 12 = 4 →
  ta_get (eventData (outcome_state (rescopeEvents_ f el))) (Some j)
  = ta_get (eventData el) (Some j).
Proof.
  intros Hwf Hj.
  destruct (rescope_fields f el) as (_ & _ & _ & -> & _).
  apply (ri_frame el _ (rescope_loop_inv f (generic_ids (eventTypeTable el)) el
    (seqZ 0 (count el)) (rescope_init el) Hwf (rescope_init_inv el Hwf)
    (seqZ_bounds (count el)))).
  tauto.
Qed.

Lemma StronglySorted_strict {A} (R R' : relation A) (l : list A) :
  (∀ a b, a ∈ l → b ∈ l → a ≠ b → R a b → R' a b) → NoDup l →
  StronglySorted R l → StronglySorted R' l.
Proof.
  intros HR Hnd Hs. induction Hs as [|a l Hs IH Ha]; [constructor|].
  apply NoDup_cons in Hnd as [Hnin Hnd].
  constructor.
  - apply IH; [|done]. intros x y Hx Hy. apply HR; by right.
  - rewrite Forall_forall in *. intros b Hb. apply HR; [by left|by right| |by apply Ha].
    intros ->. done.
Qed.

Lemma StronglySorted_lookup {A} (R : relation A) (l : list A) (i j : nat) (a b : A) :
  StronglySorted R l → l !! i = Some a → l !! j = Some b → (i < j)%nat → R a b.
Proof.
  intros Hs. revert i j. induction Hs as [|x l Hs IH Hx]; intros i j Hi Hj Hlt; [done|].
  destruct j as [|j]; [lia|]. destruct i as [|i]; simpl in *.
  - simplify_eq. rewrite Forall_forall in Hx. apply Hx. by eapply list_elem_of_lookup_2.
  - apply (IH i j); [done..|lia].
Qed.

Lemma field_get (d : list Z) (i f v : Z) :
  ta_get d (Some (i * 12 + f)) = Some v → field d i f = v.
Proof. unfold field, cell. es. by intros ->. Qed.

(** The indices sorted by the comparator are, on a list whose records
    have their index as ID, sorted by time and then position. *)
Lemma sortIndex_time_then_index (el : EventList) :
  list_wf el →
  StronglySorted (time_then_index (eventData el))
    (sortIndex (eventData el) (count el)).
Proof.
  intros Hwf.
  apply (StronglySorted_strict (sorts_before (eventData el)));
    [| |apply sortIndex_sorted].
  - intros a b Ha%sortIndex_elem Hb%sortIndex_elem Hne.
    unfold sorts_before, compare_events, time_then_index, field. es.
    pose proof (field_get _ _ 0 _ (eq_trans (f_equal _ (f_equal _ (Z.add_0_r _)))
      (lwf_id el Hwf a Ha))) as Ha'.
    pose proof (field_get _ _ 0 _ (eq_trans (f_equal _ (f_equal _ (Z.add_0_r _)))
      (lwf_id el Hwf b Hb))) as Hb'.
    unfold field in Ha', Hb'. es. rewrite Z.add_0_r in Ha', Hb'. rewrite Ha', Hb'.
    destruct (Z.eqb_spec (cell (eventData el) (a * 12 + 4)) (cell (eventData el) (b * 12 + 4))); lia.
  - rewrite (sortIndex_perm (eventData el) (count el)). apply NoDup_seqZ.
Qed.

Lemma insert_all_count (el : EventList) (evs : list Event) :
  count (insert_all el evs) = count el + Z.of_nat (length evs).
Proof.
  revert el. induction evs as [|ev evs IH]; intros el; simpl; [lia|].
  unfold insert_all in *. simpl. rewrite IH, insert_count. lia.
Qed.

Lemma insert_all_reachable (el : EventList) (evs : list Event) :
  list_reachable el → count el + Z.of_nat (length evs) < 2 ^ 32 →
  list_reachable (insert_all el evs).
Proof.
  revert el. induction evs as [|ev evs IH]; intros el Hel Hb; [done|].
  unfold insert_all in *. simpl in *. apply IH.
  - apply lreach_insert; [done|lia].
  - rewrite insert_count. lia.
Qed.

Lemma example_table_reachable (b_flags : Z) : table_reachable (example_table b_flags).
Proof. unfold example_table. cbn [foldl]. repeat apply reach_define. apply reach_new. Qed.

(** C9, witness: a second event on a list of one. *)
Lemma insert_appends_witness :
  let el := insert (new_EventList (example_table 0)) ty_X 7 None in
  let el' := insert el ty_A 9 (Some [("k", VNum 1)]) in
  count el' = 2 ∧ capacity_ el' = 1024 ∧
  field (eventData el') 1 EventStruct.TYPE = 5 ∧
  field (eventData el') 1 EventStruct.TIME = 9 ∧
  field (eventData el') 1 EventStruct.PARENT = 4294967295.
Proof.
  intros el el'.
  assert (Hel : list_reachable el).
  { apply lreach_insert; [apply lreach_new, example_table_reachable|by vm_compute]. }
  assert (Hb : count el + 1 < 2 ^ 32) by by vm_compute.
  destruct (insert_appends el ty_A 9 (Some [("k", VNum 1)]) Hel Hb)
    as (Hc & _ & _ & Hty & _ & Htm & Hp & Hm1 & _ & _ & _ & _ & _ & Hcap & _).
  split; [exact Hc|]. split; [exact Hcap|].
  split; [apply field_get, Hty; by vm_compute|].
  split; [apply field_get, Htm; by vm_compute|].
  apply field_get. rewrite <- Hm1. exact Hp.
Defined.

(** ** A second rebuild

    The first rebuild leaves a sorted list, so that the second sorts
    nothing; its re-scope pass is followed next to the first, iteration
    by iteration.  The two differ where the first resolves a generic
    record and where it adopts the arguments of an append: the second
    finds the resolved type and the adopted id in the buffer. *)

(** *** What the first pass keeps *)

Lemma ta_set_out (d : list Z) (i v : num) :
  ta_get d i = None → ta_set d i v = d.
Proof.
  destruct i as [i|]; unfold ta_get, ta_set; [|done].
  case_match; [|done]. intros Hi%lookup_ge_None. by apply list_insert_ge.
Qed.

Lemma resolve_type_spec (T : EventTypeTable) (make : string → EventType) (nm : string) :
  table_wf T →
  let r := resolve_type T make nm in
  table_wf r.2 ∧
  (∀ ty, r.1 = Own ty → getById r.2 (id ty) = Some ty) ∧
  (∀ i ty, getById T i = Some ty → getById r.2 i = Some ty) ∧
  nextTypeId_ T ≤ nextTypeId_ r.2.
Proof.
  intros Hwf r. subst r. unfold resolve_type.
  destruct (getByName T nm) as [found|] eqn:E; simpl.
  - split; [done|]. split; [|split; [done|lia]].
    intros ty ->. apply obj_get_Own in E. apply (wf_by_name T Hwf _ _ E).
  - split; [by apply table_wf_define|].
    unfold defineType, getById, getByName in *.
    destruct (obj_get (eventsByName_ T) (name (make nm))) as [e|] eqn:E'; simpl.
    + split; [|split; [done|lia]].
      intros ty ->. apply obj_get_Own in E'. apply (wf_by_name T Hwf _ _ E').
    + split; [intros ty [= <-]; by rewrite lookup_insert_eq|]. split; [|lia].
      intros i ty Hi. rewrite lookup_insert_ne; [done|].
      intros <-. assert (is_Some (eventsById_ T !! nextTypeId_ T)) as H%(wf_ids T Hwf) by eauto.
      lia.
Qed.

(** The id of what a name resolves to, if it has one, is in use. *)
Lemma resolve_type_id (T : EventTypeTable) (make : string → EventType) (nm : string)
    (v : Z) :
  table_wf T →
  property_id (resolve_type T make nm).1 = Some v →
  1 ≤ v < nextTypeId_ (resolve_type T make nm).2 ∧
  ∃ ty, (resolve_type T make nm).1 = Own ty ∧ id ty = v.
Proof.
  intros Hwf Hv. destruct (resolve_type_spec T make nm Hwf) as (Hwf' & Hid & _).
  destruct (resolve_type T make nm).1 as [ty|k] eqn:E; [|done].
  injection Hv as <-. split; [|by exists ty].
  apply (wf_ids _ Hwf'). specialize (Hid ty eq_refl). unfold getById in Hid. eauto.
Qed.

(** The type table after an iteration. *)
Lemma step_table f g cnt n s :
  let s' := outcome_state (rescope_step f g cnt n s) in
  r_table s' = r_table s ∨
  ∃ make nm, r_table s' = (resolve_type (r_table s) make nm).2.
Proof. destruct (rescope_step_spec f g cnt n s); simpl; eauto. Qed.

Lemma step_table_wf f g cnt n s :
  table_wf (r_table s) →
  let s' := outcome_state (rescope_step f g cnt n s) in
  table_wf (r_table s') ∧
  (∀ i ty, getById (r_table s) i = Some ty → getById (r_table s') i = Some ty) ∧
  nextTypeId_ (r_table s) ≤ nextTypeId_ (r_table s').
Proof.
  intros Hwf s'. destruct (step_table f g cnt n s) as [E|(make & nm & E)];
    fold s' in E; rewrite E.
  - split; [done|]. split; [done|lia].
  - destruct (resolve_type_spec (r_table s) make nm Hwf) as (? & _ & ? & ?). done.
Qed.

Lemma loop_table_wf f g cnt ns s :
  table_wf (r_table s) →
  let s' := outcome_state (rescope_loop f g cnt ns s) in
  table_wf (r_table s') ∧
  (∀ i ty, getById (r_table s) i = Some ty → getById (r_table s') i = Some ty) ∧
  nextTypeId_ (r_table s) ≤ nextTypeId_ (r_table s').
Proof.
  revert s. induction ns as [|n ns IH]; intros s Hwf; simpl.
  { split; [done|]. split; [done|lia]. }
  destruct (step_table_wf f g cnt n s Hwf) as (Hwf1 & Hinc1 & Hle1).
  destruct (rescope_step f g cnt n s) as [s1|s1]; simpl in *; [|done].
  destruct (IH s1 Hwf1) as (Hwf2 & Hinc2 & Hle2).
  split; [done|]. split; [auto|lia].
Qed.

(** A TYPE cell is written only by the iteration on its record, and only
    when a name is resolved. *)
Lemma step_type_stable f g cnt n s i :
  i ≠ n ∨ (kind_of g (rd s (n * 12 + 1)) ≠ KEnter ∧
           kind_of g (rd s (n * 12 + 1)) ≠ KTimeStamp) →
  rd (outcome_state (rescope_step f g cnt n s)) (i * 12 + 1) = rd s (i * 12 + 1).
Proof.
  intros Hi. destruct (step_writes f g cnt n s) as (ws & Hd & Hws).
  rewrite Forall_forall in Hws. unfold rd at 1. rewrite Hd.
  apply apply_writes_get_other. intros w Hw Hw1.
  destruct (Hws w Hw _ Hw1) as [?|[[? ?]|[(p & Hp & ?)|(p & Hp & ? & _)]]]; try lia.
  destruct Hi as [?|[? ?]]; [lia|]. tauto.
Qed.

(** An ARGUMENTS cell that holds an id keeps it. *)
Lemma step_args_stable f g cnt n s j v :
  j mod 12 = 6 → rd s j = Some v → v ≠ 0 →
  rd (outcome_state (rescope_step f g cnt n s)) j = Some v.
Proof.
  intros Hj Hv Hne. destruct (step_writes f g cnt n s) as (ws & Hd & Hws).
  rewrite Forall_forall in Hws. unfold rd at 1. rewrite Hd, <- Hv.
  apply apply_writes_get_other. intros w Hw Hw1. destruct (mod12 j) as [Hm1 Hm2].
  destruct (Hws w Hw _ Hw1) as [?|[[? ?]|[(p & Hp & ?)|(p & Hp & ? & Htr & _)]]]; try lia.
  rewrite Hv in Htr. simpl in Htr. apply negb_false_iff, Z.eqb_eq in Htr. done.
Qed.

Lemma step_fixed_stable f g cnt n s j :
  j mod 12 = 0 ∨ j mod 12 = 4 →
  rd (outcome_state (rescope_step f g cnt n s)) j = rd s j.
Proof.
  intros Hj. destruct (step_writes f g cnt n s) as (ws & Hd & Hws).
  rewrite Forall_forall in Hws. unfold rd at 1. rewrite Hd.
  apply apply_writes_get_other. intros w Hw Hw1. destruct (mod12 j) as [Hm1 Hm2].
  destruct (Hws w Hw _ Hw1) as [?|[[? ?]|[(p & Hp & ?)|(p & Hp & ? & Htr & _)]]]; lia.
Qed.

Lemma loop_type_stable f g cnt ns s sf i :
  rescope_loop f g cnt ns s = Normal sf → i ∉ ns →
  rd sf (i * 12 + 1) = rd s (i * 12 + 1).
Proof.
  revert s. induction ns as [|n ns IH]; intros s Hloop Hi; simpl in *; [by simplify_eq|].
  apply not_elem_of_cons in Hi as [Hne Hi].
  pose proof (step_type_stable f g cnt n s i (or_introl Hne)) as Hstep.
  destruct (rescope_step f g cnt n s) as [s1|s1]; simpl in *; [|done].
  rewrite (IH s1 Hloop Hi). done.
Qed.

Lemma loop_args_stable f g cnt ns s sf j v :
  rescope_loop f g cnt ns s = Normal sf →
  j mod 12 = 6 → rd s j = Some v → v ≠ 0 → rd sf j = Some v.
Proof.
  revert s. induction ns as [|n ns IH]; intros s Hloop Hj Hv Hne; simpl in *;
    [by simplify_eq|].
  pose proof (step_args_stable f g cnt n s j v Hj Hv Hne) as Hstep.
  destruct (rescope_step f g cnt n s) as [s1|s1]; simpl in *; [|done].
  by apply (IH s1).
Qed.

(** *** The two buffers *)

(** The same write in both passes, to a cell other than TYPE and
    ARGUMENTS. *)
Lemma buf_rel_write n F dx dy c v :
  buf_rel n F dx dy →
  (∀ j, c = Some j → j mod 12 ≠ 1 ∧ j mod 12 ≠ 6) →
  buf_rel n F (ta_set dx c v) (ta_set dy c v).
Proof.
  intros [Hlen Hcells Hfixed Htypes Hargs] Hc.
  destruct c as [i|]; [|by split].
  destruct (Hc i eq_refl) as [Hc1 Hc6].
  split.
  - by rewrite !ta_set_length.
  - intros j. rewrite !ta_get_set, Hlen.
    case_decide; [by left|apply Hcells].
  - intros j Hj. rewrite !ta_get_set, Hlen. case_decide; [done|by apply Hfixed].
  - intros i' Hi'. rewrite ta_get_set_ne; [by apply Htypes|].
    intros [= ->]. apply Hc1. rewrite Z.add_comm, Z_mod_plus_full. done.
  - intros j Hj. rewrite ta_get_set_ne; [by apply Hargs|].
    intros [= ->]. done.
Qed.

Lemma buf_rel_writes n F dx dy ws :
  buf_rel n F dx dy →
  Forall (λ w : num * num, ∀ j, w.1 = Some j → j mod 12 ≠ 1 ∧ j mod 12 ≠ 6) ws →
  buf_rel n F (apply_writes dx ws) (apply_writes dy ws).
Proof.
  intros Hrel Hws. revert dx dy Hrel.
  induction Hws as [|w ws Hw Hws IH]; intros dx dy Hrel; [done|].
  unfold apply_writes. simpl. apply IH. by apply buf_rel_write.
Qed.

(** A write of the first pass alone, to a cell that is final in the
    second. *)
Lemma buf_rel_write_left n F dx dy c v :
  buf_rel n F dx dy →
  (∀ j, c = Some j →
     j mod 12 ≠ 0 ∧ j mod 12 ≠ 4 ∧ ta_get dy (Some j) = ta_get F (Some j)) →
  buf_rel n F (ta_set dx c v) dy.
Proof.
  intros [Hlen Hcells Hfixed Htypes Hargs] Hc.
  destruct c as [i|]; [|by split].
  destruct (Hc i eq_refl) as (Hc0 & Hc4 & HF).
  split; [by rewrite ta_set_length| | |done|done].
  - intros j. destruct (decide (i = j)) as [<-|Hne]; [by right|].
    rewrite ta_get_set_ne by congruence. apply Hcells.
  - intros j Hj. rewrite ta_get_set_ne; [by apply Hfixed|].
    intros [= ->]. lia.
Qed.

Lemma buf_rel_next n F dx dy : buf_rel n F dx dy → buf_rel (n + 1) F dx dy.
Proof.
  intros [Hlen Hcells Hfixed Htypes Hargs]. split; try done.
  intros i Hi. apply Htypes. lia.
Qed.

(** At the end of the first pass the two buffers are the same. *)
Lemma buf_rel_final n F dy : buf_rel n F F dy → dy = F.
Proof.
  intros [Hlen Hcells _ _ _]. apply list_eq. intros i.
  specialize (Hcells (Z.of_nat i)). unfold ta_get in Hcells.
  rewrite (proj2 (Z.leb_le 0 (Z.of_nat i))), Nat2Z.id in Hcells by lia.
  by destruct Hcells.
Qed.

Lemma cell_mod (p k : Z) : 0 ≤ k < 12 → (p * 12 + k) mod 12 = k.
Proof. intros Hk. rewrite Z.add_comm, Z_mod_plus_full. by apply Z.mod_small. Qed.

(** What the second pass reads is what the first reads, or is final. *)
Section Resume.
Context (f : Z) (g : GenericIds) (cnt n : Z) (T1 : EventTypeTable) (F : list Z).
Context (X : Rescope) (dy : list Z) (ay : gmap Z ArgumentData).
Hypothesis Hrel : buf_rel n F (r_eventData X) dy.

Local Abbreviation Y := (resume X dy ay T1).

Lemma resume_fixed j : j mod 12 = 0 ∨ j mod 12 = 4 → rd Y j = rd X j.
Proof. apply (br_fixed _ _ _ _ Hrel). Qed.

Lemma resume_id p : rd Y (p * 12) = rd X (p * 12).
Proof. apply resume_fixed. left. apply Z_mod_mult. Qed.

Lemma resume_time p : rd Y (p * 12 + 4) = rd X (p * 12 + 4).
Proof. apply resume_fixed. right. by apply cell_mod. Qed.

Lemma resume_next_id : next_id cnt n Y = next_id cnt n X.
Proof.
  unfold next_id. case_match; [|done].
  replace (n * 12 + 12) with ((n + 1) * 12) by lia.
  apply resume_id.
Qed.

Lemma resume_prologue : prologue cnt n Y = prologue cnt n X.
Proof. unfold prologue. by rewrite resume_next_id. Qed.

Lemma resume_scope_time :
  ta_get (r_eventData Y) (scope_cell Y 4) = ta_get (r_eventData X) (scope_cell X 4).
Proof.
  change (scope_cell Y 4) with (scope_cell X 4).
  unfold scope_cell. destruct (parent X) as [p|]; [|done]. simpl.
  apply resume_time.
Qed.

Lemma resume_leave_duration : leave_duration n Y = leave_duration n X.
Proof.
  unfold leave_duration. by rewrite resume_scope_time, resume_time.
Qed.

Lemma resume_leave_writes : leave_writes cnt n Y = leave_writes cnt n X.
Proof.
  unfold leave_writes. by rewrite resume_prologue, resume_next_id, resume_time.
Qed.

Lemma resume_childTime_rolled : childTime_rolled n Y = childTime_rolled n X.
Proof. unfold childTime_rolled. by rewrite resume_leave_duration. Qed.

Lemma resume_systemTime_rolled ty :
  systemTime_rolled f n Y ty = systemTime_rolled f n X ty.
Proof. unfold systemTime_rolled. by rewrite resume_leave_duration. Qed.

Lemma resume_type : rd Y (n * 12 + 1) = ta_get F (Some (n * 12 + 1)).
Proof. apply (br_types _ _ _ _ Hrel). lia. Qed.

Lemma resume_args p : rd Y (p * 12 + 6) = ta_get F (Some (p * 12 + 6)).
Proof. apply (br_args _ _ _ _ Hrel). by rewrite cell_mod. Qed.

Lemma prologue_plain :
  Forall (λ w : num * num, ∀ j, w.1 = Some j → j mod 12 ≠ 1 ∧ j mod 12 ≠ 6)
    (prologue cnt n X).
Proof.
  unfold prologue. repeat apply Forall_cons_2; [| | |done];
    simpl; intros j [= <-]; rewrite cell_mod by lia; lia.
Qed.

Lemma leave_plain :
  Forall (λ w : num * num, ∀ j, w.1 = Some j → j mod 12 ≠ 1 ∧ j mod 12 ≠ 6)
    (leave_writes cnt n X).
Proof.
  unfold leave_writes. apply Forall_app_2; [apply prologue_plain|].
  unfold scope_cell. destruct (parent X) as [p|]; simpl;
    repeat apply Forall_cons_2; try done;
    simpl; intros j [= <-]; rewrite cell_mod by lia; lia.
Qed.
End Resume.

Lemma kind_of_Some g t k : kind_of g t = k → k ≠ KOther → is_Some t.
Proof.
  destruct t; [eauto|]. unfold kind_of. simpl. by intros <-.
Qed.


Lemma ta_get_None_len (d d' : list Z) (c : num) :
  length d' = length d → ta_get d c = None → ta_get d' c = None.
Proof.
  intros Hlen. destruct c as [j|]; [|done]. intros Hn.
  apply ta_get_None. intros Hr. rewrite Hlen in Hr.
  destruct (ta_get_is_Some d j Hr) as [v Hv]. congruence.
Qed.

Lemma truthy_Some (a : num) : truthy a = true → ∃ v, a = Some v ∧ v ≠ 0.
Proof.
  destruct a as [v|]; [|done]. simpl. intros Hv%negb_true_iff%Z.eqb_neq. eauto.
Qed.

Lemma store_ok_insert F (ay : gmap Z ArgumentData) k v :
  store_ok F ay → store_ok F (<[k := v]> ay).
Proof.
  intros Hs j w Hj Hw Hne. destruct (decide (k = w)) as [->|Hkw].
  - rewrite lookup_insert_eq. eauto.
  - rewrite lookup_insert_ne by done. by apply (Hs j).
Qed.

(** *** One iteration of the second pass *)

Section StepSim.
Context (f : Z) (g : GenericIds) (cnt n : Z) (T1 : EventTypeTable) (F : list Z).
Context (X X1 : Rescope) (dy : list Z) (ay : gmap Z ArgumentData).
Hypothesis HX : rescope_step f g cnt n X = Normal X1.
Hypothesis Hrel : buf_rel n F (r_eventData X) dy.
Hypothesis Hstore : store_ok F ay.
Hypothesis Hu32 : u32_cells (r_eventData X).
Hypothesis Hwf : table_wf (r_table X).
Hypothesis Hnext : nextTypeId_ (r_table X1) ≤ 2 ^ 32.
Hypothesis Hinc : ∀ i ty, getById (r_table X1) i = Some ty → getById T1 i = Some ty.
Hypothesis HwfT1 : table_wf T1.
Hypothesis Htype : ta_get F (Some (n * 12 + 1)) = rd X1 (n * 12 + 1).
Hypothesis Hkeep : ∀ j v, j mod 12 = 6 → rd X j = Some v → v ≠ 0 →
  ta_get F (Some j) = Some v.
Hypothesis Hkeep1 : ∀ j v, j mod 12 = 6 → rd X1 j = Some v → v ≠ 0 →
  ta_get F (Some j) = Some v.
Hypothesis Hkinds : kinds_ok g T1 F (r_eventData X) n.

Local Abbreviation Y := (resume X dy ay T1).

(** The second pass takes the iteration that corresponds to that of the
    first, and the buffers stay related. *)
Lemma step_sim :
  ∃ dy1 ay1,
    rescope_step f g cnt n Y = Normal (resume X1 dy1 ay1 T1) ∧
    buf_rel (n + 1) F (r_eventData X1) dy1 ∧ store_ok F ay1.
Proof.
  pose proof (rescope_step_spec f g cnt n X) as HS. rewrite HX in HS.
  pose proof (resume_type n T1 F X dy ay Hrel) as HtY.
  pose proof (resume_prologue cnt n T1 F X dy ay Hrel) as HpY.
  pose proof (resume_id n T1 F X dy ay Hrel n) as HidY.
  pose proof (buf_rel_writes n F _ _ _ Hrel (prologue_plain cnt n X)) as Hrel1.
  destruct Hkinds as (Hkenter & Hkstamp & Hkappend).
  assert (HtX : kind_of g (rd X (n * 12 + 1)) ≠ KEnter →
                kind_of g (rd X (n * 12 + 1)) ≠ KTimeStamp →
                rd Y (n * 12 + 1) = rd X (n * 12 + 1)).
  { intros H1 H2. rewrite HtY, Htype.
    pose proof (step_type_stable f g cnt n X n (or_intror (conj H1 H2))) as Hst.
    rewrite HX in Hst. exact Hst. }
  assert (HincX : ∀ t ty, from_option (getById (r_table X)) None t = Some ty →
                    r_table X1 = r_table X →
                    from_option (getById T1) None t = Some ty).
  { intros [t|] ty Hty ET; [|done]. simpl in *. apply Hinc. by rewrite ET. }
  remember (Normal X1) as o eqn:Eo.
  destruct HS as [ |args Hk Ha r|Hk Htop| |ty Hk Htop Hts|Hk Htr
                  |sid this other Hk Hs Hsne Hthis Hother| |
                  |args Hk Ha r| |ty Hk Hty Hcls|ty Hk Hty Hcls]; try discriminate;
    injection Eo as Eo; subst X1;
    change (ta_set (ta_set (ta_set (r_eventData X) (Some (n * 12 + 2)) (parent X))
              (Some (n * 12 + 3)) (Some (stackTop X)))
              (Some (n * 12 + 5)) (next_id cnt n X))
      with (apply_writes (r_eventData X) (prologue cnt n X)) in *.
  - (* a generic scope enter: the second pass finds the type itself *)
    destruct (Hkenter Hk) as (Hk1 & ty & Hty & Hcls).
    destruct (kind_of_Some _ _ _ Hk) as [t0 Ht0]; [done|].
    apply ta_get_Some in Ht0 as Hrange.
    destruct (resolve_type_spec (r_table X) createScope
                (key_of (args_get args "name")) Hwf) as (Hwf' & Hid & _ & _).
    pose proof (λ v, resolve_type_id (r_table X) createScope
                (key_of (args_get args "name")) v Hwf) as Hidr.
    fold r in Hwf', Hid, Hidr.
    change (nextTypeId_ r.2 ≤ 2 ^ 32) in Hnext.
    assert (Hty' : r.1 = Own ty).
    { unfold rd, pushed in Htype. cbn [r_eventData] in Htype.
      rewrite ta_get_set_eq in Htype by (by rewrite apply_writes_length).
      destruct r.1 as [ty0|key] eqn:Er; cbn [property_id] in Htype.
      - destruct (Hidr (id ty0) eq_refl) as [Hr _].
        rewrite ToUint32_small in Htype by lia.
        rewrite Htype in Hty. cbn [from_option] in Hty.
        specialize (Hid ty0 eq_refl). apply Hinc in Hid. congruence.
      - (* the name is one of [Object.prototype]: the TYPE cell is 0,
           which is the id of no type *)
        rewrite Htype in Hty. cbn [from_option ToUint32] in Hty.
        assert (is_Some (eventsById_ T1 !! 0)) as Hs by (by exists ty).
        apply (wf_ids T1 HwfT1) in Hs. lia. }
    rewrite Hty' in *.
    exists (apply_writes dy (prologue cnt n X)), ay.
    split; [|split; [|done]].
    + apply Step_fun. eapply Step_eq.
      * apply (step_other_scope f g cnt n Y ty); [by rewrite HtY|by rewrite HtY|done].
      * rewrite HpY. unfold pushed. rewrite HidY. reflexivity.
    + apply buf_rel_next. unfold pushed. cbn [r_eventData].
      apply buf_rel_write_left; [done|].
      intros j [= <-]. rewrite cell_mod by lia.
      split; [lia|]. split; [lia|]. apply (br_types _ _ _ _ Hrel1). lia.
  - (* a scope leave at depth 1 *)
    exists (apply_writes dy (leave_writes cnt n X)), ay.
    split; [|split; [|done]].
    + apply Step_fun. eapply Step_eq.
      * apply (step_leave_root f g cnt n Y); [|done].
        rewrite HtX; rewrite Hk; done.
      * unfold scope_left. rewrite (resume_leave_writes cnt n T1 F X dy ay Hrel).
        reflexivity.
    + apply buf_rel_next. apply buf_rel_writes; [done|apply leave_plain].
  - (* a scope leave below *)
    exists (apply_writes dy (leave_writes cnt n X)), ay.
    split; [|split; [|done]].
    + apply Step_fun. eapply Step_eq.
      * apply (step_leave f g cnt n Y ty); [|done|done].
        rewrite HtX; rewrite Hk; done.
      * unfold scope_left. rewrite (resume_leave_writes cnt n T1 F X dy ay Hrel).
        rewrite (resume_childTime_rolled n T1 F X dy ay Hrel).
        rewrite (resume_systemTime_rolled f n T1 F X dy ay Hrel).
        reflexivity.
    + apply buf_rel_next. apply buf_rel_writes; [done|apply leave_plain].
  - (* an append while the scope has no arguments *)
    destruct (truthy_Some _ (Hkappend Hk)) as (a & Ha & Hane).
    assert (HkY : kind_of g (rd Y (n * 12 + 1)) = KAppend).
    { rewrite HtX; rewrite Hk; done. }
    destruct (ta_get (r_eventData X) (scope_cell X 6)) as [x|] eqn:Hx.
    + (* the first pass adopts the arguments, the second merges them
         into themselves *)
      assert (Hc : ∃ p, scope_cell X 6 = Some (p * 12 + 6)).
      { unfold scope_cell in *. destruct (parent X) as [p|]; [|done]. by exists p. }
      destruct Hc as [p Hc]. rewrite Hc in *.
      apply ta_get_Some in Hx as Hrange.
      pose proof (ta_get_u32 _ _ _ Hu32 Ha) as Ha32.
      assert (HFp : ta_get F (Some (p * 12 + 6)) = Some a).
      { apply Hkeep1; [by apply cell_mod| |done].
        unfold rd. cbn [r_eventData with_eventData].
        rewrite Ha, ta_get_set_eq by (by rewrite apply_writes_length).
        by rewrite ToUint32_small. }
      assert (HFn : ta_get F (Some (n * 12 + 6)) = Some a).
      { apply Hkeep; [by apply cell_mod|done|done]. }
      destruct (Hstore _ _ (cell_mod p 6 ltac:(lia)) HFp Hane) as [this Hthis].
      exists (apply_writes dy (prologue cnt n X)), (<[a := merge this this]> ay).
      split; [|split; [|by apply store_ok_insert]].
      * apply Step_fun. eapply Step_eq.
        -- apply (step_append_merge f g cnt n Y a this this); [done| |done|done|].
           ++ change (scope_cell Y 6) with (scope_cell X 6). rewrite Hc.
              change (rd Y (p * 12 + 6) = Some a).
              by rewrite (resume_args n T1 F X dy ay Hrel).
           ++ rewrite (resume_args n T1 F X dy ay Hrel), HFn. exact Hthis.
        -- rewrite HpY. reflexivity.
      * apply buf_rel_next. cbn [r_eventData with_eventData].
        apply buf_rel_write_left; [done|].
        intros j [= <-]. rewrite cell_mod by lia.
        split; [lia|]. split; [lia|]. apply (br_args _ _ _ _ Hrel1).
        by apply cell_mod.
    + (* no such cell: neither pass writes *)
      exists (apply_writes dy (prologue cnt n X)), ay.
      split; [|split; [|done]].
      * apply Step_fun. eapply Step_eq.
        -- apply (step_append_adopt f g cnt n Y); [done|].
           change (scope_cell Y 6) with (scope_cell X 6).
           cbn [r_eventData resume].
           by rewrite (ta_get_None_len _ dy _ (br_len _ _ _ _ Hrel) Hx).
        -- rewrite HpY, apply_writes_app. unfold apply_writes at 1.
           cbn [foldl fst snd]. change (scope_cell Y 6) with (scope_cell X 6).
           rewrite ta_set_out; [reflexivity|].
           apply (ta_get_None_len (r_eventData X)); [|done].
           rewrite apply_writes_length. apply (br_len _ _ _ _ Hrel).
      * apply buf_rel_next. cbn [r_eventData with_eventData].
        rewrite ta_set_out; [done|].
        apply (ta_get_None_len (r_eventData X)); [|done].
        by rewrite apply_writes_length.
  - (* an append to a scope with arguments *)
    destruct (truthy_Some _ (Hkappend Hk)) as (a & Ha & Hane).
    assert (HkY : kind_of g (rd Y (n * 12 + 1)) = KAppend).
    { rewrite HtX; rewrite Hk; done. }
    assert (Hc : ∃ p, scope_cell X 6 = Some (p * 12 + 6)).
    { unfold scope_cell in *. destruct (parent X) as [p|]; [|done]. by exists p. }
    destruct Hc as [p Hc]. rewrite Hc in *.
    assert (HFp : ta_get F (Some (p * 12 + 6)) = Some sid).
    { apply Hkeep; [by apply cell_mod|done|done]. }
    assert (HFn : ta_get F (Some (n * 12 + 6)) = Some a).
    { apply Hkeep; [by apply cell_mod|done|done]. }
    destruct (Hstore _ _ (cell_mod p 6 ltac:(lia)) HFp Hsne) as [thisY HthisY].
    destruct (Hstore _ _ (cell_mod n 6 ltac:(lia)) HFn Hane) as [otherY HotherY].
    exists (apply_writes dy (prologue cnt n X)), (<[sid := merge thisY otherY]> ay).
    split; [|split; [|by apply store_ok_insert]].
    + apply Step_fun. eapply Step_eq.
      * apply (step_append_merge f g cnt n Y sid thisY otherY); [done| |done|done|].
        -- change (scope_cell Y 6) with (scope_cell X 6). rewrite Hc.
           change (rd Y (p * 12 + 6) = Some sid).
           by rewrite (resume_args n T1 F X dy ay Hrel).
        -- rewrite (resume_args n T1 F X dy ay Hrel), HFn. exact HotherY.
      * rewrite HpY. reflexivity.
    + by apply buf_rel_next.
  - (* a generic time stamp: the second pass finds the type itself *)
    destruct (Hkstamp Hk) as (Hk1 & ty & Hty & Hcls).
    destruct (kind_of_Some _ _ _ Hk) as [t0 Ht0]; [done|].
    apply ta_get_Some in Ht0 as Hrange.
    destruct (resolve_type_spec (r_table X) createInstance
                (key_of (args_get args "name")) Hwf) as (Hwf' & Hid & _ & _).
    pose proof (λ v, resolve_type_id (r_table X) createInstance
                (key_of (args_get args "name")) v Hwf) as Hidr.
    fold r in Hwf', Hid, Hidr.
    change (nextTypeId_ r.2 ≤ 2 ^ 32) in Hnext.
    assert (Hty' : r.1 = Own ty).
    { unfold rd in Htype. cbn [r_eventData] in Htype.
      rewrite ta_get_set_eq in Htype by (by rewrite apply_writes_length).
      destruct r.1 as [ty0|key] eqn:Er; cbn [property_id] in Htype.
      - destruct (Hidr (id ty0) eq_refl) as [Hr _].
        rewrite ToUint32_small in Htype by lia.
        rewrite Htype in Hty. cbn [from_option] in Hty.
        specialize (Hid ty0 eq_refl). apply Hinc in Hid. congruence.
      - (* the name is one of [Object.prototype]: the TYPE cell is 0,
           which is the id of no type *)
        rewrite Htype in Hty. cbn [from_option ToUint32] in Hty.
        assert (is_Some (eventsById_ T1 !! 0)) as Hs by (by exists ty).
        apply (wf_ids T1 HwfT1) in Hs. lia. }
    rewrite Hty' in *.
    exists (apply_writes dy (prologue cnt n X)), ay.
    split; [|split; [|done]].
    + apply Step_fun. eapply Step_eq.
      * apply (step_other_instance f g cnt n Y ty); [by rewrite HtY|by rewrite HtY|done].
      * rewrite HpY. reflexivity.
    + apply buf_rel_next. cbn [r_eventData].
      apply buf_rel_write_left; [done|].
      intros j [= <-]. rewrite cell_mod by lia.
      split; [lia|]. split; [lia|]. apply (br_types _ _ _ _ Hrel1). lia.
  - (* a record of a scope type *)
    exists (apply_writes dy (prologue cnt n X)), ay.
    split; [|split; [|done]].
    + apply Step_fun. eapply Step_eq.
      * apply (step_other_scope f g cnt n Y ty); [| |done].
        -- rewrite HtX; rewrite Hk; done.
        -- rewrite HtX by (rewrite Hk; done). by apply HincX.
      * rewrite HpY. unfold pushed. rewrite HidY. reflexivity.
    + by apply buf_rel_next.
  - (* a record of an instance type *)
    exists (apply_writes dy (prologue cnt n X)), ay.
    split; [|split; [|done]].
    + apply Step_fun. eapply Step_eq.
      * apply (step_other_instance f g cnt n Y ty); [| |done].
        -- rewrite HtX; rewrite Hk; done.
        -- rewrite HtX by (rewrite Hk; done). by apply HincX.
      * rewrite HpY. reflexivity.
    + by apply buf_rel_next.
Qed.
End StepSim.

(** *** The loop of the second pass *)

Lemma step_u32 f g cnt n s :
  u32_cells (r_eventData s) →
  u32_cells (r_eventData (outcome_state (rescope_step f g cnt n s))).
Proof.
  intros Hu. destruct (step_writes f g cnt n s) as (ws & -> & _).
  by apply apply_writes_u32.
Qed.

Lemma kinds_ok_step f g cnt n T1 F s i :
  i ≠ n → kinds_ok g T1 F (r_eventData s) i →
  kinds_ok g T1 F (r_eventData (outcome_state (rescope_step f g cnt n s))) i.
Proof.
  intros Hi (He & Ht & Ha). unfold kinds_ok.
  pose proof (step_type_stable f g cnt n s i (or_introl Hi)) as Hty.
  unfold rd in Hty. rewrite Hty.
  split; [done|]. split; [done|].
  intros Hk. destruct (truthy_Some _ (Ha Hk)) as (a & Hs & Hne).
  pose proof (step_args_stable f g cnt n s (i * 12 + 6) a) as Hst.
  unfold rd in Hst. rewrite Hst; [|by apply cell_mod|done|done].
  simpl. by apply negb_true_iff, Z.eqb_neq.
Qed.

(** The second pass follows the first through the whole loop. *)
Lemma loop_sim f g cnt T1 F (k : nat) : ∀ n X Xf dy ay,
  rescope_loop f g cnt (seqZ n (Z.of_nat k)) X = Normal Xf →
  F = r_eventData Xf →
  buf_rel n F (r_eventData X) dy →
  store_ok F ay →
  u32_cells (r_eventData X) →
  table_wf (r_table X) →
  nextTypeId_ (r_table Xf) ≤ 2 ^ 32 →
  (∀ i ty, getById (r_table Xf) i = Some ty → getById T1 i = Some ty) →
  table_wf T1 →
  (∀ i, n ≤ i < n + Z.of_nat k → kinds_ok g T1 F (r_eventData X) i) →
  ∃ dyf ayf,
    rescope_loop f g cnt (seqZ n (Z.of_nat k)) (resume X dy ay T1)
    = Normal (resume Xf dyf ayf T1) ∧
    buf_rel (n + Z.of_nat k) F (r_eventData Xf) dyf ∧ store_ok F ayf.
Proof.
  induction k as [|k IH]; intros n X Xf dy ay Hloop HF Hrel Hstore Hu32 Hwf Hnext Hinc HwfT1 Hkinds.
  { simpl in *. injection Hloop as <-. exists dy, ay. rewrite Z.add_0_r. done. }
  subst F.
  rewrite Nat2Z.inj_succ, seqZ_cons, Z.pred_succ in Hloop |- * by lia.
  pose proof (λ j v, loop_args_stable f g cnt _ X Xf j v Hloop) as Hkeep.
  cbn [rescope_loop] in Hloop |- *.
  pose proof (step_table_wf f g cnt n X Hwf) as Htab.
  pose proof (step_u32 f g cnt n X Hu32) as Hu32'.
  pose proof (λ i Hi H, kinds_ok_step f g cnt n T1 (r_eventData Xf) X i Hi H) as Hkinds'.
  destruct (rescope_step f g cnt n X) as [X1|X1] eqn:HX; [|done].
  cbn [bind_outcome outcome_state] in *.
  destruct Htab as (Hwf1 & Hinc1 & Hle1).
  pose proof (loop_table_wf f g cnt (seqZ (Z.succ n) (Z.of_nat k)) X1 Hwf1) as Htab.
  rewrite Hloop in Htab. cbn [outcome_state] in Htab.
  destruct Htab as (Hwff & Hincf & Hlef).
  destruct (step_sim f g cnt n T1 (r_eventData Xf) X X1 dy ay) as (dy1 & ay1 & HY & Hrel1 & Hstore1);
    try done.
  - lia.
  - auto.
  - apply (loop_type_stable f g cnt _ X1 Xf n Hloop).
    rewrite elem_of_seqZ. lia.
  - intros j v Hj Hv Hne.
    by apply (loop_args_stable f g cnt _ X1 Xf j v Hloop).
  - apply Hkinds. lia.
  - rewrite HY. cbn [bind_outcome].
    destruct (IH (Z.succ n) X1 Xf dy1 ay1) as (dyf & ayf & HYf & Hrelf & Hstoref);
      try done.
    + intros i Hi. apply Hkinds'; [lia|]. apply Hkinds. lia.
    + exists dyf, ayf. split; [done|]. split; [|done].
      replace (n + Z.succ (Z.of_nat k)) with (Z.succ n + Z.of_nat k) by lia. done.
Qed.

(** *** Sorting a sorted list *)

Lemma seqZ_sorted (R : relation Z) (m : Z) (k : nat) :
  (∀ i j, m ≤ i → i < j → j < m + Z.of_nat k → R i j) →
  StronglySorted R (seqZ m (Z.of_nat k)).
Proof.
  revert m. induction k as [|k IH]; intros m HR; [constructor|].
  rewrite Nat2Z.inj_succ, seqZ_cons, Z.pred_succ by lia.
  constructor.
  - apply IH. intros i j Hi Hij Hj. apply HR; lia.
  - apply Forall_forall. intros j Hj%elem_of_seqZ. apply HR; lia.
Qed.

Lemma ta_ext (d d' : list Z) :
  length d = length d' →
  (∀ j, 0 ≤ j < Z.of_nat (length d) → ta_get d (Some j) = ta_get d' (Some j)) →
  d = d'.
Proof.
  intros Hlen Hget. apply list_eq. intros i.
  destruct (decide (i < length d)%nat) as [Hi|Hi].
  - specialize (Hget (Z.of_nat i) ltac:(lia)). unfold ta_get in Hget.
    rewrite (proj2 (Z.leb_le 0 (Z.of_nat i))), Nat2Z.id in Hget by lia. done.
  - rewrite !lookup_ge_None_2; [done|lia|lia].
Qed.

Lemma resort_identity (el : EventList) :
  list_wf el →
  (∀ i j, 0 ≤ i → i < j → j < count el →
     field (eventData el) i EventStruct.TIME ≤ field (eventData el) j EventStruct.TIME) →
  eventData (resortEvents_ el) = eventData el.
Proof.
  intros Hwf Hsorted.
  pose proof (resort_wf el Hwf) as Hwf'.
  destruct (resort_fields el) as (Hcnt & Hcap & _).
  pose proof (lwf_count el Hwf) as Hc.
  assert (Hid : ∀ i, 0 ≤ i < count el → field (eventData el) i EventStruct.ID = i).
  { intros i Hi. apply field_get. es. rewrite Z.add_0_r. by apply (lwf_id el Hwf). }
  assert (Hσ : seqZ 0 (count el) = sortIndex (eventData el) (count el)).
  { apply sortIndex_unique; [done|done|].
    rewrite <- (Z2Nat.id (count el)) by lia.
    apply seqZ_sorted. rewrite Z2Nat.id by lia. intros i j Hi Hij Hj.
    unfold sorts_before, compare_events. es. cbv zeta.
    specialize (Hsorted i j Hi Hij Hj).
    pose proof (Hid i ltac:(lia)) as Hi'. pose proof (Hid j ltac:(lia)) as Hj'.
    unfold field in *. es. rewrite Z.add_0_r in Hi', Hj'.
    rewrite Hi', Hj'. case_match; lia. }
  assert (Hlen : length (eventData (resortEvents_ el)) = length (eventData el)).
  { pose proof (lwf_length _ Hwf). pose proof (lwf_length _ Hwf'). lia. }
  apply ta_ext; [done|]. intros j Hj.
  destruct (decide (j < count el * 12)) as [Hin|Hout].
  - destruct (mod12 j) as [Hdiv Hmod].
    assert (Hn : 0 ≤ j / 12 < count el) by lia.
    assert (Hlook : sortIndex (eventData el) (count el) !! Z.to_nat (j / 12)
                    = Some (j / 12)).
    { rewrite <- Hσ. rewrite lookup_seqZ. split; lia. }
    pose proof (resort_record el (Z.to_nat (j / 12)) (j / 12) (j mod 12) Hwf Hlook Hmod)
      as Hrec.
    rewrite Z2Nat.id in Hrec by lia.
    replace (j / 12 * 12 + j mod 12) with j in Hrec by lia.
    rewrite Hrec. case_decide as Hk; [|done].
    rewrite <- (lwf_id el Hwf (j / 12) Hn). f_equal. f_equal. lia.
  - destruct (ta_get_is_Some (eventData (resortEvents_ el)) j) as [v Hv]; [done|].
    destruct (ta_get_is_Some (eventData el) j) as [v' Hv']; [lia|].
    rewrite Hv, Hv'. f_equal.
    rewrite (lwf_slack _ Hwf' j v), (lwf_slack _ Hwf j v'); try done; lia.
Qed.

(** The rebuilt list is sorted by time. *)
Lemma rescope_resort_sorted f (el : EventList) :
  list_wf el →
  let d' := eventData (outcome_state (rescopeEvents_ f (resortEvents_ el))) in
  ∀ i j, 0 ≤ i → i < j → j < count el →
    field d' i EventStruct.TIME ≤ field d' j EventStruct.TIME.
Proof.
  intros Hwf d' i j Hi Hij Hj.
  set (d := eventData el) in *.
  pose proof (resort_wf el Hwf) as Hwf'.
  pose proof (sortIndex_time_then_index el Hwf) as Hsorted.
  pose proof (sortIndex_length d (count el)) as Hlen.
  pose proof (lwf_count el Hwf) as Hc.
  assert (Hrec : ∀ (n : nat) a, sortIndex d (count el) !! n = Some a →
    ta_get d' (Some (Z.of_nat n * 12 + 4)) = ta_get d (Some (a * 12 + 4))).
  { intros n a Ha. subst d'.
    rewrite rescope_keeps_id_time; [|done|right; by apply cell_mod].
    by rewrite (resort_record el n a 4 Hwf Ha) by lia. }
  destruct (lookup_lt_is_Some_2 (sortIndex d (count el)) (Z.to_nat i)) as [a Ha]; [lia|].
  destruct (lookup_lt_is_Some_2 (sortIndex d (count el)) (Z.to_nat j)) as [b Hb]; [lia|].
  pose proof (Hrec _ _ Ha) as Hta. pose proof (Hrec _ _ Hb) as Htb.
  rewrite Z2Nat.id in Hta, Htb by lia.
  assert (Hab : time_then_index d a b).
  { apply (StronglySorted_lookup _ _ _ _ _ _ Hsorted Ha Hb). lia. }
  unfold time_then_index in Hab. unfold field, cell in *. es.
  rewrite Hta, Htb. lia.
Qed.

(** The type table of a reachable list keeps its invariant. *)
Lemma list_reachable_table_wf (el : EventList) :
  list_reachable el → table_wf (eventTypeTable el).
Proof.
  induction 1 as [T HT|el ty time args Hel IH Hc|flag el Hel IH|el ty Hel IH].
  - by apply table_reachable_wf.
  - by rewrite insert_table.
  - destruct (rescope_fields flag (resortEvents_ el)) as (_ & _ & _ & _ & _ & ->).
    apply loop_table_wf. cbn [r_table rescope_init].
    destruct (resort_fields el) as (_ & _ & -> & _). done.
  - cbn [eventTypeTable with_table]. by apply table_wf_define.
Qed.

(** *** The claim on a second rebuild *)

(** The argument ids in the buffer of a list name bags of its table. *)
Lemma list_wf_store_ok (el : EventList) :
  list_wf el → store_ok (eventData el) (argumentData_ el).
Proof.
  intros Hwf j v Hj Hv Hne.
  pose proof (ta_get_u32 _ _ _ (lwf_cells el Hwf) Hv) as Hv32.
  pose proof (ta_get_Some _ _ _ Hv) as Hrange.
  destruct (decide (count el * 12 ≤ j)) as [Hout|Hin].
  { by destruct Hne; apply (lwf_slack el Hwf j v). }
  destruct (mod12 j) as [Hdiv Hmod].
  assert (Hi : 0 ≤ j / 12 < count el) by lia.
  apply (lwf_args_dom el Hwf).
  pose proof (lwf_args_cell el Hwf (j / 12) v Hi) as Hlt.
  replace (j / 12 * 12 + 6) with j in Hlt by lia.
  specialize (Hlt Hv). lia.
Qed.

(** C6, as the code has it: a generic scope enter names the instance type
    [X]; the first rebuild gives the record the type [X] and opens a scope
    for it, the second takes it for an instance, and the event after it is
    at depth 1 after the first rebuild and at depth 0 after the second. *)
Lemma rebuild_not_idempotent :
  let el := insert_all (new_EventList (example_table 0)) name_collision_events in
  let r1 := outcome_state (rebuild 4 el ([] : list FrameList)) in
  let r2 := outcome_state (rebuild 4 r1.1 r1.2) in
  rebuild 4 el ([] : list FrameList) = Normal r1 ∧
  rebuild 4 r1.1 r1.2 = Normal r2 ∧
  field (eventData r1.1) 1 EventStruct.DEPTH = 1 ∧
  field (eventData r2.1) 1 EventStruct.DEPTH = 0 ∧
  eventData r2.1 ≠ eventData r1.1.
Proof.
  intros el r1 r2.
  assert (H1 : field (eventData r1.1) 1 EventStruct.DEPTH = 1)
    by (vm_compute; reflexivity).
  assert (H2 : field (eventData r2.1) 1 EventStruct.DEPTH = 0)
    by (vm_compute; reflexivity).
  split; [vm_compute; reflexivity|]. split; [vm_compute; reflexivity|].
  split; [exact H1|]. split; [exact H2|].
  intros Heq.
  pose proof (f_equal (λ d, field d 1 EventStruct.DEPTH) Heq) as Hd.
  vm_compute in Hd. discriminate.
Qed.

(** A generic time stamp named [toString]: the first rebuild finds the
    function that every object inherits under that name, defines no type
    and stores 0, the id of no type, as the TYPE of the record; the second
    rebuild finds no type for the record and throws. *)
Lemma rebuild_inherited_name :
  let el := insert_all (new_EventList (example_table 0)) inherited_name_events in
  let r1 := outcome_state (rebuild 4 el ([] : list FrameList)) in
  rebuild 4 el ([] : list FrameList) = Normal r1 ∧
  field (eventData r1.1) 0 EventStruct.TYPE = 0 ∧
  eventTypeTable r1.1 = eventTypeTable el ∧
  getById (eventTypeTable r1.1) 0 = None ∧
  rebuild 4 r1.1 r1.2 = Throw (outcome_state (rebuild 4 r1.1 r1.2)).
Proof.
  intros el r1.
  split; [vm_compute; reflexivity|]. split; [vm_compute; reflexivity|].
  split; [vm_compute; reflexivity|]. split; vm_compute; reflexivity.
Qed.

(** C6, amended: a second rebuild returns and leaves the buffer as the
    first rebuild left it, when the first rebuild has returned and every
    record is taken by the second as it was by the first: the TYPE that
    the first has stored for a generic scope enter is the id of a scope
    type, that for a generic time stamp the id of a type that is not one,
    none of them is generic, and every append of scope data has
    arguments. *)
Theorem rebuild_idempotent {L} `{IAncillaryList L} (EventFlag_SYSTEM_TIME : Z)
    (el el1 : EventList) (lists lists1 : list L) :
  list_reachable el →
  rebuild EventFlag_SYSTEM_TIME el lists = Normal (el1, lists1) →
  rebuild_keeps_kinds el el1 →
  ∃ el2 lists2,
    rebuild EventFlag_SYSTEM_TIME el1 lists1 = Normal (el2, lists2) ∧
    eventData el2 = eventData el1 ∧
    eventTypeTable el2 = eventTypeTable el1.
Proof.
  intros Hreach Hreb (Hids & Hbound & Hkinds).
  set (f := EventFlag_SYSTEM_TIME) in *.
  pose proof (list_reachable_wf el Hreach) as Hwf.
  pose proof (list_reachable_table_wf el Hreach) as HT.
  pose proof (resort_wf el Hwf) as Hwf0.
  pose proof (lwf_count el Hwf) as Hcnt.
  destruct (resort_fields el) as (Hc0 & Hcap0 & HT0 & HA0 & HN0).
  assert (Hres : rescopeEvents_ f (resortEvents_ el) = Normal el1).
  { unfold rebuild in Hreb. destruct (rescopeEvents_ f (resortEvents_ el)); [|done].
    by injection Hreb as -> _. }
  pose proof (rescope_wf f (resortEvents_ el) Hwf0) as Hwf1.
  pose proof (rescope_resort_sorted f el Hwf) as Hsorted.
  pose proof (λ j, rescope_keeps_id_time f (resortEvents_ el) j Hwf0) as Hfixed.
  pose proof (rescope_fields f (resortEvents_ el)) as Hf.
  cbv zeta in Hsorted, Hf. rewrite Hres in Hwf1, Hsorted, Hfixed, Hf.
  pose proof Hres as Hloop. unfold rescopeEvents_ in Hloop.
  destruct (rescope_loop _ _ _ _ _) as [Xf|Xf] eqn:Hl in Hloop; [|done].
  clear Hloop. rewrite Hl in Hf. cbn [outcome_state] in *.
  destruct Hf as (Hc1 & Hcap1 & HN1 & Hd1 & HA1 & HT1).
  rewrite Hc0, HT0 in Hl. rewrite Hc0 in Hc1.
  assert (Hid : eventData (resortEvents_ el1) = eventData el1).
  { apply resort_identity; [done|]. rewrite Hc1. exact Hsorted. }
  destruct (resort_fields el1) as (Hc2 & Hcap2 & HT2 & HA2 & HN2).
  assert (Hinit : rescope_init (resortEvents_ el1)
                  = resume (rescope_init (resortEvents_ el)) (eventData el1)
                      (argumentData_ el1) (eventTypeTable el1)).
  { unfold rescope_init, resume. cbn [stack typeStack childTimeStack systemTimeStack
      stackTop stackMax]. by rewrite Hid, HT2, HA2. }
  assert (HwfT1 : table_wf (eventTypeTable el1)).
  { pose proof (list_reachable_table_wf _ (lreach_rebuild f el Hreach)) as HT'.
    by rewrite Hres in HT'. }
  rewrite <- (Z2Nat.id (count el)) in Hl by lia.
  destruct (loop_sim f (generic_ids (eventTypeTable el)) (Z.of_nat (Z.to_nat (count el)))
              (eventTypeTable el1) (eventData el1) (Z.to_nat (count el)) 0
              (rescope_init (resortEvents_ el)) Xf (eventData el1) (argumentData_ el1))
    as (dyf & ayf & HY & Hrel & _); try done.
  - split; [|by right|exact Hfixed|done|done].
    pose proof (lwf_length _ Hwf0). pose proof (lwf_length _ Hwf1).
    cbn [r_eventData rescope_init]. lia.
  - by apply list_wf_store_ok.
  - apply (lwf_cells _ Hwf0).
  - cbn [r_table rescope_init]. by rewrite HT0.
  - by rewrite <- HT1.
  - intros i ty. by rewrite <- HT1.
  - intros i Hi. cbn [r_eventData rescope_init]. apply Hkinds. lia.
  - assert (Hdy : dyf = eventData el1).
    { apply (buf_rel_final (0 + Z.of_nat (Z.to_nat (count el)))).
      by rewrite Hd1 in Hrel |- *. }
    rewrite Z2Nat.id in HY by lia.
    unfold rebuild, rescopeEvents_.
    rewrite Hc2, HT2, Hinit, Hids, Hc1, HY.
    eexists _, _. split; [reflexivity|]. by split.
Qed.

(** C6, witness: scenario S2 of the spec. *)
Lemma rebuild_idempotent_witness :
  let el := insert_all (new_EventList (example_table 0)) out_of_order_events in
  let el1 := (outcome_state (rebuild 4 el ([] : list FrameList))).1 in
  ∃ el2 lists2,
    rebuild 4 el1 ([] : list FrameList) = Normal (el2, lists2) ∧
    eventData el2 = eventData el1 ∧
    eventTypeTable el2 = eventTypeTable el1.
Proof.
  intros el el1.
  apply (rebuild_idempotent 4 el el1 [] []).
  - apply insert_all_reachable; [|by vm_compute].
    apply lreach_new, example_table_reachable.
  - vm_compute. reflexivity.
  - split; [vm_compute; reflexivity|]. split; [vm_compute; discriminate|].
    assert (Hc : count el = 4) by (vm_compute; reflexivity).
    intros i Hi.
    assert (Hcases : i = 0 ∨ i = 1 ∨ i = 2 ∨ i = 3) by lia.
    destruct Hcases as [-> | [-> | [-> | ->]]]; vm_compute.
    all: split; [|split]; try (intros Hk; discriminate Hk).
    all: intros _; (split; [reflexivity|]); eexists; split; reflexivity.
Defined.

(** * More of the event list and its iterators *)

(** ** The iterators a list hands out *)

Lemma getEvent_fields (el : EventList) (i : Z) :
  0 ≤ i →
  eventList_ (getEvent el i) = el ∧ index_ (getEvent el i) = i ∧
  lastIndex_ (getEvent el i) = i ∧ offset_ (getEvent el i) = i * 12.
Proof.
  intros Hi. unfold getEvent, new_EventIterator, seek. cbn [lastIndex_].
  destruct (Z.ltb_spec i 0); [lia|].
  destruct (Z.gtb_spec i i); [lia|]. done.
Qed.

Lemma it_cell_get (it : EventIterator) (f v : Z) :
  ta_get (eventData (eventList_ it)) (Some (offset_ it + f)) = Some v →
  it_cell it f = v.
Proof. unfold it_cell, cell. by intros ->. Qed.

Lemma list_wf_record (el : EventList) (j : Z) :
  list_wf el → 0 ≤ j < count el * 12 → is_Some (ta_get (eventData el) (Some j)).
Proof.
  intros Hwf Hj. apply ta_get_is_Some.
  pose proof (lwf_length el Hwf). destruct (lwf_room el Hwf); lia.
Qed.

(** X1. Every list that inserts and rebuilds make of an empty one has room
    for one more record in a buffer of 12 cells per record of capacity,
    numbers its records by position, is zero behind the last record, and
    has an argument bag for every record whose ARGUMENTS cell is not 0. *)
Theorem reachable_list_invariant (el : EventList) :
  list_reachable el →
  0 ≤ count el ∧
  (count el < capacity_ el ∨ (count el = 0 ∧ capacity_ el = 0)) ∧
  Z.of_nat (length (eventData el)) = capacity_ el * EventStruct.STRUCT_SIZE ∧
  (∀ i, 0 ≤ i < count el → getId (getEvent el i) = i) ∧
  (∀ i, 0 ≤ i < count el →
     getArguments (getEvent el i) = None ↔
     it_cell (getEvent el i) EventStruct.ARGUMENTS = 0) ∧
  (∀ j, count el * 12 ≤ j < capacity_ el * 12 →
     ta_get (eventData el) (Some j) = Some 0).
Proof.
  intros Hwf%list_reachable_wf.
  pose proof (lwf_count el Hwf) as Hc. pose proof (lwf_length el Hwf) as Hlen.
  split; [lia|]. split; [apply Hwf|]. split; [es; lia|].
  split; [|split].
  - intros i Hi. destruct (getEvent_fields el i) as (He & _ & _ & Ho); [lia|].
    apply it_cell_get. rewrite He, Ho. es. rewrite Z.add_0_r.
    by apply (lwf_id el Hwf).
  - intros i Hi. destruct (getEvent_fields el i) as (He & _ & _ & Ho); [lia|].
    destruct (list_wf_record el (i * 12 + 6) Hwf) as [a Ha]; [lia|].
    unfold getArguments.
    rewrite (it_cell_get (getEvent el i) EventStruct.ARGUMENTS a)
      by (rewrite He, Ho; exact Ha).
    destruct (Z.eqb_spec a 0) as [->|Hne]; [done|].
    split; [|done]. intros Hnone. exfalso.
    pose proof (lwf_args_cell el Hwf i a Hi Ha).
    pose proof (ta_get_u32 _ _ _ (lwf_cells el Hwf) Ha).
    assert (Hdom : is_Some (argumentData_ el !! a)) by (apply (lwf_args_dom el Hwf); lia).
    unfold getArgumentData in Hnone. rewrite He in Hnone.
    destruct Hdom as [x Hx]. congruence.
  - intros j Hj. destruct (ta_get_is_Some (eventData el) j) as [v Hv]; [lia|].
    rewrite Hv. f_equal. apply (lwf_slack el Hwf j v); [lia|done].
Qed.

(** X1, witness: two inserts into an empty list. *)
Lemma reachable_list_invariant_witness :
  let el := insert_all (new_EventList (example_table 0)) three_instants in
  count el < capacity_ el ∨ (count el = 0 ∧ capacity_ el = 0).
Proof.
  intros el.
  assert (Hel : list_reachable el).
  { apply insert_all_reachable; [|vm_compute; reflexivity].
    apply lreach_new, example_table_reachable. }
  apply (reachable_list_invariant el Hel).
Defined.

(** ** What a rebuild keeps of the records *)

Lemma rescope_keeps_cell f (el : EventList) (j : Z) :
  list_wf el →
  j mod 12 = 0 ∨ j mod 12 = 4 ∨ j mod 12 = 7 ∨ j mod 12 = 8 ∨ count el * 12 ≤ j →
  ta_get (eventData (outcome_state (rescopeEvents_ f el))) (Some j)
  = ta_get (eventData el) (Some j).
Proof.
  intros Hwf Hj.
  destruct (rescope_fields f el) as (_ & _ & _ & -> & _).
  by apply (ri_frame el _ (rescope_loop_inv f (generic_ids (eventTypeTable el)) el
    (seqZ 0 (count el)) (rescope_init el) Hwf (rescope_init_inv el Hwf)
    (seqZ_bounds (count el)))).
Qed.

Lemma loop_args_kept f g cnt ns s j v :
  j mod 12 = 6 → rd s j = Some v → v ≠ 0 →
  rd (outcome_state (rescope_loop f g cnt ns s)) j = Some v.
Proof.
  revert s. induction ns as [|n ns IH]; intros s Hj Hv Hne; simpl; [done|].
  pose proof (step_args_stable f g cnt n s j v Hj Hv Hne) as Hstep.
  destruct (rescope_step f g cnt n s) as [s1|s1]; simpl in *; [|done].
  by apply IH.
Qed.

(** A TYPE cell that is not that of a generic scope enter or time stamp
    is kept by the re-scope pass, whether it returns or throws. *)
Lemma loop_type_kept f g cnt ns s i :
  kind_of g (rd s (i * 12 + 1)) ≠ KEnter →
  kind_of g (rd s (i * 12 + 1)) ≠ KTimeStamp →
  rd (outcome_state (rescope_loop f g cnt ns s)) (i * 12 + 1) = rd s (i * 12 + 1).
Proof.
  revert s. induction ns as [|n ns IH]; intros s H1 H2; simpl; [done|].
  assert (Hstep : rd (outcome_state (rescope_step f g cnt n s)) (i * 12 + 1)
                  = rd s (i * 12 + 1)).
  { apply step_type_stable.
    destruct (decide (i = n)) as [->|Hne]; [right; by split | by left]. }
  destruct (rescope_step f g cnt n s) as [s1|s1]; simpl in *; [|done].
  rewrite IH; [done | by rewrite Hstep | by rewrite Hstep].
Qed.

Lemma kind_of_other_ids (g : GenericIds) (t : Z) :
  t ≠ scopeEnterId g → t ≠ timeStampId g →
  kind_of g (Some t) ≠ KEnter ∧ kind_of g (Some t) ≠ KTimeStamp.
Proof.
  intros H1 H2. unfold kind_of. cbn [num_eqb].
  destruct (Z.eqb_spec t (scopeEnterId g)); [done|].
  destruct (Z.eqb_spec t (scopeLeaveId g)); [done|].
  destruct (Z.eqb_spec t (appendScopeDataId g)); [done|].
  destruct (Z.eqb_spec t (timeStampId g)); done.
Qed.

(** ** The order of the records after a rebuild *)

(** C1. After [rebuild] of a list a program can build, whether it returns
    or throws, the records are the old records in the order [σ] of their
    TIME and, at equal times, of their old position, which is their old ID
    and the order of insertion.  The comparator of the code leaves the
    sort no other order.  The sort pass moves the old record [σ n] as a
    whole to position [n] and gives it the ID [n]; after the re-scope pass
    record [n] still has the ID [n] and the TIME, VALUE and TAG of the old
    record [σ n], its TYPE unless that is the generic scope enter or time
    stamp, and its ARGUMENTS if it has any. *)
Theorem rebuild_sorts {L} `{IAncillaryList L} (EventFlag_SYSTEM_TIME : Z)
    (el : EventList) (lists : list L) :
  list_reachable el →
  let d := eventData el in
  let d0 := eventData (resortEvents_ el) in
  let d' := eventData (outcome_state (rebuild EventFlag_SYSTEM_TIME el lists)).1 in
  let g := generic_ids (eventTypeTable el) in
  ∃ σ : list Z,
    σ ≡ₚ seqZ 0 (count el) ∧
    StronglySorted (time_then_index d) σ ∧
    (∀ σ', σ' ≡ₚ seqZ 0 (count el) → StronglySorted (sorts_before d) σ' → σ' = σ) ∧
    (∀ a, a ∈ σ → field d a EventStruct.ID = a) ∧
    (∀ (n : nat) a, σ !! n = Some a →
       ta_get d0 (Some (Z.of_nat n * 12 + EventStruct.ID)) = Some (Z.of_nat n) ∧
       (∀ k, 1 ≤ k < 12 →
          ta_get d0 (Some (Z.of_nat n * 12 + k)) = ta_get d (Some (a * 12 + k))) ∧
       ta_get d' (Some (Z.of_nat n * 12 + EventStruct.ID)) = Some (Z.of_nat n) ∧
       (∀ k, k = EventStruct.TIME ∨ k = EventStruct.VALUE ∨ k = EventStruct.TAG →
          ta_get d' (Some (Z.of_nat n * 12 + k)) = ta_get d (Some (a * 12 + k))) ∧
       (∀ t, ta_get d (Some (a * 12 + EventStruct.TYPE)) = Some t →
          t ≠ scopeEnterId g → t ≠ timeStampId g →
          ta_get d' (Some (Z.of_nat n * 12 + EventStruct.TYPE)) = Some t) ∧
       (∀ v, ta_get d (Some (a * 12 + EventStruct.ARGUMENTS)) = Some v → v ≠ 0 →
          ta_get d' (Some (Z.of_nat n * 12 + EventStruct.ARGUMENTS)) = Some v)) ∧
    (∀ i, 0 ≤ i < count el → field d' i EventStruct.ID = i) ∧
    (∀ i j, 0 ≤ i → i < j → j < count el →
       field d' i EventStruct.TIME ≤ field d' j EventStruct.TIME).
Proof.
  intros Hwf%list_reachable_wf d d0 d' g. subst d d0 g.
  set (d := eventData el) in *.
  set (f := EventFlag_SYSTEM_TIME) in *.
  pose proof (resort_wf el Hwf) as Hwf'.
  pose proof (sortIndex_time_then_index el Hwf) as Hsorted.
  pose proof (lwf_count el Hwf) as Hc.
  destruct (resort_fields el) as (Hc0 & _ & HT0 & _).
  assert (Hd' : d' = r_eventData (outcome_state
            (rescope_loop f (generic_ids (eventTypeTable el)) (count el)
               (seqZ 0 (count el)) (rescope_init (resortEvents_ el))))).
  { subst d'. rewrite rebuild_list.
    destruct (rescope_fields f (resortEvents_ el)) as (_ & _ & _ & -> & _).
    by rewrite Hc0, HT0. }
  assert (Hid : ∀ i, 0 ≤ i < count el → field d i EventStruct.ID = i).
  { intros i Hi. apply field_get. es. rewrite Z.add_0_r. by apply (lwf_id el Hwf). }
  exists (sortIndex d (count el)).
  split; [apply sortIndex_perm|]. split; [done|].
  split; [|split; [|split; [|split]]].
  - intros σ' Hperm Hs. by apply sortIndex_unique.
  - intros a Ha%sortIndex_elem. by apply Hid.
  - intros n a Ha.
    assert (Hkept : ∀ k, k = 0 ∨ k = 4 ∨ k = 7 ∨ k = 8 →
      ta_get d' (Some (Z.of_nat n * 12 + k))
      = ta_get (eventData (resortEvents_ el)) (Some (Z.of_nat n * 12 + k))).
    { intros k Hk. subst d'. rewrite rebuild_list.
      apply rescope_keeps_cell; [done|]. rewrite cell_mod by lia. lia. }
    split; [|split; [|split; [|split; [|split]]]].
    + es. by rewrite (resort_record el n a 0 Hwf Ha) by lia.
    + intros k Hk. rewrite (resort_record el n a k Hwf Ha) by lia.
      case_decide; [lia|done].
    + es. rewrite (Hkept 0) by lia.
      by rewrite (resort_record el n a 0 Hwf Ha) by lia.
    + intros k Hk. rewrite Hkept by (es; lia).
      rewrite (resort_record el n a k Hwf Ha) by (es; lia).
      case_decide; [|done]. es. lia.
    + intros t Ht H1 H2. rewrite Hd'. es.
      pose proof (resort_record el n a 1 Hwf Ha ltac:(lia)) as Hrec.
      rewrite decide_False in Hrec by lia. fold d in Hrec. es.
      rewrite Ht in Hrec.
      destruct (kind_of_other_ids _ t H1 H2) as [Hk1 Hk2].
      change (rd (outcome_state
                (rescope_loop f (generic_ids (eventTypeTable el)) (count el)
                   (seqZ 0 (count el)) (rescope_init (resortEvents_ el))))
                (Z.of_nat n * 12 + 1) = Some t).
      rewrite loop_type_kept; unfold rd; cbn [r_eventData rescope_init];
        by rewrite Hrec.
    + intros v Hv Hne. rewrite Hd'. es.
      apply (loop_args_kept f _ _ _ _ (Z.of_nat n * 12 + 6) v); [by apply cell_mod| |done].
      unfold rd. cbn [r_eventData rescope_init].
      by rewrite (resort_record el n a 6 Hwf Ha) by lia.
  - intros i Hi.
    destruct (lookup_lt_is_Some_2 (sortIndex d (count el)) (Z.to_nat i)) as [a Ha].
    { pose proof (sortIndex_length d (count el)). lia. }
    apply field_get. subst d'. rewrite rebuild_list.
    rewrite rescope_keeps_cell; [|done|left; apply cell_mod; es; lia].
    pose proof (resort_record el (Z.to_nat i) a 0 Hwf Ha ltac:(lia)) as Hrec.
    rewrite Z2Nat.id in Hrec by lia. rewrite decide_True in Hrec by done.
    exact Hrec.
  - subst d'. rewrite rebuild_list. apply (rescope_resort_sorted f el Hwf).
Qed.

(** C1, witness: two events at the same time stay in the order of their
    insertion, behind the earlier event that was inserted last. *)
Lemma rebuild_sorts_witness :
  let el := insert_all (new_EventList (example_table 0)) tied_events in
  let d' := eventData (outcome_state (rebuild 4 el ([] : list FrameList))).1 in
  ta_get d' (Some (1 * 12 + EventStruct.ARGUMENTS)) = Some 1 ∧
  ta_get d' (Some (2 * 12 + EventStruct.ARGUMENTS)) = Some 2 ∧
  ta_get d' (Some (0 * 12 + EventStruct.TYPE)) = Some 5 ∧
  field d' 1 EventStruct.TIME ≤ field d' 2 EventStruct.TIME.
Proof.
  intros el d'.
  assert (Hel : list_reachable el).
  { apply insert_all_reachable; [apply lreach_new, example_table_reachable|].
    vm_compute. reflexivity. }
  destruct (rebuild_sorts 4 el ([] : list FrameList) Hel)
    as (σ & _ & _ & Huniq & _ & Hrec & _ & Hle).
  assert (Hσ : [2; 0; 1] = σ).
  { assert (Hc : seqZ 0 (count el) = [0; 1; 2]) by (vm_compute; reflexivity).
    apply Huniq; [rewrite Hc; apply (Permutation_cons_append [0; 1] 2)|].
    repeat constructor; vm_compute; intros Hgt; discriminate Hgt. }
  subst σ.
  destruct (Hrec 0%nat 2 eq_refl) as (_ & _ & _ & _ & Hty0 & _).
  destruct (Hrec 1%nat 0 eq_refl) as (_ & _ & _ & _ & _ & Ha1).
  destruct (Hrec 2%nat 1 eq_refl) as (_ & _ & _ & _ & _ & Ha2).
  split; [apply Ha1; [vm_compute; reflexivity|discriminate]|].
  split; [apply Ha2; [vm_compute; reflexivity|discriminate]|].
  split.
  - apply Hty0; [vm_compute; reflexivity| |]; vm_compute; discriminate.
  - apply Hle; vm_compute; [discriminate|reflexivity|reflexivity].
Defined.



(** ** The first event time *)

Lemma resort_first_time (el : EventList) :
  0 ≤ count el →
  firstEventTime_ (resortEvents_ el)
  = if count el =? 0 then 0%Q
    else (cell (eventData (resortEvents_ el)) 4 # 1000)%Q.
Proof.
  intros Hc. rewrite resort_eventData. unfold resortEvents_.
  destruct (count el =? 0) eqn:E; [done|].
  cbn [firstEventTime_]. unfold getTime, it_cell, new_EventIterator, seek.
  cbn [lastIndex_ eventList_ offset_ eventData].
  apply Z.eqb_neq in E.
  destruct (Z.ltb_spec 0 0); [lia|].
  destruct (Z.gtb_spec 0 (count el - 1)); [lia|]. done.
Qed.

Lemma resort_empty_times (el : EventList) :
  count el = 0 →
  firstEventTime_ (resortEvents_ el) = 0%Q ∧ lastEventTime_ (resortEvents_ el) = 0%Q.
Proof. intros Hc. unfold resortEvents_. by rewrite Hc. Qed.

Lemma rescope_keeps_times f (el : EventList) :
  firstEventTime_ (outcome_state (rescopeEvents_ f el)) = firstEventTime_ el ∧
  lastEventTime_ (outcome_state (rescopeEvents_ f el)) = lastEventTime_ el.
Proof. unfold rescopeEvents_. by destruct (rescope_loop _ _ _ _ _). Qed.

(** X3. After a rebuild, whether it returned or threw, the first event
    time is the time of record 0 and no record is earlier; it is 0, as is
    the last event time, when the list is empty. *)
Theorem first_event_time_is_least {L} `{IAncillaryList L} (EventFlag_SYSTEM_TIME : Z)
    (el : EventList) (lists : list L) :
  list_reachable el →
  let el' := (outcome_state (rebuild EventFlag_SYSTEM_TIME el lists)).1 in
  (count el = 0 →
     getFirstEventTime el' = 0%Q ∧ getLastEventTime el' = 0%Q) ∧
  (0 < count el →
     getFirstEventTime el' = getTime (getEvent el' 0) ∧
     ∀ i, 0 ≤ i < count el →
       (getFirstEventTime el' <= getTime (getEvent el' i))%Q).
Proof.
  intros Hwf%list_reachable_wf el'. subst el'. rewrite rebuild_list.
  set (f := EventFlag_SYSTEM_TIME).
  pose proof (resort_wf el Hwf) as Hwf0.
  pose proof (lwf_count el Hwf) as Hc.
  destruct (rescope_keeps_times f (resortEvents_ el)) as [Hfirst Hlast].
  unfold getFirstEventTime, getLastEventTime. rewrite Hfirst, Hlast.
  split; [apply resort_empty_times|].
  intros Hpos.
  assert (Htime : ∀ i, 0 ≤ i →
    getTime (getEvent (outcome_state (rescopeEvents_ f (resortEvents_ el))) i)
    = (field (eventData (outcome_state (rescopeEvents_ f (resortEvents_ el)))) i
         EventStruct.TIME # 1000)%Q).
  { intros i Hi. destruct (getEvent_fields (outcome_state
      (rescopeEvents_ f (resortEvents_ el))) i Hi) as (He & _ & _ & Ho).
    unfold getTime, it_cell, field. rewrite He, Ho. done. }
  assert (H0 : firstEventTime_ (resortEvents_ el)
    = (field (eventData (outcome_state (rescopeEvents_ f (resortEvents_ el)))) 0
         EventStruct.TIME # 1000)%Q).
  { rewrite resort_first_time by lia.
    destruct (Z.eqb_spec (count el) 0); [lia|].
    unfold field, cell. es.
    rewrite (rescope_keeps_id_time f (resortEvents_ el) (0 * 12 + 4) Hwf0); [done|].
    by right. }
  split; [by rewrite Htime, H0|].
  intros i Hi. rewrite Htime, H0 by lia.
  assert (Hle : field (eventData (outcome_state (rescopeEvents_ f (resortEvents_ el)))) 0
                  EventStruct.TIME
                ≤ field (eventData (outcome_state (rescopeEvents_ f (resortEvents_ el)))) i
                  EventStruct.TIME).
  { destruct (decide (i = 0)) as [->|Hne]; [lia|].
    apply (rescope_resort_sorted f el Hwf); lia. }
  unfold Qle. simpl. lia.
Qed.

(** X3, witness: scenario S2 of the spec. *)
Lemma first_event_time_is_least_witness :
  let el := insert_all (new_EventList (example_table 0)) out_of_order_events in
  let el' := (outcome_state (rebuild 4 el ([] : list FrameList))).1 in
  getFirstEventTime el' = getTime (getEvent el' 0).
Proof.
  intros el el'.
  assert (Hel : list_reachable el).
  { apply insert_all_reachable; [|vm_compute; reflexivity].
    apply lreach_new, example_table_reachable. }
  assert (Hpos : 0 < count el) by (vm_compute; reflexivity).
  pose proof (first_event_time_is_least 4 el ([] : list FrameList) Hel) as Hthm.
  exact (proj1 (proj2 Hthm Hpos)).
Defined.

(** ** The search by time on a sorted list *)

Lemma Qltb_spec (x y : Q) : if Qltb x y then (x < y)%Q else (y <= x)%Q.
Proof.
  unfold Qltb. destruct (Qle_bool y x) eqn:E; simpl.
  - by apply Qle_bool_iff.
  - apply Qnot_le_lt. intros Hle%Qle_bool_iff. congruence.
Qed.

(** The comparison of a number with a finite double is that of the
    rationals. *)
Lemma num_lt_double_finite (v : Z) (q : Q) :
  num_lt_double (Some v) (Finite q) = true ↔ (inject_Z v < q)%Q.
Proof.
  cbn [num_lt_double]. pose proof (Qltb_spec (inject_Z v) q) as Hcmp.
  destruct (Qltb (inject_Z v) q); split; try done.
  intros Hlt. by apply Qlt_not_le in Hlt.
Qed.

(** What is below a double has all smaller numbers below it. *)
Lemma num_lt_double_mono (v w : Z) (t : double) :
  v ≤ w → num_lt_double (Some w) t = true → num_lt_double (Some v) t = true.
Proof.
  intros Hvw. destruct t as [q| |]; [|done|done].
  rewrite !num_lt_double_finite. intros Hw.
  apply Qle_lt_trans with (inject_Z w); [by rewrite <- Zle_Qle|done].
Qed.

Lemma num_lt_double_mono_false (v w : Z) (t : double) :
  v ≤ w → num_lt_double (Some v) t = false → num_lt_double (Some w) t = false.
Proof.
  intros Hvw Hv. destruct (num_lt_double (Some w) t) eqn:Hw; [|done].
  by rewrite (num_lt_double_mono v w t Hvw Hw) in Hv.
Qed.

(** The loop keeps the records before [low] strictly before the time and,
    once [high] has moved, the records from [high] on at or after it. *)
Lemma near_loop_spec (d : list Z) (t : double) (cnt : Z) (fuel : nat) : ∀ low high,
  (∀ i, 0 ≤ i < cnt → is_Some (ta_get d (Some (i * 12 + 4)))) →
  (∀ i j, 0 ≤ i → i ≤ j → j < cnt →
     field d i EventStruct.TIME ≤ field d j EventStruct.TIME) →
  0 ≤ low ≤ high → high ≤ cnt - 1 → cnt < 2 ^ 31 →
  high - low ≤ Z.of_nat fuel →
  (∀ i, 0 ≤ i < low →
     num_lt_double (Some (field d i EventStruct.TIME)) t = true) →
  (high < cnt - 1 →
     ∀ i, high ≤ i < cnt →
       num_lt_double (Some (field d i EventStruct.TIME)) t = false) →
  let l := near_loop fuel d t low high in
  low ≤ l ≤ high ∧
  (∀ i, 0 ≤ i < l →
     num_lt_double (Some (field d i EventStruct.TIME)) t = true) ∧
  (l < cnt - 1 →
     ∀ i, l ≤ i < cnt →
       num_lt_double (Some (field d i EventStruct.TIME)) t = false).
Proof.
  intros low high Hrange Hsorted. revert low high.
  induction fuel as [|fuel IH]; intros low high Hlh Hhc Hc Hfuel Hlow Hhigh; simpl.
  { assert (low = high) as -> by lia. split; [lia|]. by split. }
  destruct (Z.ltb_spec low high) as [Hlt|Hge].
  2:{ assert (low = high) as -> by lia. split; [lia|]. by split. }
  assert (Hmid : ToInt32 ((low + high) ÷ 2) = (low + high) / 2).
  { rewrite Z.quot_div_nonneg by lia. unfold ToInt32.
    assert (0 ≤ (low + high) / 2 < 2 ^ 31).
    { split; [apply Z.div_pos; lia|]. apply Z.div_lt_upper_bound; lia. }
    rewrite Z.mod_small; lia. }
  rewrite Hmid. set (mid := (low + high) / 2).
  assert (Hm : low ≤ mid < high).
  { subst mid. split; [apply Z.div_le_lower_bound; lia|apply Z.div_lt_upper_bound; lia]. }
  destruct (Hrange mid) as [v Hv]; [lia|]. es. rewrite Hv.
  pose proof (field_get d mid 4 v Hv) as Hf.
  destruct (num_lt_double (Some v) t) eqn:Hcmp.
  - destruct (IH (mid + 1) high) as (H1 & H2 & H3); try done; try lia.
    + intros i Hi. apply (num_lt_double_mono _ v); [|done].
      rewrite <- Hf. apply Hsorted; lia.
    + split; [lia|]. by split.
  - destruct (IH low mid) as (H1 & H2 & H3); try done; try lia.
    + intros _ i Hi. apply (num_lt_double_mono_false v); [|done].
      rewrite <- Hf. apply Hsorted; lia.
    + split; [lia|]. by split.
Qed.

(** X4. On a rebuilt list of fewer than 2^31 records the search by time
    returns the index of a record.  The records before it have a TIME
    below the product [time * 1000] as the code computes it, a double, as
    has the record itself unless it is record 0, and the records from
    the second after it on have not: the record right after the result is
    not compared with the time. *)
Theorem getIndexOfEventNearTime_range {L} `{IAncillaryList L}
    (EventFlag_SYSTEM_TIME : Z) (el : EventList) (lists : list L) (time : Q) :
  list_reachable el → 0 < count el < 2 ^ 31 →
  let el' := (outcome_state (rebuild EventFlag_SYSTEM_TIME el lists)).1 in
  let r := getIndexOfEventNearTime el' time in
  let before i :=
    num_lt_double (ta_get (eventData el') (Some (i * 12 + EventStruct.TIME)))
      (double_mul time 1000) = true in
  0 ≤ r < count el' ∧
  (∀ i, 0 ≤ i < r → before i) ∧
  (0 < r → before r) ∧
  (∀ i, r + 2 ≤ i < count el' → ¬ before i).
Proof.
  intros Hwf%list_reachable_wf Hc el'. subst el'. rewrite rebuild_list.
  set (f := EventFlag_SYSTEM_TIME).
  set (el' := outcome_state (rescopeEvents_ f (resortEvents_ el))).
  pose proof (rescope_wf f _ (resort_wf el Hwf)) as Hwf'. fold el' in Hwf'.
  pose proof (rescope_resort_sorted f el Hwf) as Hsorted. cbv zeta in Hsorted.
  fold el' in Hsorted.
  assert (Hcnt : count el' = count el).
  { subst el'. destruct (rescope_fields f (resortEvents_ el)) as (-> & _).
    apply resort_fields. }
  intros r before.
  assert (Hbefore : ∀ i, 0 ≤ i < count el' →
    ta_get (eventData el') (Some (i * 12 + EventStruct.TIME))
    = Some (field (eventData el') i EventStruct.TIME)).
  { intros i Hi. destruct (list_wf_record el' (i * 12 + 4) Hwf') as [v Hv]; [lia|].
    es. rewrite Hv. f_equal. symmetry. by apply field_get. }
  destruct (near_loop_spec (eventData el') (double_mul time 1000) (count el')
              (Z.to_nat (count el')) 0 (count el' - 1)) as (H1 & H2 & H3);
    try lia.
  - intros i Hi. apply list_wf_record; [done|lia].
  - intros i j Hi Hij Hj. destruct (decide (i = j)) as [->|Hne]; [lia|].
    apply Hsorted; lia.
  - subst r before. cbv beta. unfold getIndexOfEventNearTime.
    set (l := near_loop _ _ _ _ _) in *.
    destruct (Z.eqb_spec l 0) as [Hl|Hl].
    + split; [lia|]. split; [intros; lia|]. split; [lia|].
      intros i Hi. rewrite Hbefore, H3 by lia. done.
    + split; [lia|]. split; [|split].
      * intros i Hi. rewrite Hbefore by lia. apply H2. lia.
      * intros _. rewrite Hbefore by lia. apply H2. lia.
      * intros i Hi. rewrite Hbefore, H3 by lia. done.
Qed.

(** X4, witness: instants at 0, 2.007 and 4.014 ms, looked up at 2.007 ms.
    The product 2.007 * 1000 is the double above 2007, so that the record
    at 2007 μs is below it. *)
Lemma getIndexOfEventNearTime_range_witness :
  let el := insert_all (new_EventList (example_table 0)) drifting_instants in
  let el' := (outcome_state (rebuild 4 el ([] : list FrameList))).1 in
  let time := literal (2007 # 1000) in
  getIndexOfEventNearTime el' time = 1 ∧
  num_lt_double (ta_get (eventData el') (Some (1 * 12 + EventStruct.TIME)))
    (double_mul time 1000) = true.
Proof.
  intros el el' time.
  assert (Hel : list_reachable el).
  { apply insert_all_reachable; [|vm_compute; reflexivity].
    apply lreach_new, example_table_reachable. }
  assert (Hc : 0 < count el < 2 ^ 31) by (vm_compute; split; reflexivity).
  assert (Hr : getIndexOfEventNearTime el' time = 1) by (vm_compute; reflexivity).
  pose proof (getIndexOfEventNearTime_range 4 el ([] : list FrameList) time Hel Hc)
    as Hthm.
  assert (Hpos : 0 < getIndexOfEventNearTime el' time) by (rewrite Hr; lia).
  pose proof (proj1 (proj2 (proj2 Hthm)) Hpos) as Hb.
  rewrite Hr in Hb.
  exact (conj Hr Hb).
Defined.

(** ** Moving an iterator *)

Lemma iter_next_fields (it : EventIterator) (k : nat) :
  let it' := Nat.iter k next it in
  eventList_ it' = eventList_ it ∧ lastIndex_ it' = lastIndex_ it ∧
  index_ it' = index_ it + Z.of_nat k ∧
  ((0 < k)%nat → offset_ it' = index_ it' * 12).
Proof.
  induction k as [|k IH]; simpl; [repeat split; lia|].
  destruct IH as (He & Hl & Hi & _). unfold next at 1.
  cbn [eventList_ lastIndex_ index_ offset_]. es.
  repeat split; try done; lia.
Qed.

Lemma begin_fields (el : EventList) :
  eventList_ (begin el) = el ∧ lastIndex_ (begin el) = count el ∧
  index_ (begin el) = 0.
Proof.
  unfold begin, new_EventIterator, seek, getCount. cbn [lastIndex_].
  destruct (Z.ltb_spec 0 0); [lia|]. by destruct (0 >? count el).
Qed.

Lemma list_wf_slack_zero (el : EventList) (j : Z) :
  list_wf el → count el * 12 ≤ j < capacity_ el * 12 →
  ta_get (eventData el) (Some j) = Some 0.
Proof.
  intros Hwf Hj. pose proof (lwf_count el Hwf). pose proof (lwf_length el Hwf).
  destruct (ta_get_is_Some (eventData el) j) as [v Hv]; [lia|].
  rewrite Hv. f_equal. apply (lwf_slack el Hwf j v); [lia|done].
Qed.

(** X5. An iteration that starts with [begin] and moves with [next] is
    done after [count + 1] steps, not after [count]: an empty list gives
    an iterator that is not done, and after the last record of a list the
    iterator stands on the zero cells behind it, which read as an instance
    event of no type with id 0 at time 0. *)
Theorem begin_runs_one_past_the_end (el : EventList) :
  list_reachable el →
  (∀ k : nat, done (Nat.iter k next (begin el)) = (Z.of_nat k >? count el)) ∧
  (0 < count el →
     let it := Nat.iter (Z.to_nat (count el)) next (begin el) in
     done it = false ∧ index_ it = count el ∧ getId it = 0 ∧
     getTime it = (0 # 1000)%Q ∧ isInstance it = true ∧ getType it = None).
Proof.
  intros Hel. pose proof (list_reachable_wf el Hel) as Hwf.
  pose proof (list_reachable_table_wf el Hel) as HT.
  destruct (begin_fields el) as (He & Hl & Hi).
  assert (Hdone : ∀ k : nat,
    done (Nat.iter k next (begin el)) = (Z.of_nat k >? count el)).
  { intros k. destruct (iter_next_fields (begin el) k) as (_ & Hl' & Hi' & _).
    unfold done. rewrite Hl', Hi', Hl, Hi. f_equal. }
  split; [done|]. intros Hpos it.
  destruct (iter_next_fields (begin el) (Z.to_nat (count el))) as (He' & Hl' & Hi' & Ho').
  fold it in He', Hl', Hi', Ho'. rewrite Z2Nat.id in Hi' by lia.
  rewrite Hi in Hi'. rewrite He in He'. specialize (Ho' ltac:(lia)).
  assert (Hzero : ∀ k, 0 ≤ k < 12 → it_cell it k = 0).
  { intros k Hk. apply it_cell_get. rewrite He', Ho', Hi'.
    apply list_wf_slack_zero; [done|].
    destruct (lwf_room el Hwf); lia. }
  split.
  { subst it. rewrite Hdone. rewrite Z2Nat.id by lia.
    destruct (Z.gtb_spec (count el) (count el)); [lia|done]. }
  split; [lia|]. unfold getId, getTime, isInstance, getType. es.
  rewrite !Hzero by lia. rewrite He'.
  split; [done|]. split; [done|]. split; [done|].
  destruct (getById (eventTypeTable el) 0) as [ty|] eqn:E; [|done].
  assert (Hs : is_Some (eventsById_ (eventTypeTable el) !! 0)) by (unfold getById in E; eauto).
  apply (wf_ids _ HT) in Hs. lia.
Qed.

(** X5, witness: three instants. *)
Lemma begin_runs_one_past_the_end_witness :
  let el := insert_all (new_EventList (example_table 0)) three_instants in
  let it := Nat.iter (Z.to_nat (count el)) next (begin el) in
  done it = false ∧ index_ it = count el.
Proof.
  intros el it.
  assert (Hel : list_reachable el).
  { apply insert_all_reachable; [|vm_compute; reflexivity].
    apply lreach_new, example_table_reachable. }
  assert (Hpos : 0 < count el) by (vm_compute; reflexivity).
  pose proof (proj2 (begin_runs_one_past_the_end el Hel) Hpos) as Hthm.
  exact (conj (proj1 Hthm) (proj1 (proj2 Hthm))).
Defined.

(** The loop of [nextScope] and [nextInstance]: it moves on by at least
    one record, passes only records that do not end it, and stops on a
    record that ends it or right behind the last index. *)
Lemma skip_loop_spec (stop : num → bool) (d : list Z) (last : Z) (fuel : nat) :
  ∀ i o, o = i * 12 → i ≤ last → last - i < Z.of_nat fuel →
  let r := skip_loop stop fuel d last i o in
  i < r.1 ≤ last + 1 ∧ r.2 = r.1 * 12 ∧
  (∀ j, i < j < r.1 → stop (ta_get d (Some (j * 12 + EventStruct.END_TIME))) = false) ∧
  (r.1 ≤ last → stop (ta_get d (Some (r.1 * 12 + EventStruct.END_TIME))) = true).
Proof.
  induction fuel as [|fuel IH]; intros i o Ho Hi Hfuel; [lia|].
  cbn [skip_loop]. destruct (Z.leb_spec i last) as [_|?]; [|lia].
  es. replace (o + 12 + 9) with ((i + 1) * 12 + 9) by lia.
  destruct (stop (ta_get d (Some ((i + 1) * 12 + 9)))) eqn:Hstop; cbn [fst snd].
  - split; [lia|]. split; [lia|]. split; [intros; lia|done].
  - destruct (decide (i + 1 ≤ last)) as [Hle|Hgt].
    + destruct (IH (i + 1) (o + 12)) as (H1 & H2 & H3 & H4); [lia|lia|lia|].
      split; [lia|]. split; [done|]. split; [|done].
      intros j Hj. destruct (decide (j = i + 1)) as [->|Hne]; [done|].
      apply H3. lia.
    + destruct fuel as [|fuel']; cbn [skip_loop fst snd].
      * split; [lia|]. split; [lia|]. split; [|lia].
        intros j Hj. by replace j with (i + 1) by lia.
      * destruct (Z.leb_spec (i + 1) last); [lia|]. cbn [fst snd].
        split; [lia|]. split; [lia|]. split; [|lia].
        intros j Hj. by replace j with (i + 1) by lia.
Qed.

Lemma skip_loop_done (stop : num → bool) (d : list Z) (last : Z) (fuel : nat) i o :
  last < i → skip_loop stop fuel d last i o = (i, o).
Proof.
  intros Hi. destruct fuel; [done|]. cbn [skip_loop].
  destruct (Z.leb_spec i last); [lia|done].
Qed.

(** X6. [nextScope] on an iterator that is not done moves it forward over
    instance events only, to the next scope (a record with END_TIME set)
    or right behind the last index, where it is done; [nextInstance] the
    same with the two kinds exchanged.  On an iterator that is done
    neither moves. *)
Theorem nextScope_nextInstance_spec (it : EventIterator) :
  offset_ it = index_ it * EventStruct.STRUCT_SIZE →
  let ends j := truthy (ta_get (eventData (eventList_ it))
                          (Some (j * 12 + EventStruct.END_TIME))) in
  (done it = true → nextScope it = it ∧ nextInstance it = it) ∧
  (done it = false →
     (let it' := nextScope it in
      index_ it < index_ it' ≤ lastIndex_ it + 1 ∧
      offset_ it' = index_ it' * EventStruct.STRUCT_SIZE ∧
      (∀ j, index_ it < j < index_ it' → ends j = false) ∧
      (done it' = false → ends (index_ it') = true ∧ isScope it' = true)) ∧
     (let it' := nextInstance it in
      index_ it < index_ it' ≤ lastIndex_ it + 1 ∧
      offset_ it' = index_ it' * EventStruct.STRUCT_SIZE ∧
      (∀ j, index_ it < j < index_ it' → ends j = true) ∧
      (done it' = false → ends (index_ it') = false ∧ isInstance it' = true))).
Proof.
  intros Ho ends. unfold done. split.
  - intros Hd%Z.gtb_lt. unfold nextScope, nextInstance, skip_to.
    rewrite !skip_loop_done by lia. by destruct it.
  - intros Hd. assert (Hle : index_ it ≤ lastIndex_ it).
    { destruct (Z.gtb_spec (index_ it) (lastIndex_ it)); [done|lia]. }
    clear Hd. es. split.
    + destruct (skip_loop_spec truthy (eventData (eventList_ it)) (lastIndex_ it)
                  (Z.to_nat (lastIndex_ it - index_ it + 1)) (index_ it) (offset_ it))
        as (H1 & H2 & H3 & H4); [done|done|lia|].
      unfold nextScope, skip_to. cbn [index_ offset_ lastIndex_ eventList_].
      set (r := skip_loop _ _ _ _ _ _) in *.
      split; [done|]. split; [done|]. split; [exact H3|].
      intros Hd. assert (Hr : r.1 ≤ lastIndex_ it).
      { destruct (Z.gtb_spec r.1 (lastIndex_ it)); [done|lia]. }
      specialize (H4 Hr). split; [exact H4|].
      unfold isScope, it_cell, cell. cbn [eventList_ offset_]. rewrite H2. es.
      destruct (truthy_Some _ H4) as (v & -> & Hv). simpl.
      by apply negb_true_iff, Z.eqb_neq.
    + destruct (skip_loop_spec (λ v, negb (truthy v)) (eventData (eventList_ it))
                  (lastIndex_ it)
                  (Z.to_nat (lastIndex_ it - index_ it + 1)) (index_ it) (offset_ it))
        as (H1 & H2 & H3 & H4); [done|done|lia|].
      unfold nextInstance, skip_to. cbn [index_ offset_ lastIndex_ eventList_].
      set (r := skip_loop _ _ _ _ _ _) in *.
      split; [done|]. split; [done|]. split.
      { intros j Hj. apply negb_false_iff. by apply H3. }
      intros Hd. assert (Hr : r.1 ≤ lastIndex_ it).
      { destruct (Z.gtb_spec r.1 (lastIndex_ it)); [done|lia]. }
      specialize (H4 Hr). apply negb_true_iff in H4. split; [exact H4|].
      unfold isInstance, it_cell, cell. cbn [eventList_ offset_]. rewrite H2. es.
      subst ends. cbv beta in H4. es.
      destruct (ta_get _ _) as [v|]; [|done]. simpl in *.
      by apply negb_false_iff in H4.
Qed.

(** X6, witness: an iterator over the four records of scenario S3. *)
Lemma nextScope_nextInstance_spec_witness :
  let el := rebuilt 4 0 (system_time_events 0) in
  let it := beginEventRange el 0 3 in
  index_ it < index_ (nextScope it) ≤ lastIndex_ it + 1.
Proof.
  intros el it.
  assert (Ho : offset_ it = index_ it * EventStruct.STRUCT_SIZE) by reflexivity.
  assert (Hd : done it = false) by reflexivity.
  exact (proj1 (proj1 (proj2 (nextScope_nextInstance_spec it Ho) Hd))).
Defined.

(** ** The parent of a record *)

Lemma on_record_cell (it : EventIterator) (k : Z) :
  list_wf (eventList_ it) → on_record it → 0 ≤ k < 12 →
  ∃ v, ta_get (eventData (eventList_ it)) (Some (offset_ it + k)) = Some v ∧
       0 ≤ v < 2 ^ 32.
Proof.
  intros Hwf [Hi Ho] Hk. revert Ho. es. intros Ho.
  destruct (list_wf_record (eventList_ it) (offset_ it + k) Hwf) as [v Hv]; [lia|].
  exists v. split; [done|]. apply (ta_get_u32 _ _ _ (lwf_cells _ Hwf) Hv).
Qed.

(** X7. The PARENT cell is unsigned, so that the test [parentIndex >= 0]
    never fails on a record of the list: [moveToParent] always seeks to
    the cell's value and never to the end, and [getParent] never returns
    null.  On a record that was inserted and not yet rebuilt the value is
    4294967295, the -1 that [insert] has written: [moveToParent] then
    leaves the iterator done, and [getParent] returns an iterator that is
    done. *)
Theorem parent_is_never_missing :
  (∀ it cached fast,
     list_reachable (eventList_ it) → on_record it →
     ∃ p, 0 ≤ p < 2 ^ 32 ∧
       ta_get (eventData (eventList_ it)) (Some (offset_ it + EventStruct.PARENT))
       = Some p ∧
       moveToParent it = seek it p ∧
       getParent it cached false
       = (Some (new_EventIterator (eventList_ it) 0 (count (eventList_ it)) p),
          cached) ∧
       is_Some (getParent it cached fast).1) ∧
  (∀ el ty time args,
     list_reachable el → count el + 2 < 2 ^ 32 →
     let it := getEvent (insert el ty time args) (count el) in
     moveToParent it = seek it 4294967295 ∧
     done (moveToParent it) = true ∧
     ∃ pit, (getParent it None false).1 = Some pit ∧
            index_ pit = 4294967295 ∧ done pit = true).
Proof.
  split.
  - intros it cached fast Hwf%list_reachable_wf Hon.
    destruct (on_record_cell it EventStruct.PARENT Hwf Hon) as (p & Hp & Hp32);
      [es; lia|].
    exists p. split; [done|]. split; [done|].
    unfold moveToParent, getParent. rewrite Hp.
    destruct (Z.leb_spec 0 p) as [_|?]; [|lia].
    split; [done|]. split; [done|].
    destruct fast; cbn [fst]; eauto.
  - intros el ty time args Hwf%list_reachable_wf Hb it.
    pose proof (lwf_count el Hwf) as Hc.
    destruct (getEvent_fields (insert el ty time args) (count el)) as (He & Hi & Hl & Ho);
      [lia|]. fold it in He, Hi, Hl, Ho.
    assert (Hp : ta_get (eventData (eventList_ it)) (Some (offset_ it + EventStruct.PARENT))
                 = Some 4294967295).
    { rewrite He, Ho. es. rewrite (insert_get el ty time args _ Hwf) by lia.
      do 2 (rewrite decide_False by lia). rewrite decide_True by lia. done. }
    assert (Hseek : ∀ c : EventIterator, lastIndex_ c < 4294967295 →
              index_ (seek c 4294967295) = 4294967295 ∧ done (seek c 4294967295) = true).
    { intros c Hlast. unfold seek. simpl.
      destruct (Z.gtb_spec 4294967295 (lastIndex_ c)); [|lia].
      unfold done. cbn [index_ lastIndex_]. split; [done|].
      destruct (Z.gtb_spec 4294967295 (lastIndex_ c)); [done|lia]. }
    unfold moveToParent, getParent. rewrite Hp. cbn [Z.leb Z.compare fst].
    split; [done|]. split; [apply Hseek; lia|].
    eexists. split; [done|]. unfold new_EventIterator.
    apply Hseek. cbn [lastIndex_]. rewrite He, insert_count. lia.
Qed.

(** X7, witness: the record of one insert. *)
Lemma parent_is_never_missing_witness :
  let el := new_EventList (example_table 0) in
  let it := getEvent (insert el ty_X 7 None) (count el) in
  moveToParent it = seek it 4294967295.
Proof.
  intros el it.
  assert (Hel : list_reachable el) by apply lreach_new, example_table_reachable.
  assert (Hb : count el + 2 < 2 ^ 32) by (vm_compute; reflexivity).
  exact (proj1 (proj2 parent_is_never_missing el ty_X 7 None Hel Hb)).
Defined.

(** ** Tags *)




(** ** The scope tree *)

Lemma apply_writes_last (d : list Z) (ws : list (num * num)) (j : Z) :
  0 ≤ j < Z.of_nat (length d) →
  (∃ w, w ∈ ws ∧ w.1 = Some j) →
  ∃ w, w ∈ ws ∧ w.1 = Some j ∧
       ta_get (apply_writes d ws) (Some j) = Some (ToUint32 w.2).
Proof.
  intros Hj. induction ws as [|w ws IH] using rev_ind.
  { intros (w & Hw & _). by apply elem_of_nil in Hw. }
  intros (w0 & Hw0 & Hj0). rewrite apply_writes_app.
  unfold apply_writes at 1. cbn [foldl].
  destruct (decide (w.1 = Some j)) as [Hw|Hw].
  - exists w. split; [apply elem_of_app; right; by apply list_elem_of_singleton|].
    split; [done|].
    rewrite Hw. apply ta_get_set_eq. by rewrite apply_writes_length.
  - rewrite ta_get_set_ne by done.
    destruct IH as (w1 & Hw1 & Hj1 & Hget).
    + exists w0. split; [|done].
      apply elem_of_app in Hw0 as [?|Hin]; [done|].
      apply list_elem_of_singleton in Hin. subst w0. by destruct Hw.
    + exists w1. split; [apply elem_of_app; by left|]. by split.
Qed.

Lemma later_write_ok_cell cnt n s j v :
  j mod 12 = 1 ∨ j mod 12 = 6 ∨ j mod 12 = 10 ∨ j mod 12 = 11 →
  later_write_ok cnt n s (Some j, v).
Proof. intros Hj j' [= <-]. repeat split; lia. Qed.

Lemma later_write_ok_scope cnt n s k v :
  k = 6 ∨ k = 10 ∨ k = 11 → later_write_ok cnt n s (scope_cell s k, v).
Proof.
  intros Hk j. unfold scope_cell. destruct (parent s) as [p|]; simpl; [|done].
  intros [= <-]. rewrite cell_mod by lia. repeat split; lia.
Qed.

(** The buffer after an iteration, whether it returns or throws: the
    three writes that open it, and then writes to other cells. *)
Lemma step_writes_later f g cnt n s :
  ∃ ws, r_eventData (outcome_state (rescope_step f g cnt n s))
        = apply_writes (r_eventData s) (prologue cnt n s ++ ws) ∧
        Forall (later_write_ok cnt n s) ws.
Proof.
  assert (Hleave : Forall (later_write_ok cnt n s)
    [(Some (n * 12 + 5), Some 0);
     (scope_cell s 5, next_id cnt n s);
     (scope_cell s 9, rd s (n * 12 + 4));
     (scope_cell s 10, ta_get (systemTimeStack s) (Some (stackTop s - 1)));
     (scope_cell s 11, ta_get (childTimeStack s) (Some (stackTop s - 1)))]).
  { repeat apply Forall_cons_2; [| | | | |done];
      try (apply later_write_ok_scope; lia).
    - intros j [= <-]. rewrite cell_mod by lia. repeat split; try lia. by left.
    - intros j. unfold scope_cell. destruct (parent s) as [p|]; simpl; [|done].
      intros [= <-]. rewrite cell_mod by lia. repeat split; try lia. by right.
    - intros j. unfold scope_cell. destruct (parent s) as [p|] eqn:Ep; simpl; [|done].
      intros [= <-]. rewrite cell_mod by lia. repeat split; try lia.
      intros _. by exists p. }
  destruct (rescope_step_spec f g cnt n s); cbn [outcome_state];
    try (exists []; rewrite app_nil_r; split; [reflexivity|done]).
  - eexists. split; [reflexivity|].
    apply Forall_singleton, later_write_ok_cell. left. by apply cell_mod.
  - eexists. split; [reflexivity|done].
  - eexists. split; [reflexivity|done].
  - eexists. split; [reflexivity|done].
  - eexists. split; [reflexivity|].
    apply Forall_singleton, later_write_ok_scope. by left.
  - eexists. split; [reflexivity|].
    apply Forall_singleton, later_write_ok_cell. left. by apply cell_mod.
Qed.

Lemma elem_of_prologue cnt n s (w : num * num) :
  w ∈ prologue cnt n s →
  w = (Some (n * 12 + 2), parent s) ∨
  w = (Some (n * 12 + 3), Some (stackTop s)) ∨
  w = (Some (n * 12 + 5), next_id cnt n s).
Proof.
  unfold prologue. rewrite !elem_of_cons, elem_of_nil. tauto.
Qed.

(** The cells of the records after an iteration on record [n], which lies
    in the buffer. *)
Lemma step_cells f g cnt n s :
  0 ≤ n → n * 12 + 12 ≤ Z.of_nat (length (r_eventData s)) →
  let s' := outcome_state (rescope_step f g cnt n s) in
  rd s' (n * 12 + 2) = Some (ToUint32 (parent s)) ∧
  rd s' (n * 12 + 3) = Some (ToUint32 (Some (stackTop s))) ∧
  (∀ m k, m ≠ n → k = 2 ∨ k = 3 → rd s' (m * 12 + k) = rd s (m * 12 + k)) ∧
  (next_id cnt n s = Some 0 → rd s' (n * 12 + 5) = Some 0) ∧
  (∀ m, rd s' (m * 12 + 9) = rd s (m * 12 + 9) ∨
        (parent s = Some m ∧
         rd s' (m * 12 + 9) = Some (ToUint32 (rd s (n * 12 + 4))))).
Proof.
  intros Hn Hlen s'.
  destruct (step_writes_later f g cnt n s) as (ws & Hd & Hws). fold s' in Hd.
  rewrite Forall_forall in Hws. unfold rd. rewrite Hd.
  assert (Hpro : ∀ j, j ≠ n * 12 + 5 →
    (∀ w, w ∈ ws → w.1 ≠ Some j) →
    ta_get (apply_writes (r_eventData s) (prologue cnt n s ++ ws)) (Some j)
    = ta_get (apply_writes (r_eventData s)
                [(Some (n * 12 + 2), parent s);
                 (Some (n * 12 + 3), Some (stackTop s))]) (Some j)).
  { intros j Hj Hother. rewrite apply_writes_app.
    rewrite apply_writes_get_other by done.
    unfold prologue, apply_writes. cbn [foldl fst snd].
    rewrite (ta_get_set_ne _ (Some (n * 12 + 5))); [done|]. congruence. }
  assert (Hno : ∀ j, j mod 12 = 2 ∨ j mod 12 = 3 → ∀ w, w ∈ ws → w.1 ≠ Some j).
  { intros j Hj w Hw Hw1. destruct (Hws w Hw j Hw1) as (? & ? & _). lia. }
  split; [|split; [|split; [|split]]].
  - rewrite Hpro; [|lia|apply Hno; rewrite cell_mod by lia; by left].
    unfold apply_writes. cbn [foldl fst snd].
    rewrite ta_get_set_ne by (intros [=]; lia).
    apply ta_get_set_eq. lia.
  - rewrite Hpro; [|lia|apply Hno; rewrite cell_mod by lia; by right].
    unfold apply_writes. cbn [foldl fst snd].
    apply ta_get_set_eq. rewrite ta_set_length. lia.
  - intros m k Hm Hk.
    rewrite Hpro; [|lia|apply Hno; rewrite cell_mod by lia; lia].
    unfold apply_writes. cbn [foldl fst snd].
    rewrite !ta_get_set_ne by (intros [=]; lia). done.
  - intros Hnext.
    destruct (apply_writes_last (r_eventData s) (prologue cnt n s ++ ws) (n * 12 + 5))
      as (w & Hw & Hw1 & ->); [lia| |].
    { exists (Some (n * 12 + 5), next_id cnt n s).
      split; [|done]. apply elem_of_app. left. unfold prologue.
      rewrite !elem_of_cons. tauto. }
    f_equal. apply elem_of_app in Hw as [Hw|Hw].
    + apply elem_of_prologue in Hw as [-> | [-> | ->]]; simpl in Hw1;
        try (injection Hw1; lia). simpl. by rewrite Hnext.
    + destruct (Hws w Hw _ Hw1) as (_ & _ & H5 & _).
      specialize (H5 (cell_mod n 5 ltac:(lia))). rewrite Hnext in H5.
      destruct w as [w1 w2]. simpl in *. by destruct H5 as [-> | ->].
  - intros m.
    destruct (apply_writes_get (r_eventData s) (prologue cnt n s ++ ws) (m * 12 + 9))
      as [Hsame|(w & Hw & Hw1 & Hget)]; [by left|].
    right. apply elem_of_app in Hw as [Hw|Hw].
    + apply elem_of_prologue in Hw as [-> | [-> | ->]]; simpl in Hw1;
        injection Hw1; lia.
    + destruct (Hws w Hw _ Hw1) as (_ & _ & _ & H9).
      destruct H9 as (p & Hp & Hj & Hv); [by apply cell_mod|].
      assert (p = m) as -> by lia. split; [done|].
      destruct w as [w1 w2]. simpl in *. by rewrite Hget, Hv.
Qed.

(** The locals after an iteration that returns: a scope is pushed, a
    scope is popped, or they stay. *)
Lemma step_locals f g cnt n s s' :
  rescope_step f g cnt n s = Normal s' →
  (∀ k, is_Some (typeStack s !! k) → 1 ≤ k) →
  (∃ ty, stack s' = ta_set (stack s) (Some (stackTop s + 1)) (rd s (n * 12)) ∧
         typeStack s' = <[stackTop s + 1 := ty]> (typeStack s) ∧
         stackTop s' = stackTop s + 1 ∧
         stackMax s' = Z.max (stackMax s) (stackTop s + 1)) ∨
  (stack s' = stack s ∧ typeStack s' = typeStack s ∧
   stackTop s' = stackTop s - 1 ∧ 0 ≤ stackTop s - 1 ∧ stackMax s' = stackMax s) ∨
  (stack s' = stack s ∧ typeStack s' = typeStack s ∧
   stackTop s' = stackTop s ∧ stackMax s' = stackMax s).
Proof.
  intros HX Htypes.
  pose proof (rescope_step_spec f g cnt n s) as HS. rewrite HX in HS.
  remember (Normal s') as o eqn:Eo.
  destruct HS as [ |args Hk Ha r|Hk Htop| |ty Hk Htop Hts|Hk Htr
                  |sid this other Hk Hs Hsne Hthis Hother| |
                  |args Hk Ha r| |ty Hk Hty Hcls|ty Hk Hty Hcls]; try discriminate;
    injection Eo as Eo; subst s'.
  - left. by exists r.1.
  - right. left. cbn. repeat split; lia.
  - right. left. cbn. repeat split; try done.
    assert (1 ≤ stackTop s - 1) by (apply Htypes; eauto). lia.
  - by right; right.
  - by right; right.
  - by right; right.
  - left. by exists (Own ty).
  - by right; right.
Qed.

Lemma tree_inv_init (el : EventList) : tree_inv 0 (rescope_init el).
Proof.
  split; cbn [stackTop stackMax stack typeStack rescope_init]; try done.
  - intros k Hk. lia.
  - intros k [ty Hty]. by rewrite lookup_empty in Hty.
  - intros m Hm. lia.
Qed.

(** An iteration that returns keeps the invariant. *)
Lemma tree_inv_step f g (el : EventList) n s s' :
  list_wf el → rescope_inv el s → tree_inv n s → 0 ≤ n < count el →
  rescope_step f g (count el) n s = Normal s' → tree_inv (n + 1) s'.
Proof.
  intros Hwf Hinv [Htop Hmax Hlen Hroot Hstack Htypes Hrec] Hn HX.
  pose proof (lwf_count el Hwf) as Hc. pose proof (lwf_length el Hwf) as Hl.
  assert (Hrange : n * 12 + 12 ≤ Z.of_nat (length (r_eventData s))).
  { rewrite (ri_length el s Hinv). destruct (lwf_room el Hwf); lia. }
  destruct (step_cells f g (count el) n s) as (Hp & Hd & Hother & _ & _); [lia|done|].
  rewrite HX in Hp, Hd, Hother. cbn [outcome_state] in Hp, Hd, Hother.
  assert (Hid : rd s (n * 12) = Some n).
  { rewrite (ri_frame el s Hinv) by (left; apply Z_mod_mult). by apply (lwf_id el Hwf). }
  rewrite ToUint32_small in Hd by lia.
  assert (Hdepth : ∀ p, 0 ≤ p < n → rd s' (p * 12 + 3) = rd s (p * 12 + 3)).
  { intros p Hpn. apply Hother; [lia|by right]. }
  (* the record of this iteration *)
  assert (Hnew : ∃ pm, rd s' (n * 12 + 2) = Some pm ∧
            (stackTop s = 0 → pm = 0) ∧
            (1 ≤ stackTop s ≤ 255 → 0 ≤ pm < n ∧ rd s' (pm * 12 + 3) = Some (stackTop s - 1)) ∧
            (256 ≤ stackTop s → pm = 0)).
  { rewrite Hp. eexists. split; [reflexivity|]. unfold parent. split; [|split].
    - intros ->. by rewrite Hroot.
    - intros Hk. destruct (Hstack (stackTop s)) as (p & -> & Hpn & Hpd); [lia|lia|].
      rewrite ToUint32_small by lia. split; [done|]. by rewrite Hdepth.
    - intros Hk. rewrite ta_get_None; [done|]. rewrite Hlen. lia. }
  assert (Hrec' : ∀ smax, stackMax s ≤ smax → ∀ m, 0 ≤ m < n + 1 →
      ∃ dm pm, rd s' (m * 12 + 3) = Some dm ∧ rd s' (m * 12 + 2) = Some pm ∧
        0 ≤ dm ≤ smax ∧ (dm = 0 → pm = 0) ∧
        (1 ≤ dm ≤ 255 → 0 ≤ pm < m ∧ rd s' (pm * 12 + 3) = Some (dm - 1)) ∧
        (256 ≤ dm → pm = 0)).
  { intros smax Hsmax m Hm. destruct (decide (m = n)) as [->|Hne].
    - destruct Hnew as (pm & Hpm & H0 & H1 & H2).
      exists (stackTop s), pm.
      split; [done|]. split; [done|]. split; [lia|]. split; [done|]. by split.
    - destruct (Hrec m) as (dm & pm & Hdm & Hpm & Hb & H0 & H1 & H2); [lia|].
      exists dm, pm. rewrite !Hother by (lia || tauto).
      split; [done|]. split; [done|]. split; [lia|]. split; [done|]. split; [|done].
      intros Hk. destruct (H1 Hk) as [Hlt Hpd]. split; [done|].
      done. }
  assert (Hstack' : ∀ k, 1 ≤ k ≤ stackTop s → k ≤ 255 →
      ∃ p, ta_get (stack s) (Some k) = Some p ∧ 0 ≤ p < n + 1 ∧
           rd s' (p * 12 + 3) = Some (k - 1)).
  { intros k Hk Hk'. destruct (Hstack k Hk Hk') as (p & Hsp & Hpn & Hpd).
    exists p. split; [done|]. split; [lia|]. by rewrite Hdepth. }
  destruct (step_locals f g (count el) n s s' HX Htypes)
    as [(ty & Hst & Hts & Ht & Hm)|[(Hst & Hts & Ht & Ht0 & Hm)|(Hst & Hts & Ht & Hm)]].
  - (* push *)
    split; rewrite ?Hst, ?Hts, ?Ht, ?Hm.
    + lia.
    + lia.
    + by rewrite ta_set_length.
    + rewrite ta_get_set_ne; [done|]. intros [=]. lia.
    + intros k Hk Hk'. destruct (decide (k = stackTop s + 1)) as [->|Hne].
      * exists n. rewrite ta_get_set_eq by (rewrite Hlen; lia).
        rewrite Hid, ToUint32_small by lia. split; [done|]. split; [lia|].
        rewrite Hd. f_equal. lia.
      * rewrite ta_get_set_ne by (intros [=]; lia). apply Hstack'; lia.
    + intros k. destruct (decide (k = stackTop s + 1)) as [->|Hne]; [lia|].
      rewrite lookup_insert_ne by done. apply Htypes.
    + apply Hrec'. lia.
  - (* pop *)
    split; rewrite ?Hst, ?Hts, ?Ht, ?Hm; try done; try lia.
    + intros k Hk Hk'. apply Hstack'; lia.
    + by apply Hrec'.
  - split; rewrite ?Hst, ?Hts, ?Ht, ?Hm; try done; try lia.
    by apply Hrec'.
Qed.

Lemma tree_inv_loop f g (el : EventList) (k : nat) : ∀ n s sf,
  list_wf el → rescope_inv el s → tree_inv n s →
  0 ≤ n → n + Z.of_nat k ≤ count el →
  rescope_loop f g (count el) (seqZ n (Z.of_nat k)) s = Normal sf →
  tree_inv (n + Z.of_nat k) sf.
Proof.
  induction k as [|k IH]; intros n s sf Hwf Hinv Htree Hn Hk Hloop.
  { simpl in Hloop. injection Hloop as <-. by rewrite Z.add_0_r. }
  rewrite Nat2Z.inj_succ, seqZ_cons, Z.pred_succ in Hloop by lia.
  cbn [rescope_loop] in Hloop.
  pose proof (rescope_step_inv f g el n s Hwf Hinv ltac:(lia)) as Hinv1.
  destruct (rescope_step f g (count el) n s) as [s1|s1] eqn:HX; [|done].
  cbn [bind_outcome outcome_state] in *.
  pose proof (tree_inv_step f g el n s s1 Hwf Hinv Htree ltac:(lia) HX) as Htree1.
  replace (n + Z.of_nat (S k)) with (Z.succ n + Z.of_nat k) by lia.
  apply (IH (Z.succ n) s1); try done; lia.
Qed.

(** The loop of a rebuild that has returned. *)
Lemma rebuild_returns {L} `{IAncillaryList L} f (el el' : EventList)
    (lists lists' : list L) :
  rebuild f el lists = Normal (el', lists') →
  ∃ sf,
    rescope_loop f (generic_ids (eventTypeTable el)) (count el)
      (seqZ 0 (count el)) (rescope_init (resortEvents_ el)) = Normal sf ∧
    eventData el' = r_eventData sf ∧ count el' = count el ∧
    maximumScopeDepth_ el' = stackMax sf.
Proof.
  unfold rebuild, rescopeEvents_. intros Hreb.
  destruct (resort_fields el) as (Hc & _ & HT & _). rewrite Hc, HT in Hreb.
  destruct (rescope_loop _ _ _ _ _) as [sf|sf]; [|done].
  injection Hreb as <- _. by exists sf.
Qed.

(** X9. When a rebuild returns, every record has a depth that is at most
    the maximum scope depth of the list, which is at most the number of
    records.  A record at depth 1 to 255 has an earlier record as its
    parent, one level up.  A record at depth 0 has record 0 as its parent,
    and so has a record below 255 levels, for which the stack of the
    re-scope pass has no slot; [moveToParent] goes to that record and is
    not done. *)
Theorem rebuild_builds_scope_tree {L} `{IAncillaryList L} (EventFlag_SYSTEM_TIME : Z)
    (el el' : EventList) (lists lists' : list L) :
  list_reachable el →
  rebuild EventFlag_SYSTEM_TIME el lists = Normal (el', lists') →
  0 ≤ getMaximumScopeDepth el' ≤ count el' ∧
  ∀ m, 0 ≤ m < count el' →
    let it := getEvent el' m in
    ∃ p,
      ta_get (eventData el') (Some (m * 12 + EventStruct.PARENT)) = Some p ∧
      0 ≤ getDepth it ≤ getMaximumScopeDepth el' ∧
      (getDepth it = 0 → p = 0) ∧
      (1 ≤ getDepth it ≤ 255 →
         0 ≤ p < m ∧ getDepth (getEvent el' p) = getDepth it - 1) ∧
      (256 ≤ getDepth it → p = 0) ∧
      index_ (moveToParent it) = p ∧ done (moveToParent it) = false.
Proof.
  intros Hwf%list_reachable_wf Hreb.
  destruct (rebuild_returns _ _ _ _ _ Hreb) as (sf & Hloop & Hd & Hc & Hmax).
  pose proof (resort_wf el Hwf) as Hwf0.
  destruct (resort_fields el) as (Hc0 & _).
  pose proof (lwf_count el Hwf) as Hcnt.
  pose proof (tree_inv_loop EventFlag_SYSTEM_TIME (generic_ids (eventTypeTable el))
    (resortEvents_ el) (Z.to_nat (count el)) 0 (rescope_init (resortEvents_ el)) sf
    Hwf0 (rescope_init_inv _ Hwf0) (tree_inv_init _)) as Htree.
  rewrite Hc0, Z2Nat.id in Htree by lia.
  specialize (Htree ltac:(lia) ltac:(lia) Hloop).
  destruct Htree as [Htop Hm _ _ _ _ Hrec]. simpl in Hm, Hrec.
  unfold getMaximumScopeDepth. rewrite Hmax, Hc.
  split; [lia|]. intros m Hmr. set (it := getEvent el' m).
  assert (Hdepth : ∀ i v, 0 ≤ i → rd sf (i * 12 + 3) = Some v →
            getDepth (getEvent el' i) = v).
  { intros i v Hi Hv. destruct (getEvent_fields el' i Hi) as (He & _ & _ & Ho).
    apply it_cell_get. rewrite He, Ho, Hd. exact Hv. }
  destruct (Hrec m Hmr) as (dm & pm & Hdm & Hpm & Hb & H0 & H1 & H2).
  destruct (getEvent_fields el' m) as (He & Hi & Hl & Ho); [lia|].
  fold it in He, Hi, Hl, Ho.
  assert (Hdi : getDepth it = dm) by (apply Hdepth; [lia|done]).
  exists pm. rewrite Hdi, Hd.
  split; [exact Hpm|]. split; [done|]. split; [done|]. split.
  { intros Hk. destruct (H1 Hk) as [Hlt Hpd]. split; [done|].
    by apply Hdepth; [lia|]. }
  split; [done|].
  assert (Hp : 0 ≤ pm ≤ m) by lia.
  unfold moveToParent. rewrite He, Ho, Hd. es. unfold rd in Hpm. rewrite Hpm.
  destruct (Z.leb_spec 0 pm); [|lia]. unfold seek, done.
  destruct (Z.ltb_spec pm 0); [lia|].
  destruct (Z.gtb_spec pm (lastIndex_ it)); [lia|]. cbn [index_ lastIndex_].
  split; [done|]. destruct (Z.gtb_spec pm (lastIndex_ it)); [lia|done].
Qed.

(** X9, witness: scenario S2 of the spec. *)
Lemma rebuild_builds_scope_tree_witness :
  let el := insert_all (new_EventList (example_table 0)) out_of_order_events in
  let r := outcome_state (rebuild 4 el ([] : list FrameList)) in
  0 ≤ getMaximumScopeDepth r.1 ≤ count r.1.
Proof.
  intros el r.
  assert (Hel : list_reachable el).
  { apply insert_all_reachable; [|vm_compute; reflexivity].
    apply lreach_new, example_table_reachable. }
  assert (Hreb : rebuild 4 el ([] : list FrameList) = Normal (r.1, r.2)).
  { vm_compute. reflexivity. }
  exact (proj1 (rebuild_builds_scope_tree 4 el r.1 [] r.2 Hel Hreb)).
Defined.

(** ** The end of a scope *)

Lemma rd_field (s : Rescope) (m k v : Z) :
  rd s (m * 12 + k) = Some v → field (r_eventData s) m k = v.
Proof. apply field_get. Qed.

(** The parent of an iteration is a record up to the one it is on. *)
Lemma tree_inv_parent n s p : tree_inv n s → 0 ≤ n → parent s = Some p → 0 ≤ p ≤ n.
Proof.
  intros [Htop _ Hlen Hroot Hstack _ _] Hn. unfold parent. intros Hp.
  destruct (decide (stackTop s = 0)) as [E|E].
  { rewrite E, Hroot in Hp. injection Hp as <-. lia. }
  destruct (decide (stackTop s ≤ 255)) as [Hle|Hgt].
  - destruct (Hstack (stackTop s)) as (p' & Hp' & Hr & _); [lia|lia|].
    rewrite Hp' in Hp. injection Hp as <-. lia.
  - rewrite ta_get_None in Hp; [done|]. rewrite Hlen. lia.
Qed.

(** An iteration, whether it returns or throws, keeps the ends of the
    scopes at or after their beginnings, on a list sorted by time. *)
Lemma end_times_step f g (el : EventList) n s :
  list_wf el → rescope_inv el s → tree_inv n s → 0 ≤ n < count el →
  (∀ i j, 0 ≤ i → i ≤ j → j < count el →
     field (eventData el) i EventStruct.TIME ≤ field (eventData el) j EventStruct.TIME) →
  end_times_ok (count el) (r_eventData s) →
  end_times_ok (count el)
    (r_eventData (outcome_state (rescope_step f g (count el) n s))).
Proof.
  intros Hwf Hinv Htree Hn Hsorted Hok m Hm.
  pose proof (lwf_count el Hwf) as Hc. pose proof (lwf_length el Hwf) as Hl.
  assert (Hrange : n * 12 + 12 ≤ Z.of_nat (length (r_eventData s))).
  { rewrite (ri_length el s Hinv). destruct (lwf_room el Hwf); lia. }
  pose proof (rescope_step_inv f g el n s Hwf Hinv Hn) as Hinv'.
  set (s' := outcome_state (rescope_step f g (count el) n s)) in *.
  assert (Htime : ∀ i, field (r_eventData s') i EventStruct.TIME
                       = field (eventData el) i EventStruct.TIME).
  { intros i. unfold field, cell. es. fold (rd s' (i * 12 + 4)).
    rewrite (ri_frame el s' Hinv'); [done|]. right. left. by apply cell_mod. }
  assert (Htime0 : ∀ i, field (r_eventData s) i EventStruct.TIME
                        = field (eventData el) i EventStruct.TIME).
  { intros i. unfold field, cell. es. fold (rd s (i * 12 + 4)).
    rewrite (ri_frame el s Hinv); [done|]. right. left. by apply cell_mod. }
  destruct (step_cells f g (count el) n s) as (_ & _ & _ & _ & Hend); [lia|done|].
  fold s' in Hend. rewrite Htime.
  destruct (Hend m) as [Hsame|[Hp Hnew]].
  - destruct (Hok m Hm) as [H0|Hle]; [left|right].
    + unfold field, cell in *. revert H0. es. fold (rd s' (m * 12 + 9)) (rd s (m * 12 + 9)).
      by rewrite Hsame.
    + rewrite Htime0 in Hle. unfold field at 2, cell. unfold field at 2, cell in Hle.
      revert Hle. es. fold (rd s' (m * 12 + 9)) (rd s (m * 12 + 9)).
      by rewrite Hsame.
  - right. pose proof (tree_inv_parent n s m Htree ltac:(lia) Hp) as Hmn.
    destruct (ta_get_is_Some (r_eventData s) (n * 12 + 4)) as [t Ht]; [lia|].
    fold (rd s (n * 12 + 4)) in Ht. rewrite Ht in Hnew.
    rewrite ToUint32_small in Hnew by (apply (ta_get_u32 _ _ _ (ri_u32 el s Hinv) Ht)).
    es. rewrite (rd_field s' m 9 t Hnew).
    rewrite <- (rd_field s n 4 t Ht). change 4 with EventStruct.TIME.
    rewrite Htime0. apply Hsorted; lia.
Qed.

Lemma end_times_loop f g (el : EventList) (k : nat) : ∀ n s,
  list_wf el → rescope_inv el s → tree_inv n s →
  0 ≤ n → n + Z.of_nat k ≤ count el →
  (∀ i j, 0 ≤ i → i ≤ j → j < count el →
     field (eventData el) i EventStruct.TIME ≤ field (eventData el) j EventStruct.TIME) →
  end_times_ok (count el) (r_eventData s) →
  end_times_ok (count el)
    (r_eventData (outcome_state
       (rescope_loop f g (count el) (seqZ n (Z.of_nat k)) s))).
Proof.
  induction k as [|k IH]; intros n s Hwf Hinv Htree Hn Hk Hsorted Hok; [done|].
  rewrite Nat2Z.inj_succ, seqZ_cons, Z.pred_succ by lia.
  cbn [rescope_loop].
  pose proof (rescope_step_inv f g el n s Hwf Hinv ltac:(lia)) as Hinv1.
  pose proof (end_times_step f g el n s Hwf Hinv Htree ltac:(lia) Hsorted Hok) as Hok1.
  destruct (rescope_step f g (count el) n s) as [s1|s1] eqn:HX; [|done].
  cbn [bind_outcome outcome_state] in *.
  pose proof (tree_inv_step f g el n s s1 Hwf Hinv Htree ltac:(lia) HX) as Htree1.
  apply (IH (Z.succ n) s1); try done; lia.
Qed.

Lemma resort_sorted (el : EventList) :
  list_wf el →
  ∀ i j, 0 ≤ i → i ≤ j → j < count (resortEvents_ el) →
    field (eventData (resortEvents_ el)) i EventStruct.TIME
    ≤ field (eventData (resortEvents_ el)) j EventStruct.TIME.
Proof.
  intros Hwf i j Hi Hij Hj. destruct (resort_fields el) as (Hc & _).
  destruct (decide (i = j)) as [->|Hne]; [lia|].
  pose proof (rescope_resort_sorted 0 el Hwf i j Hi ltac:(lia) ltac:(lia)) as Hs.
  unfold field, cell in *. revert Hs. es.
  rewrite !(rescope_keeps_id_time 0 (resortEvents_ el)); try done.
  - by apply resort_wf.
  - right. by apply cell_mod.
  - by apply resort_wf.
  - right. by apply cell_mod.
Qed.

Lemma resort_end_times (el : EventList) :
  list_wf el → end_times_ok (count el) (eventData el) →
  end_times_ok (count el) (eventData (resortEvents_ el)).
Proof.
  intros Hwf Hok m Hm.
  pose proof (sortIndex_length (eventData el) (count el)) as Hlen.
  pose proof (lwf_count el Hwf) as Hc.
  destruct (lookup_lt_is_Some_2 (sortIndex (eventData el) (count el)) (Z.to_nat m))
    as [a Ha]; [lia|].
  assert (Har : 0 ≤ a < count el).
  { apply sortIndex_elem with (d := eventData el). by eapply list_elem_of_lookup_2. }
  pose proof (resort_record el (Z.to_nat m) a 4 Hwf Ha ltac:(lia)) as H4.
  pose proof (resort_record el (Z.to_nat m) a 9 Hwf Ha ltac:(lia)) as H9.
  rewrite Z2Nat.id in H4, H9 by lia.
  rewrite decide_False in H4 by lia. rewrite decide_False in H9 by lia.
  unfold field, cell. es. rewrite H4, H9. apply (Hok a Har).
Qed.

Lemma reachable_end_times (el : EventList) :
  list_reachable el → end_times_ok (count el) (eventData el).
Proof.
  induction 1 as [T HT|el ty time args Hel IH Hb|f el Hel IH|el ty Hel IH].
  - intros m Hm. cbn in Hm. lia.
  - pose proof (list_reachable_wf el Hel) as Hwf.
    rewrite insert_count. intros m Hm.
    destruct (grown_spec el Hwf) as (_ & _ & _ & _ & Hold & Hslack).
    destruct (decide (m < count el)) as [Hlt|Hge].
    + unfold field, cell. es.
      rewrite !(insert_get el ty time args _ Hwf Hb).
      rewrite !decide_False by (lia || (intros [? _]; lia)).
      rewrite !Hold by lia.
      pose proof (IH m ltac:(lia)) as Hm'. unfold field, cell in Hm'. revert Hm'. es. done.
    + assert (m = count el) as -> by lia. left.
      unfold field, cell. es.
      rewrite (insert_get el ty time args _ Hwf Hb).
      rewrite !decide_False by (lia || (intros [? _]; lia)).
      destruct (ta_get (grown el).2 _) as [v|] eqn:Ev; [|done].
      apply (Hslack _ v) in Ev; [done|lia].
  - pose proof (list_reachable_wf el Hel) as Hwf.
    pose proof (resort_wf el Hwf) as Hwf0.
    destruct (rescope_fields f (resortEvents_ el)) as (-> & _ & _ & -> & _).
    destruct (resort_fields el) as (Hc & _).
    pose proof (lwf_count _ Hwf0) as Hc0.
    pose proof (end_times_loop f (generic_ids (eventTypeTable (resortEvents_ el)))
      (resortEvents_ el) (Z.to_nat (count (resortEvents_ el))) 0
      (rescope_init (resortEvents_ el)) Hwf0 (rescope_init_inv _ Hwf0)
      (tree_inv_init _) ltac:(lia) ltac:(lia) (resort_sorted el Hwf)) as Hl.
    rewrite Z2Nat.id in Hl by lia. apply Hl.
    cbn [r_eventData rescope_init]. rewrite Hc. by apply resort_end_times.
  - done.
Qed.

(** X10. In every list that inserts and rebuilds make of an empty one,
    whether the rebuilds returned or threw, a record that is a scope (its
    END_TIME is set) does not end before it begins: its total duration is
    not negative. *)
Theorem scope_durations_not_negative (el : EventList) (m : Z) :
  list_reachable el → 0 ≤ m < count el →
  let it := getEvent el m in
  isScope it = true →
  (getTime it <= getEndTime it)%Q ∧ (0 <= getTotalDuration it)%Q.
Proof.
  intros Hel Hm it Hscope.
  destruct (getEvent_fields el m) as (He & _ & _ & Ho); [lia|].
  fold it in He, Ho.
  destruct (reachable_end_times el Hel m Hm) as [H0|Hle].
  - unfold isScope, it_cell in Hscope. rewrite He, Ho in Hscope.
    unfold field in H0. revert H0 Hscope. es. intros ->. done.
  - unfold getTime, getEndTime, getTotalDuration, it_cell. rewrite He, Ho.
    unfold field in Hle. revert Hle. es. intros Hle.
    unfold Qle. simpl. lia.
Qed.

(** X10, witness: the scope [A] of scenario S3. *)
Lemma scope_durations_not_negative_witness :
  let el := rebuilt 4 0 (system_time_events 0) in
  (0 <= getTotalDuration (getEvent el 0))%Q.
Proof.
  intros el.
  assert (Hel : list_reachable el).
  { unfold el, rebuilt. rewrite rebuild_list. apply lreach_rebuild.
    apply insert_all_reachable; [|vm_compute; reflexivity].
    apply lreach_new, example_table_reachable. }
  assert (Hm : 0 ≤ 0 < count el) by (vm_compute; split; [discriminate|reflexivity]).
  assert (Hs : isScope (getEvent el 0) = true) by (vm_compute; reflexivity).
  exact (proj2 (scope_durations_not_negative el 0 Hel Hm Hs)).
Defined.

(** ** The last event time *)

Lemma resort_last_time (el : EventList) :
  0 < count el →
  lastEventTime_ (resortEvents_ el)
  = let d := eventData (resortEvents_ el) in
    let n := count el - 1 in
    if negb (field d n EventStruct.END_TIME =? 0)
    then (field d n EventStruct.END_TIME # 1000)%Q
    else (field d n EventStruct.TIME # 1000)%Q.
Proof.
  intros Hc. rewrite resort_eventData. unfold resortEvents_.
  destruct (Z.eqb_spec (count el) 0); [lia|].
  cbn [lastEventTime_]. unfold isScope, getTime, getEndTime, it_cell, new_EventIterator, seek.
  cbn [lastIndex_ eventList_ offset_ eventData].
  destruct (Z.ltb_spec 0 0); [lia|].
  destruct (Z.gtb_spec 0 (count el - 1)); [lia|]. cbn [lastIndex_ eventList_ offset_ eventData].
  destruct (Z.ltb_spec (count el - 1) 0); [lia|].
  destruct (Z.gtb_spec (count el - 1) (count el - 1)); [lia|].
  cbn [lastIndex_ eventList_ offset_ eventData]. done.
Qed.

(** X11. After a rebuild of a list that is not empty, whether it returned
    or threw, no record is later than the last event time. *)
Theorem last_event_time_is_greatest {L} `{IAncillaryList L} (EventFlag_SYSTEM_TIME : Z)
    (el : EventList) (lists : list L) (i : Z) :
  list_reachable el → 0 ≤ i < count el →
  let el' := (outcome_state (rebuild EventFlag_SYSTEM_TIME el lists)).1 in
  (getTime (getEvent el' i) <= getLastEventTime el')%Q.
Proof.
  intros Hel Hi el'. subst el'. rewrite rebuild_list.
  set (f := EventFlag_SYSTEM_TIME).
  pose proof (list_reachable_wf el Hel) as Hwf.
  pose proof (resort_wf el Hwf) as Hwf0.
  destruct (resort_fields el) as (Hc0 & _).
  destruct (rescope_keeps_times f (resortEvents_ el)) as [_ Hlast].
  unfold getLastEventTime. rewrite Hlast, resort_last_time by lia. cbv zeta.
  destruct (getEvent_fields (outcome_state (rescopeEvents_ f (resortEvents_ el))) i)
    as (He & _ & _ & Ho); [lia|].
  unfold getTime, it_cell. rewrite He, Ho.
  change (cell ?d (i * 12 + EventStruct.TIME)) with (field d i EventStruct.TIME).
  assert (Hti : field (eventData (outcome_state (rescopeEvents_ f (resortEvents_ el)))) i
                  EventStruct.TIME
                = field (eventData (resortEvents_ el)) i EventStruct.TIME).
  { unfold field, cell. rewrite rescope_keeps_id_time; [done|done|].
    right. es. by apply cell_mod. }
  rewrite Hti.
  pose proof (resort_sorted el Hwf i (count el - 1) ltac:(lia) ltac:(lia) ltac:(lia))
    as Hsorted.
  pose proof (resort_end_times el Hwf (reachable_end_times el Hel) (count el - 1)
    ltac:(lia)) as Hend.
  destruct (Z.eqb_spec (field (eventData (resortEvents_ el)) (count el - 1)
              EventStruct.END_TIME) 0) as [E|E]; cbn [negb]; unfold Qle; simpl; lia.
Qed.

(** X11, witness: scenario S2 of the spec. *)
Lemma last_event_time_is_greatest_witness :
  let el := insert_all (new_EventList (example_table 0)) out_of_order_events in
  let el' := (outcome_state (rebuild 4 el ([] : list FrameList))).1 in
  (getTime (getEvent el' 0) <= getLastEventTime el')%Q.
Proof.
  intros el el'.
  assert (Hel : list_reachable el).
  { apply insert_all_reachable; [|vm_compute; reflexivity].
    apply lreach_new, example_table_reachable. }
  assert (Hi : 0 ≤ 0 < count el) by (vm_compute; split; [discriminate|reflexivity]).
  exact (last_event_time_is_greatest 4 el ([] : list FrameList) 0 Hel Hi).
Defined.

(** ** The next sibling of the last record *)

Lemma rescope_loop_app f g cnt ns1 ns2 s :
  rescope_loop f g cnt (ns1 ++ ns2) s
  = bind_outcome (rescope_loop f g cnt ns1 s) (rescope_loop f g cnt ns2).
Proof.
  revert s. induction ns1 as [|n ns1 IH]; intros s; [done|].
  cbn [app rescope_loop]. destruct (rescope_step f g cnt n s) as [s1|s1]; [|done].
  cbn [bind_outcome]. apply IH.
Qed.

(** X12. When a rebuild of a list that is not empty returns, the
    NEXT_SIBLING cell of the last record is 0: [nextSibling] on the last
    record does not end the iteration but moves the iterator back to
    record 0. *)
Theorem last_sibling_wraps {L} `{IAncillaryList L} (EventFlag_SYSTEM_TIME : Z)
    (el el' : EventList) (lists lists' : list L) (it : EventIterator) :
  list_reachable el → 0 < count el →
  rebuild EventFlag_SYSTEM_TIME el lists = Normal (el', lists') →
  eventList_ it = el' → index_ it = count el' - 1 →
  offset_ it = index_ it * EventStruct.STRUCT_SIZE → 0 ≤ lastIndex_ it →
  ta_get (eventData el') (Some (offset_ it + EventStruct.NEXT_SIBLING)) = Some 0 ∧
  nextSibling it = Some (seek it 0) ∧
  index_ (seek it 0) = 0 ∧ offset_ (seek it 0) = 0 ∧ done (seek it 0) = false.
Proof.
  intros Hwf%list_reachable_wf Hpos Hreb He Hi Ho Hlast.
  set (f := EventFlag_SYSTEM_TIME) in *.
  destruct (rebuild_returns _ _ _ _ _ Hreb) as (sf & Hloop & Hd & Hc & _).
  pose proof (resort_wf el Hwf) as Hwf0.
  destruct (resort_fields el) as (Hc0 & _).
  set (g := generic_ids (eventTypeTable el)) in *.
  set (el0 := resortEvents_ el) in *.
  replace (count el) with (count el - 1 + 1) in Hloop at 2 by lia.
  rewrite seqZ_app in Hloop by lia. rewrite rescope_loop_app in Hloop.
  pose proof (rescope_loop_inv f g el0 (seqZ 0 (count el0 - 1)) (rescope_init el0)
    Hwf0 (rescope_init_inv _ Hwf0)) as Hinv.
  rewrite Hc0 in Hinv.
  destruct (rescope_loop f g (count el) (seqZ 0 (count el - 1)) (rescope_init el0))
    as [s|s]; [|done].
  cbn [bind_outcome outcome_state] in *.
  assert (Hseq : seqZ (0 + (count el - 1)) 1 = [count el - 1]) by (by rewrite Z.add_0_l).
  rewrite Hseq in Hloop. cbn [rescope_loop] in Hloop.
  assert (Hinv' : rescope_inv el0 s).
  { apply Hinv. apply Forall_forall. intros n Hn%elem_of_seqZ. lia. }
  destruct (step_cells f g (count el) (count el - 1) s) as (_ & _ & _ & Hnext & _);
    [lia| |].
  { rewrite (ri_length el0 s Hinv'). pose proof (lwf_length _ Hwf0).
    destruct (lwf_room _ Hwf0); lia. }
  destruct (rescope_step f g (count el) (count el - 1) s) as [s1|s1]; [|done].
  cbn [bind_outcome outcome_state] in *. injection Hloop as ->.
  assert (Hcell : ta_get (eventData el') (Some (offset_ it + EventStruct.NEXT_SIBLING))
                  = Some 0).
  { rewrite Ho, Hi, Hc, Hd. es. apply Hnext. unfold next_id.
    destruct (Z.ltb_spec (count el - 1) (count el - 1)); [lia|done]. }
  split; [done|]. unfold nextSibling. rewrite He, Hcell.
  split; [done|]. unfold seek, done.
  destruct (Z.ltb_spec 0 0); [lia|].
  destruct (Z.gtb_spec 0 (lastIndex_ it)); [lia|]. cbn [index_ offset_ lastIndex_].
  split; [done|]. split; [done|].
  destruct (Z.gtb_spec 0 (lastIndex_ it)); [lia|done].
Qed.

(** X12, witness: scenario S3 of the spec. *)
Lemma last_sibling_wraps_witness :
  let el := insert_all (new_EventList (example_table 0)) (system_time_events 0) in
  let r := outcome_state (rebuild 4 el ([] : list FrameList)) in
  nextSibling (getEvent r.1 3) = Some (seek (getEvent r.1 3) 0).
Proof.
  intros el r.
  assert (Hel : list_reachable el).
  { apply insert_all_reachable; [|vm_compute; reflexivity].
    apply lreach_new, example_table_reachable. }
  assert (Hpos : 0 < count el) by (vm_compute; reflexivity).
  assert (Hreb : rebuild 4 el ([] : list FrameList) = Normal (r.1, r.2)).
  { vm_compute. reflexivity. }
  destruct (getEvent_fields r.1 3) as (He & Hi0 & Hl0 & Ho0); [lia|].
  assert (Hi : index_ (getEvent r.1 3) = count r.1 - 1).
  { rewrite Hi0. vm_compute. reflexivity. }
  assert (Ho : offset_ (getEvent r.1 3)
               = index_ (getEvent r.1 3) * EventStruct.STRUCT_SIZE).
  { rewrite Ho0, Hi0. reflexivity. }
  assert (Hl : 0 ≤ lastIndex_ (getEvent r.1 3)) by (rewrite Hl0; lia).
  exact (proj1 (proj2 (last_sibling_wraps 4 el r.1 [] r.2 (getEvent r.1 3)
                         Hel Hpos Hreb He Hi Ho Hl))).
Defined.

(** ** The enclosing root scope and time ranges *)

(** The index near a time is the index of a record. *)
Lemma near_index_range f (el : EventList) (time : Q) :
  list_wf el → 0 < count el < 2 ^ 31 →
  let el' := outcome_state (rescopeEvents_ f (resortEvents_ el)) in
  0 ≤ getIndexOfEventNearTime el' time < count el.
Proof.
  intros Hwf Hc el'.
  pose proof (rescope_wf f _ (resort_wf el Hwf)) as Hwf'. fold el' in Hwf'.
  pose proof (rescope_resort_sorted f el Hwf) as Hsorted. cbv zeta in Hsorted.
  fold el' in Hsorted.
  assert (Hcnt : count el' = count el).
  { subst el'. destruct (rescope_fields f (resortEvents_ el)) as (-> & _).
    apply resort_fields. }
  destruct (near_loop_spec (eventData el') (double_mul time 1000) (count el')
              (Z.to_nat (count el')) 0 (count el' - 1)) as (H1 & _); try lia.
  - intros i Hi. apply list_wf_record; [done|lia].
  - intros i j Hi Hij Hj. destruct (decide (i = j)) as [->|Hne]; [lia|].
    apply Hsorted; lia.
  - unfold getIndexOfEventNearTime.
    set (l := near_loop _ _ _ _ _) in *. destruct (Z.eqb_spec l 0); lia.
Qed.

Section RootScope.
Context (d : list Z) (cnt : Z).
Hypothesis Hparent : ∀ m, 0 ≤ m < cnt →
  ∃ p, ta_get d (Some (m * 12 + 2)) = Some p ∧ 0 ≤ p ≤ m.

(** Going up from a record ends on a record that is not behind it. *)
Lemma to_root_le (k : nat) : ∀ i, 0 ≤ i < cnt →
  ∃ r, to_root k d (Some i) = Some r ∧ 0 ≤ r ≤ i.
Proof.
  induction k as [|k IH]; intros i Hi; [exists i; split; [done|lia]|].
  cbn [to_root num_mul num_add]. es.
  destruct (Hparent i Hi) as (p & -> & Hp).
  destruct (IH p) as (r & Hr & Hrp); [lia|]. exists r. split; [done|lia].
Qed.

(** The loop ends within [i + 2] rounds, on the index near the time or on
    a record before it that has an end, which is not before the time. *)
Lemma root_loop_spec (t : double) (nearId : Z) (fuel : nat) : ∀ i,
  -1 ≤ i ≤ nearId → 0 ≤ nearId < cnt → i + 1 < Z.of_nat fuel →
  ∃ r, root_loop fuel d t nearId (Some i) = Some (Some r) ∧
       0 ≤ r ≤ nearId ∧
       (r = nearId ∨
        ∃ e, ta_get d (Some (r * 12 + 9)) = Some e ∧ e ≠ 0 ∧
             num_lt_double (Some e) t = false).
Proof.
  induction fuel as [|fuel IH]; intros i Hi Hn Hfuel; [lia|].
  cbn [root_loop num_geb0].
  destruct (Z.leb_spec 0 i) as [Hpos|Hneg].
  2:{ exists nearId. split; [done|]. split; [lia|by left]. }
  cbn [num_mul num_add]. es.
  destruct (to_root_le (Z.to_nat (default 0 (ta_get d (Some (i * 12 + 3))))) i)
    as (r & -> & Hr); [lia|].
  cbn [num_mul num_add num_sub]. es.
  destruct (ta_get d (Some (r * 12 + 9))) as [e|] eqn:He.
  - destruct (truthy (Some e)) eqn:Htr.
    + destruct (num_lt_double (Some e) t) eqn:Hcmp.
      * exists nearId. split; [done|]. split; [lia|by left].
      * exists r. split; [done|]. split; [lia|]. right. exists e.
        split; [done|]. split; [|done].
        simpl in Htr. by apply negb_true_iff, Z.eqb_neq in Htr.
    + apply (IH (r - 1)); lia.
  - cbn [truthy]. apply (IH (r - 1)); lia.
Qed.
End RootScope.

(** The parents in a list that a rebuild has returned. *)
Lemma rebuilt_parents {L} `{IAncillaryList L} f (el el' : EventList)
    (lists lists' : list L) :
  list_wf el → rebuild f el lists = Normal (el', lists') →
  ∀ m, 0 ≤ m < count el →
    ∃ p, ta_get (eventData el') (Some (m * 12 + 2)) = Some p ∧ 0 ≤ p ≤ m.
Proof.
  intros Hwf Hreb m Hm.
  destruct (rebuild_returns _ _ _ _ _ Hreb) as (sf & Hloop & Hd & Hc & Hmax).
  pose proof (resort_wf el Hwf) as Hwf0.
  destruct (resort_fields el) as (Hc0 & _).
  pose proof (lwf_count el Hwf) as Hcnt.
  pose proof (tree_inv_loop f (generic_ids (eventTypeTable el))
    (resortEvents_ el) (Z.to_nat (count el)) 0 (rescope_init (resortEvents_ el)) sf
    Hwf0 (rescope_init_inv _ Hwf0) (tree_inv_init _)) as Htree.
  rewrite Hc0, Z2Nat.id in Htree by lia.
  specialize (Htree ltac:(lia) ltac:(lia) Hloop).
  destruct (ti_records _ _ Htree m) as (dm & pm & Hdm & Hpm & Hb & H0 & H1 & H2); [lia|].
  exists pm. rewrite Hd. split; [exact Hpm|]. lia.
Qed.

Lemma root_search_result {L} `{IAncillaryList L} f
    (el el' : EventList) (lists lists' : list L) (time : Q) (fuel : nat) :
  list_wf el → 0 < count el < 2 ^ 31 →
  rebuild f el lists = Normal (el', lists') →
  count el < Z.of_nat fuel →
  count el' = count el ∧
  0 ≤ getIndexOfEventNearTime el' time < count el ∧
  ∃ r, getIndexOfRootScopeIncludingTime fuel el' time = Some (Some r) ∧
       0 ≤ r ≤ getIndexOfEventNearTime el' time ∧
       (r = getIndexOfEventNearTime el' time ∨
        ∃ e, ta_get (eventData el') (Some (r * 12 + 9)) = Some e ∧ e ≠ 0 ∧
             num_lt_double (Some e) (double_mul time 1000) = false).
Proof.
  intros Hwf Hc Hreb Hfuel.
  pose proof (near_index_range f el time Hwf Hc) as Hnear.
  pose proof (rebuilt_parents _ _ _ _ _ Hwf Hreb) as Hparent.
  assert (Hel' : el' = outcome_state (rescopeEvents_ f (resortEvents_ el))).
  { rewrite <- rebuild_list with (lists := lists). by rewrite Hreb. }
  cbv zeta in Hnear. rewrite <- Hel' in Hnear.
  assert (Hcnt : count el' = count el).
  { destruct (rebuild_returns _ _ _ _ _ Hreb) as (_ & _ & _ & ? & _). done. }
  split; [done|]. split; [done|].
  unfold getIndexOfRootScopeIncludingTime.
  set (nearId := getIndexOfEventNearTime el' time) in *.
  destruct (Z.eqb_spec nearId 0) as [E|E].
  { exists 0. rewrite E. split; [done|]. split; [lia|by left]. }
  destruct (root_loop_spec (eventData el') (count el) Hparent (double_mul time 1000) nearId
              fuel nearId) as (r & Hr & Hrange & Hres); [lia|lia|lia|].
  exists r. split; [done|]. by split.
Qed.

(** X13. On a list of fewer than 2^31 records that a rebuild has
    returned, the search for the root scope that includes a time ends
    within [count + 1] rounds of its loop.  It returns the index near the
    time, or the index of a record before it that has an end, and the
    END_TIME of that record is not below the product [time * 1000] as the
    code computes it, a double. *)
Theorem root_scope_search_ends {L} `{IAncillaryList L} (EventFlag_SYSTEM_TIME : Z)
    (el el' : EventList) (lists lists' : list L) (time : Q) (fuel : nat) :
  list_reachable el → 0 < count el < 2 ^ 31 →
  rebuild EventFlag_SYSTEM_TIME el lists = Normal (el', lists') →
  count el < Z.of_nat fuel →
  ∃ r, getIndexOfRootScopeIncludingTime fuel el' time = Some (Some r) ∧
       0 ≤ r ≤ getIndexOfEventNearTime el' time ∧
       getIndexOfEventNearTime el' time < count el' ∧
       (r = getIndexOfEventNearTime el' time ∨
        (isScope (getEvent el' r) = true ∧
         num_lt_double (Some (it_cell (getEvent el' r) EventStruct.END_TIME))
           (double_mul time 1000) = false)).
Proof.
  intros Hwf%list_reachable_wf Hc Hreb Hfuel.
  destruct (root_search_result _ _ _ _ _ time fuel Hwf Hc Hreb Hfuel)
    as (Hcnt & Hnear & r & Hr & Hrange & Hres).
  exists r. split; [done|]. split; [done|]. split; [lia|].
  destruct Hres as [->|(e & He & Hne & Hle)]; [by left|right].
  destruct (getEvent_fields el' r) as (Hev & _ & _ & Ho); [lia|].
  assert (Hcell : it_cell (getEvent el' r) EventStruct.END_TIME = e).
  { apply it_cell_get. rewrite Hev, Ho. done. }
  unfold isScope. rewrite Hcell. split; [|done].
  by apply negb_true_iff, Z.eqb_neq.
Qed.

(** X13, witness: a scope from 0 to 1 μs, searched at 0.001 ms, the time
    of its end.  The product 0.001 * 1000 is the double 1, and the search
    finds the scope. *)
Lemma root_scope_search_ends_witness :
  let el := insert_all (new_EventList (example_table 0)) short_scope_events in
  let r := outcome_state (rebuild 4 el ([] : list FrameList)) in
  let time := literal (1 # 1000) in
  getIndexOfRootScopeIncludingTime 5 r.1 time = Some (Some 0) ∧
  ∃ i, getIndexOfRootScopeIncludingTime 5 r.1 time = Some (Some i) ∧
       0 ≤ i ≤ getIndexOfEventNearTime r.1 time.
Proof.
  intros el r time.
  assert (Hel : list_reachable el).
  { apply insert_all_reachable; [|vm_compute; reflexivity].
    apply lreach_new, example_table_reachable. }
  assert (Hc : 0 < count el < 2 ^ 31) by (vm_compute; split; reflexivity).
  assert (Hreb : rebuild 4 el ([] : list FrameList) = Normal (r.1, r.2)).
  { vm_compute. reflexivity. }
  assert (Hfuel : count el < Z.of_nat 5) by (vm_compute; reflexivity).
  assert (H0 : getIndexOfRootScopeIncludingTime 5 r.1 time = Some (Some 0))
    by (vm_compute; reflexivity).
  destruct (root_scope_search_ends 4 el r.1 [] r.2 time 5 Hel Hc Hreb Hfuel)
    as (i & Hi & Hr & _).
  split; [exact H0|]. exists i. split; [exact Hi|exact Hr].
Defined.

Lemma beginEventRange_fields (el : EventList) (a b : Z) :
  0 ≤ a ≤ b →
  let it := beginEventRange el a b in
  eventList_ it = el ∧ firstIndex_ it = a ∧ lastIndex_ it = b ∧
  index_ it = a ∧ offset_ it = a * 12 ∧ done it = false.
Proof.
  intros Hab it. subst it. unfold beginEventRange, new_EventIterator, seek, done.
  cbn [lastIndex_]. destruct (Z.ltb_spec a 0); [lia|].
  destruct (Z.gtb_spec a b); [lia|]. cbn [index_ lastIndex_].
  repeat split. destruct (Z.gtb_spec a b); [lia|done].
Qed.

(** X14. On a list of fewer than 2^31 records that a rebuild has
    returned, [beginTimeRange] gives an iterator over a range of records
    of the list that is not empty: it starts on its first record, at the
    index near the start time or, from the root scope, at or before it,
    and reaches at least the index near the end time. *)
Theorem beginTimeRange_in_range {L} `{IAncillaryList L} (EventFlag_SYSTEM_TIME : Z)
    (el el' : EventList) (lists lists' : list L) (startTime endTime : Q)
    (opt_startAtRoot : bool) (fuel : nat) :
  list_reachable el → 0 < count el < 2 ^ 31 →
  rebuild EventFlag_SYSTEM_TIME el lists = Normal (el', lists') →
  count el < Z.of_nat fuel →
  ∃ it, beginTimeRange fuel el' startTime endTime opt_startAtRoot = Some it ∧
    eventList_ it = el' ∧
    0 ≤ firstIndex_ it ≤ lastIndex_ it ∧ lastIndex_ it < count el' ∧
    firstIndex_ it ≤ getIndexOfEventNearTime el' startTime ∧
    (opt_startAtRoot = false →
       firstIndex_ it = getIndexOfEventNearTime el' startTime) ∧
    getIndexOfEventNearTime el' endTime ≤ lastIndex_ it ∧
    index_ it = firstIndex_ it ∧ on_record it ∧ done it = false.
Proof.
  intros Hwf%list_reachable_wf Hc Hreb Hfuel.
  destruct (root_search_result _ _ _ _ _ startTime fuel Hwf Hc Hreb Hfuel)
    as (Hcnt & Hs & r & Hr & Hrange & _).
  destruct (root_search_result _ _ _ _ _ endTime fuel Hwf Hc Hreb Hfuel)
    as (_ & He & _).
  unfold beginTimeRange.
  set (ns := getIndexOfEventNearTime el' startTime) in *.
  set (ne := getIndexOfEventNearTime el' endTime) in *.
  assert (Hgen : ∀ a, 0 ≤ a ≤ ns →
    let it := beginEventRange el' a (if ne <? a then a else ne) in
    eventList_ it = el' ∧
    0 ≤ firstIndex_ it ≤ lastIndex_ it ∧ lastIndex_ it < count el' ∧
    firstIndex_ it ≤ ns ∧ firstIndex_ it = a ∧
    ne ≤ lastIndex_ it ∧
    index_ it = firstIndex_ it ∧ on_record it ∧ done it = false).
  { intros a Ha it.
    destruct (beginEventRange_fields el' a (if ne <? a then a else ne))
      as (H1 & H2 & H3 & H4 & H5 & H6).
    { destruct (Z.ltb_spec ne a); lia. }
    fold it in H1, H2, H3, H4, H5, H6. unfold on_record.
    rewrite H1, H2, H3, H4, H5. es.
    destruct (Z.ltb_spec ne a); repeat split; try done; lia. }
  destruct opt_startAtRoot.
  - rewrite Hr. eexists. split; [reflexivity|].
    destruct (Hgen r Hrange) as (H1 & H2 & H3 & H4 & H5 & H6 & H7 & H8 & H9).
    split; [done|]. split; [done|]. split; [done|]. split; [done|].
    split; [done|]. split; [done|]. split; [done|]. by split.
  - eexists. split; [reflexivity|].
    destruct (Hgen ns ltac:(lia)) as (H1 & H2 & H3 & H4 & H5 & H6 & H7 & H8 & H9).
    split; [done|]. split; [done|]. split; [done|]. split; [done|].
    split; [done|]. split; [done|]. split; [done|]. by split.
Qed.

(** X14, witness: the four records of scenario S3. *)
Lemma beginTimeRange_in_range_witness :
  let el := insert_all (new_EventList (example_table 0)) (system_time_events 0) in
  let r := outcome_state (rebuild 4 el ([] : list FrameList)) in
  ∃ it, beginTimeRange 5 r.1 (1 # 5) (2 # 5) true = Some it ∧ eventList_ it = r.1.
Proof.
  intros el r.
  assert (Hel : list_reachable el).
  { apply insert_all_reachable; [|vm_compute; reflexivity].
    apply lreach_new, example_table_reachable. }
  assert (Hc : 0 < count el < 2 ^ 31) by (vm_compute; split; reflexivity).
  assert (Hreb : rebuild 4 el ([] : list FrameList) = Normal (r.1, r.2)).
  { vm_compute. reflexivity. }
  assert (Hfuel : count el < Z.of_nat 5) by (vm_compute; reflexivity).
  destruct (beginTimeRange_in_range 4 el r.1 [] r.2 (1 # 5) (2 # 5) true 5
              Hel Hc Hreb Hfuel) as (it & Hit & He & _).
  exists it. by split.
Defined.

(** ** The frames of a frame list, by number *)

Lemma frames_inv_new : frames_inv new_FrameList.
Proof.
  split; simpl.
  - constructor.
  - intros r Hr. by apply elem_of_nil in Hr.
  - intros k r Hk. by rewrite lookup_empty in Hk.
Qed.

Lemma frames_inv_alter (fl : FrameList) (g : Frame → Frame) (r : nat) :
  (∀ f, number_ (g f) = number_ f) → frames_inv fl →
  frames_inv (mkFrameList (alter g r (frame_objects fl)) (frames_ fl) (frameList_ fl)).
Proof.
  intros Hg [Hnd Hlist Hmap].
  assert (Hobj : ∀ r' f, frame_objects fl !! r' = Some f →
            ∃ f', alter g r (frame_objects fl) !! r' = Some f' ∧
                  number_ f' = number_ f).
  { intros r' f Hf. destruct (decide (r = r')) as [->|Hne].
    - exists (g f). rewrite list_lookup_alter_eq, Hf. by split.
    - exists f. by rewrite list_lookup_alter_ne. }
  split; simpl; [done| |].
  - intros r' Hr'. destruct (Hlist r' Hr') as (f & Hf & Hk).
    destruct (Hobj r' f Hf) as (f' & Hf' & Hn). exists f'. by rewrite Hn.
  - intros k r' Hk. destruct (Hmap k r' Hk) as (Hr' & f & Hf & Hkey).
    split; [done|]. destruct (Hobj r' f Hf) as (f' & Hf' & Hn).
    exists f'. by rewrite Hn.
Qed.

Lemma frames_inv_set (fl1 : FrameList) (r : nat) (i : Z) (it : EventIterator) :
  frames_inv fl1 →
  frames_inv
    (if i =? 0 then
       mkFrameList (alter (λ f, setStartEvent f it) r (frame_objects fl1))
         (frames_ fl1) (frameList_ fl1)
     else if i =? 1 then
       mkFrameList (alter (λ f, setEndEvent f it) r (frame_objects fl1))
         (frames_ fl1) (frameList_ fl1)
     else fl1).
Proof.
  intros Hinv1. repeat case_match; [by apply frames_inv_alter..|done].
Qed.

Lemma frames_inv_handleEvent fl i ty it :
  frames_inv fl → frames_inv (FrameList_handleEvent fl i ty it).
Proof.
  intros Hinv. unfold FrameList_handleEvent.
  set (number := getArgument it "number").
  destruct (obj_get (frames_ fl) (key_of number)) as [[r0|key]|] eqn:Eg;
    [|done|]; cbv zeta; cbn [own_entry fst snd].
  { by apply frames_inv_set. }
  apply obj_get_None in Eg as [Ek _].
  apply frames_inv_set.
  destruct Hinv as [Hnd Hlist Hmap].
  assert (Hvalid : ∀ r, r ∈ frameList_ fl → (r < length (frame_objects fl))%nat).
  { intros r Hr. destruct (Hlist r Hr) as (f & Hf & _).
    by apply lookup_lt_Some in Hf. }
  split; simpl.
  - apply NoDup_app. split; [done|]. split; [|apply NoDup_singleton].
    intros r Hr ->%list_elem_of_singleton. apply Hvalid in Hr. lia.
  - intros r [Hr| ->%list_elem_of_singleton]%elem_of_app.
    + destruct (Hlist r Hr) as (f & Hf & Hk). exists f.
      split; [by apply lookup_app_l_Some|].
      rewrite lookup_insert_ne; [done|]. intros Heq. congruence.
    + exists (new_Frame number). rewrite list_lookup_middle by done.
      split; [done|]. simpl. by rewrite lookup_insert_eq.
  - intros k r Hk. destruct (decide (key_of number = k)) as [<-|Hne].
    + rewrite lookup_insert_eq in Hk. injection Hk as <-.
      split; [apply elem_of_app; right; by apply list_elem_of_singleton|].
      exists (new_Frame number). by rewrite list_lookup_middle.
    + rewrite lookup_insert_ne in Hk by done.
      destruct (Hmap k r Hk) as (Hr & f & Hf & Hkey).
      split; [apply elem_of_app; by left|].
      exists f. split; [by apply lookup_app_l_Some|done].
Qed.

Lemma endRebuild_fold_more (objs : list Frame) (refs : list nat)
    (valid : list nat) (m : gmap string nat) :
  let r := foldl (λ acc n,
                    match objs !! n with
                    | Some frame =>
                        if frame_complete frame then (acc.1 ++ [n], acc.2)
                        else (acc.1, delete (key_of (number_ frame)) acc.2)
                    | None => acc
                    end) (valid, m) refs in
  (NoDup (valid ++ refs) → NoDup r.1) ∧
  (∀ k, r.2 !! k = None ∨ r.2 !! k = m !! k) ∧
  (∀ k, (∀ n f, n ∈ refs → objs !! n = Some f → frame_complete f = false →
           key_of (number_ f) ≠ k) →
        r.2 !! k = m !! k).
Proof.
  revert valid m. induction refs as [|n refs IH]; intros valid m; simpl.
  { rewrite app_nil_r. split; [done|]. split; [by right|done]. }
  assert (Hnd : NoDup (valid ++ n :: refs) → NoDup (valid ++ refs)).
  { intros (Hv & Hdis & Hr%NoDup_cons)%NoDup_app.
    apply NoDup_app. split; [done|]. split; [|apply Hr].
    intros x Hx Hx'. apply (Hdis x Hx). by right. }
  destruct (objs !! n) as [frame|] eqn:E.
  - destruct (frame_complete frame) eqn:Ec; simpl.
    + destruct (IH (valid ++ [n]) m) as (H1 & H2 & H3).
      split; [|split; [done|]].
      * intros Hnd'. apply H1. by rewrite <- app_assoc.
      * intros k Hk. apply H3. intros n' f Hn'. apply Hk. by right.
    + destruct (IH valid (delete (key_of (number_ frame)) m)) as (H1 & H2 & H3).
      split; [auto|]. split.
      * intros k. destruct (H2 k) as [?|Hk]; [by left|].
        rewrite Hk, lookup_delete. case_decide; [by left|by right].
      * intros k Hk. rewrite H3.
        -- apply lookup_delete_ne. apply (Hk n frame); [by left|done|done].
        -- intros n' f Hn'. apply Hk. by right.
  - destruct (IH valid m) as (H1 & H2 & H3).
    split; [auto|]. split; [done|].
    intros k Hk. apply H3. intros n' f Hn'. apply Hk. by right.
Qed.

Lemma frames_inv_endRebuild fl : frames_inv fl → frames_inv (FrameList_endRebuild fl).
Proof.
  intros [Hnd Hlist Hmap]. unfold FrameList_endRebuild.
  destruct (endRebuild_fold (frame_objects fl) (frameList_ fl) [] (frames_ fl))
    as (Hin & _ & Hdel).
  destruct (endRebuild_fold_more (frame_objects fl) (frameList_ fl) [] (frames_ fl))
    as (Hnd' & Hsub & Hkeep).
  cbv zeta in *. set (r := foldl _ _ _) in *.
  assert (Hin' : ∀ n, n ∈ r.1 ↔ n ∈ frameList_ fl ∧
            ∃ f, frame_objects fl !! n = Some f ∧ frame_complete f = true).
  { intros n. rewrite Hin. split; [intros [Hn|?]; [by apply elem_of_nil in Hn|done]|auto]. }
  split; simpl.
  - by apply Hnd'.
  - intros n (Hn & f & Hf & Hc)%Hin'.
    destruct (Hlist n Hn) as (f' & Hf' & Hk). simplify_eq.
    exists f. split; [done|]. rewrite Hkeep; [done|].
    intros n' f' Hn' Hf' Hc' Heq.
    destruct (Hlist n' Hn') as (f'' & Hf'' & Hk'). simplify_eq.
    rewrite Heq in Hk'. congruence.
  - intros k n Hk.
    assert (Hk0 : frames_ fl !! k = Some n).
    { destruct (Hsub k) as [Hnone|Heq]; congruence. }
    destruct (Hmap k n Hk0) as (Hn & f & Hf & Hkey).
    split; [|by exists f].
    apply Hin'. split; [done|]. exists f. split; [done|].
    destruct (frame_complete f) eqn:Ec; [done|].
    rewrite <- Hkey, (Hdel n f Hn Hf Ec) in Hk. done.
Qed.

Lemma frames_reachable_inv fl : frames_reachable fl → frames_inv fl.
Proof.
  induction 1 as [|fl i ty it _ IH|fl _ IH].
  - apply frames_inv_new.
  - by apply frames_inv_handleEvent.
  - by apply frames_inv_endRebuild.
Qed.

Lemma omap_valid {A B} (g : A → option B) (l : list A) :
  (∀ x, x ∈ l → is_Some (g x)) → length (omap g l) = length l.
Proof.
  induction l as [|x l IH]; intros Hl; [done|]. simpl.
  destruct (Hl x) as [y ->]; [by left|]. simpl. f_equal. apply IH.
  intros z Hz. apply Hl. by right.
Qed.

(** X15. The map by number and the array of frames of a frame list always
    describe the same frames: every reference of the array is to a frame,
    the frames that [getFrame] gives are frames that [getAllFrames] has,
    under their own number, it gives each of them, and no two frames of
    the array have the same number.  What [getFrame] gives and is not a
    frame is the property of [Object.prototype] of the name asked for. *)
Theorem frames_by_number (fl : FrameList) :
  frames_reachable fl →
  length (FrameList_getAllFrames fl) = length (frameList_ fl) ∧
  (∀ number f, FrameList_getFrame fl number = Some (Own f) →
     f ∈ FrameList_getAllFrames fl ∧ key_of (number_ f) = key_of number) ∧
  (∀ f, f ∈ FrameList_getAllFrames fl →
     FrameList_getFrame fl (number_ f) = Some (Own f)) ∧
  NoDup ((λ f, key_of (number_ f)) <$> FrameList_getAllFrames fl) ∧
  (∀ number key, FrameList_getFrame fl number = Some (Inherited key) →
     key = key_of number ∧ key ∈ Object_prototype ∧
     ∀ f, f ∈ FrameList_getAllFrames fl → key_of (number_ f) ≠ key).
Proof.
  intros [Hnd Hlist Hmap]%frames_reachable_inv.
  unfold FrameList_getAllFrames, FrameList_getFrame.
  split; [|split; [|split; [|split]]].
  - apply omap_valid. intros r Hr. destruct (Hlist r Hr) as (f & -> & _). eauto.
  - intros number f Hf.
    destruct (obj_get (frames_ fl) (key_of number)) as [[r|key]|] eqn:Ek;
      [|done|done].
    apply obj_get_Own in Ek.
    destruct (Hmap _ _ Ek) as (Hr & f' & Hf' & Hkey).
    rewrite Hf' in Hf. injection Hf as <-.
    split; [|done]. apply list_elem_of_omap. eauto.
  - intros f (r & Hr & Hf)%list_elem_of_omap.
    destruct (Hlist r Hr) as (f' & Hf' & Hk). simplify_eq.
    by rewrite (obj_get_own _ _ _ Hk), Hf.
  - revert Hnd Hlist. clear Hmap. generalize (frameList_ fl).
    induction l as [|r l IH]; intros Hnd Hlist; [constructor|].
    apply NoDup_cons in Hnd as [Hr Hnd].
    destruct (Hlist r) as (f & Hf & Hk); [by left|].
    simpl. rewrite Hf. simpl.
    apply NoDup_cons. split.
    + intros (f' & Heq & (r' & Hr' & Hf')%list_elem_of_omap)%list_elem_of_fmap.
      destruct (Hlist r') as (f'' & Hf'' & Hk'); [by right|]. simplify_eq.
      rewrite Heq in Hk. rewrite Hk in Hk'. by simplify_eq.
    + apply IH; [done|]. intros r' Hr'. apply Hlist. by right.
  - intros number key Hf.
    destruct (obj_get (frames_ fl) (key_of number)) as [[r|key']|] eqn:Ek;
      [|injection Hf as ->|done].
    { by destruct (frame_objects fl !! r). }
    apply obj_get_Inherited in Ek as (Hnone & Hin & ->).
    split; [done|]. split; [done|].
    intros f (r & Hr & Hf)%list_elem_of_omap Hkey.
    destruct (Hlist r Hr) as (f' & Hf' & Hk). simplify_eq.
    rewrite Hkey in Hk. congruence.
Qed.

(** X15, witness: the frame list of scenario S4, which keeps frame 1. *)
Lemma frames_by_number_witness :
  let el := rebuilt 4 0 frame_events in
  let fl :=
    FrameList_endRebuild
      (FrameList_handleEvent
         (FrameList_handleEvent
            (FrameList_handleEvent new_FrameList 0 ty_frameStart (getEvent el 0))
            1 ty_frameEnd (getEvent el 1))
         0 ty_frameStart (getEvent el 2)) in
  let f := mkFrame (VNum 1) (Some 0) (Some 1) (1000 # 1000) (17000 # 1000) in
  FrameList_getFrame fl (VNum 1) = Some (Own f) ∧
  f ∈ FrameList_getAllFrames fl ∧
  FrameList_getFrame fl (number_ f) = Some (Own f) ∧
  FrameList_getFrame fl (VNum 2) = None.
Proof.
  intros el fl f.
  assert (Hfl : frames_reachable fl).
  { apply frames_end. do 3 apply frames_handle. apply frames_new. }
  assert (Hf : FrameList_getFrame fl (VNum 1) = Some (Own f))
    by (vm_compute; reflexivity).
  assert (Hnone : FrameList_getFrame fl (VNum 2) = None)
    by (vm_compute; reflexivity).
  pose proof (frames_by_number fl Hfl) as Hthm.
  pose proof (proj1 (proj1 (proj2 Hthm) (VNum 1) f Hf)) as Hin.
  exact (conj Hf (conj Hin (conj (proj1 (proj2 (proj2 Hthm)) f Hin) Hnone))).
Defined.

(** ** A leave without a scope *)

Lemma table_wf_id_inj (T : EventTypeTable) (nm1 nm2 : string) (t1 t2 : EventType) :
  table_wf T → getByName T nm1 = Some (Own t1) → getByName T nm2 = Some (Own t2) →
  id t1 = id t2 → nm1 = nm2.
Proof.
  intros Hwf H1%obj_get_Own H2%obj_get_Own Hid.
  destruct (wf_by_name T Hwf nm1 t1 H1) as [<- Hi1].
  destruct (wf_by_name T Hwf nm2 t2 H2) as [<- Hi2].
  rewrite Hid in Hi1. congruence.
Qed.

Lemma table_wf_id_pos (T : EventTypeTable) (nm : string) (ty : EventType) :
  table_wf T → getByName T nm = Some (Own ty) → 1 ≤ id ty.
Proof.
  intros Hwf Hty%obj_get_Own. destruct (wf_by_name T Hwf nm ty Hty) as [_ Hi].
  apply (wf_ids T Hwf). eauto.
Qed.

(** X16. When the record that the sort puts first is a [wtf.scope#leave],
    there is no scope to leave: the re-scope pass reads the type of the
    scope at [typeStack[-1]], and [rebuild] throws before it rebuilds the
    ancillary lists. *)
Theorem stray_leave_throws {L} `{IAncillaryList L} (EventFlag_SYSTEM_TIME : Z)
    (el : EventList) (lists : list L) (leave : EventType) :
  list_reachable el → 0 < count el →
  getByName (eventTypeTable el) "wtf.scope#leave" = Some (Own leave) →
  it_cell (getEvent (resortEvents_ el) 0) EventStruct.TYPE = id leave →
  ∃ el', rebuild EventFlag_SYSTEM_TIME el lists = Throw (el', lists) ∧
         count el' = count el.
Proof.
  intros Hel Hpos Hleave Hty.
  pose proof (list_reachable_wf el Hel) as Hwf.
  pose proof (list_reachable_table_wf el Hel) as HT.
  pose proof (resort_wf el Hwf) as Hwf0.
  destruct (resort_fields el) as (Hc0 & _ & HT0 & _).
  set (f := EventFlag_SYSTEM_TIME).
  set (g := generic_ids (eventTypeTable el)).
  set (s := rescope_init (resortEvents_ el)).
  assert (Hcell : rd s (0 * 12 + 1) = Some (id leave)).
  { destruct (list_wf_record (resortEvents_ el) 1 Hwf0) as [v Hv]; [lia|].
    destruct (getEvent_fields (resortEvents_ el) 0) as (He & _ & _ & Ho); [lia|].
    assert (Hv' : ta_get (eventData (resortEvents_ el)) (Some (0 * 12 + 1)) = Some v)
      by exact Hv.
    unfold it_cell, cell in Hty. rewrite He, Ho in Hty. revert Hty. es.
    rewrite Hv'. cbn [default]. intros <-. exact Hv'. }
  assert (Hkind : kind_of g (rd s (0 * 12 + 1)) = KLeave).
  { rewrite Hcell. unfold kind_of, g, generic_ids. cbn [scopeEnterId scopeLeaveId].
    rewrite Hleave. cbn [own_entry id_or_minus_one num_eqb].
    pose proof (table_wf_id_pos _ _ _ HT Hleave) as Hpos'.
    destruct (getByName (eventTypeTable el) "wtf.scope#enter") as [[enter|key]|] eqn:Ee;
      cbn [own_entry id_or_minus_one].
    - destruct (Z.eqb_spec (id leave) (id enter)) as [Heq|_].
      + by pose proof (table_wf_id_inj _ _ _ _ _ HT Hleave Ee Heq).
      + by rewrite Z.eqb_refl.
    - destruct (Z.eqb_spec (id leave) (-1)); [lia|]. by rewrite Z.eqb_refl.
    - destruct (Z.eqb_spec (id leave) (-1)); [lia|]. by rewrite Z.eqb_refl. }
  assert (Hstep : ∃ s', rescope_step f g (count el) 0 s = Throw s').
  { eexists. apply Step_fun. apply step_leave_throw; [done|done|].
    cbn [typeStack stackTop s rescope_init]. apply lookup_empty. }
  destruct Hstep as [s' Hstep].
  unfold rebuild, rescopeEvents_. rewrite Hc0, HT0. fold g s.
  rewrite seqZ_cons by lia. cbn [rescope_loop]. rewrite Hstep. cbn [bind_outcome].
  eexists. split; [reflexivity|]. cbn [count]. done.
Qed.

(** X16, witness: a leave before anything else. *)
Lemma stray_leave_throws_witness :
  let el := insert_all (new_EventList (example_table 0))
              [mkEvent ty_leave 5 None; mkEvent ty_X 7 None] in
  ∃ el', rebuild 4 el ([] : list FrameList) = Throw (el', []) ∧ count el' = count el.
Proof.
  intros el.
  assert (Hel : list_reachable el).
  { apply insert_all_reachable; [|vm_compute; reflexivity].
    apply lreach_new, example_table_reachable. }
  assert (Hpos : 0 < count el) by (vm_compute; reflexivity).
  assert (Hleave : getByName (eventTypeTable el) "wtf.scope#leave"
                   = Some (Own ty_leave)).
  { vm_compute. reflexivity. }
  assert (Hty : it_cell (getEvent (resortEvents_ el) 0) EventStruct.TYPE = id ty_leave).
  { vm_compute. reflexivity. }
  exact (stray_leave_throws 4 el [] ty_leave Hel Hpos Hleave Hty).
Defined.

Lemma sum_counts_ext (objs objs' : list EventDataEntry) (refs : list nat) :
  (∀ r, r ∈ refs → objs' !! r = objs !! r) →
  sum_counts objs' refs = sum_counts objs refs.
Proof.
  unfold sum_counts. induction refs as [|r refs IH]; intros Hsame; [reflexivity|].
  simpl. rewrite Hsame by apply list_elem_of_here.
  rewrite IH; [reflexivity|].
  intros r' Hr'. apply Hsame. by apply list_elem_of_further.
Qed.

Lemma sum_counts_snoc (objs : list EventDataEntry) (refs : list nat) (r : nat) :
  sum_counts objs (refs ++ [r])
  = sum_counts objs refs + from_option EventDataEntry_getCount 0 (objs !! r).
Proof.
  unfold sum_counts. induction refs as [|r' refs IH]; simpl; [lia|].
  rewrite IH. lia.
Qed.

Lemma sum_counts_alter (f : EventDataEntry → EventDataEntry)
    (objs : list EventDataEntry) (refs : list nat) (r : nat) (e : EventDataEntry) :
  NoDup refs → r ∈ refs → objs !! r = Some e →
  sum_counts (alter f r objs) refs
  = sum_counts objs refs + (EventDataEntry_getCount (f e) - EventDataEntry_getCount e).
Proof.
  intros Hnd Hin He. induction Hnd as [|r' refs Hnotin Hnd IH].
  - by apply elem_of_nil in Hin.
  - change (sum_counts ?o (r' :: refs))
      with (from_option EventDataEntry_getCount 0 (o !! r') + sum_counts o refs).
    destruct (decide (r = r')) as [-> | Hne].
    + rewrite list_lookup_alter_eq, He. simpl.
      rewrite (sum_counts_ext objs); [lia|].
      intros r Hr. apply list_lookup_alter_ne. intros ->. contradiction.
    + rewrite list_lookup_alter_ne by done.
      apply elem_of_cons in Hin as [Hin | Hin]; [contradiction|].
      rewrite (IH Hin). lia.
Qed.

Lemma appendEvent_counts (e : EventDataEntry) (it : EventIterator) :
  EventDataEntry_getCount (EventDataEntry_appendEvent e it)
  = EventDataEntry_getCount e + 1.
Proof. by destruct e. Qed.

Section StatisticsFacts.
Variables EventFlag_INTERNAL EventFlag_BUILTIN : Z.
Variable opt_filter : option (EventIterator → bool).

Local Abbreviation stats_event' :=
  (stats_event EventFlag_INTERNAL EventFlag_BUILTIN opt_filter).

Lemma stats_inv_entry (b : StatsBuild) (type : EventType) (it : EventIterator) :
  stats_inv b →
  0 ≤ sb_filteredEventCount b →
  let found := stats_entry b type it in
  NoDup (sb_list found.2) ∧
  (∀ r, r ∈ sb_list found.2 → is_Some (sb_objects found.2 !! r)) ∧
  (∀ i r, sb_tableById found.2 !! i = Some r → r ∈ sb_list found.2) ∧
  sum_counts (sb_objects found.2) (sb_list found.2) = sb_filteredEventCount b ∧
  sb_filteredEventCount found.2 = sb_filteredEventCount b ∧
  found.1 ∈ sb_list found.2 ∧
  (∀ r e, r ∈ sb_list found.2 → r ≠ found.1 →
     sb_objects found.2 !! r = Some e → 1 ≤ EventDataEntry_getCount e) ∧
  (∃ e, sb_objects found.2 !! found.1 = Some e ∧ 0 ≤ EventDataEntry_getCount e).
Proof.
  intros [Hnd Hvalid Htable Hsum Hcounted] Hpos. unfold stats_entry.
  destruct (sb_tableById b !! id type) as [r|] eqn:Hlook; simpl.
  - pose proof (Htable _ _ Hlook) as Hin.
    destruct (Hvalid _ Hin) as [e He].
    repeat split; try done.
    + intros r' e' Hr' _ He'. by eapply Hcounted.
    + exists e. split; [done|]. pose proof (Hcounted _ _ Hin He). lia.
  - assert (Hfresh : length (sb_objects b) ∉ sb_list b).
    { intros Hin. destruct (Hvalid _ Hin) as [e He].
      apply lookup_lt_Some in He. lia. }
    assert (Hold : ∀ new r, r ∈ sb_list b →
              (sb_objects b ++ [new]) !! r = sb_objects b !! r).
    { intros new r Hr. destruct (Hvalid _ Hr) as [e He].
      apply lookup_app_l. by eapply lookup_lt_Some. }
    assert (Hnew : ∀ new : EventDataEntry,
              (sb_objects b ++ [new]) !! length (sb_objects b) = Some new).
    { intros new. rewrite lookup_app_r by lia.
      by rewrite Nat.sub_diag. }
    destruct (isScope it); simpl.
    all: split; [apply NoDup_app; split; [done|]; split;
                   [intros r Hr Hr'; apply list_elem_of_singleton in Hr';
                    by subst r | apply NoDup_singleton]|].
    all: split; [intros r Hr; apply elem_of_app in Hr as [Hr | Hr];
                   [rewrite Hold by done; by apply Hvalid
                   |apply list_elem_of_singleton in Hr; subst r;
                    by rewrite Hnew]|].
    all: split; [intros i r Hi; apply elem_of_app;
                 destruct (decide (i = id type)) as [-> | Hne];
                   [rewrite lookup_insert_eq in Hi; injection Hi as <-;
                    right; by apply list_elem_of_singleton
                   |rewrite lookup_insert_ne in Hi by done;
                    left; by eapply Htable]|].
    all: split; [rewrite sum_counts_snoc, Hnew; simpl;
                 rewrite (sum_counts_ext (sb_objects b)) by (by apply Hold);
                 lia|].
    all: split; [done|].
    all: split; [apply elem_of_app; right; by apply list_elem_of_singleton|].
    all: split; [intros r e Hr Hne He;
                 apply elem_of_app in Hr as [Hr | Hr];
                   [rewrite Hold in He by done; by eapply Hcounted
                   |apply list_elem_of_singleton in Hr; by subst r]|].
    all: eexists; split; [apply Hnew | simpl; lia].
Qed.

Lemma stats_inv_event (b b' : StatsBuild) (it : EventIterator) :
  stats_inv b → 0 ≤ sb_filteredEventCount b →
  stats_event' b it = Normal b' →
  stats_inv b' ∧ 0 ≤ sb_filteredEventCount b'.
Proof.
  intros Hinv Hpos. unfold stats_event.
  destruct (getType it) as [type|]; [|discriminate].
  destruct (_ || _); [intros [= <-]; done|].
  destruct (match opt_filter with Some _ => _ | None => _ end);
    [intros [= <-]; done|].
  intros [= <-].
  destruct (stats_inv_entry b type it Hinv Hpos)
    as (Hnd & Hvalid & Htable & Hsum & Hcnt & Hin & Hothers & e & He & He0).
  set (found := stats_entry b type it) in *.
  split; [|simpl; lia].
  split; simpl.
  - done.
  - intros r Hr. destruct (Hvalid r Hr) as [e' He'].
    destruct (decide (r = found.1)) as [-> | Hne].
    + rewrite list_lookup_alter_eq, He'. by eexists.
    + rewrite list_lookup_alter_ne by done. by eexists.
  - done.
  - rewrite (sum_counts_alter _ _ _ _ e Hnd Hin He), appendEvent_counts. lia.
  - intros r e' Hr He'.
    destruct (decide (r = found.1)) as [-> | Hne].
    + rewrite list_lookup_alter_eq, He in He'. injection He' as <-.
      rewrite appendEvent_counts. lia.
    + rewrite list_lookup_alter_ne in He' by done. by eapply Hothers.
Qed.

Lemma stats_inv_loop (fuel : nat) (it : EventIterator) (b b' : StatsBuild) :
  stats_inv b → 0 ≤ sb_filteredEventCount b →
  stats_loop EventFlag_INTERNAL EventFlag_BUILTIN opt_filter fuel it b = Normal b' →
  stats_inv b' ∧ 0 ≤ sb_filteredEventCount b'.
Proof.
  revert it b. induction fuel as [|fuel IH]; intros it b Hinv Hpos; simpl.
  - by intros [= <-].
  - destruct (done it); [by intros [= <-]|].
    destruct (stats_event' b it) as [b1|b1] eqn:Hev; simpl; [|discriminate].
    destruct (stats_inv_event _ _ _ Hinv Hpos Hev) as [Hinv1 Hpos1].
    by apply IH.
Qed.

Lemma stats_inv_zones (startTime endTime : Q) (zones : list EventList)
    (b b' : StatsBuild) :
  stats_inv b → 0 ≤ sb_filteredEventCount b →
  stats_zones EventFlag_INTERNAL EventFlag_BUILTIN opt_filter startTime endTime
    zones b = Normal b' →
  stats_inv b' ∧ 0 ≤ sb_filteredEventCount b'.
Proof.
  revert b. induction zones as [|el zones IH]; intros b Hinv Hpos; simpl.
  - by intros [= <-].
  - unfold stats_zone.
    destruct (beginTimeRange 0 el startTime endTime false) as [it|];
      [|discriminate].
    destruct (stats_loop _ _ _ _ it b) as [b1|b1] eqn:Hloop; simpl;
      [|discriminate].
    destruct (stats_inv_loop _ _ _ _ Hinv Hpos Hloop) as [Hinv1 Hpos1].
    by apply IH.
Qed.

(** More rounds than [lastIndex_ - index_ + 1] change nothing: the loop has
    ended by then. *)
Lemma stats_loop_enough (extra : nat) (it : EventIterator) (b : StatsBuild) :
  stats_loop EventFlag_INTERNAL EventFlag_BUILTIN opt_filter
    (Z.to_nat (lastIndex_ it - index_ it + 1) + extra) it b
  = stats_loop EventFlag_INTERNAL EventFlag_BUILTIN opt_filter
      (Z.to_nat (lastIndex_ it - index_ it + 1)) it b.
Proof.
  remember (Z.to_nat (lastIndex_ it - index_ it + 1)) as fuel eqn:Hfuel.
  revert it b Hfuel. induction fuel as [|fuel IH]; intros it b Hfuel.
  - destruct extra as [|extra]; [reflexivity|]. simpl.
    unfold done. destruct (Z.gtb_spec (index_ it) (lastIndex_ it)); [done|lia].
  - simpl. destruct (done it) eqn:Hdone; [reflexivity|].
    destruct (stats_event' b it) as [b1|b1]; simpl; [|reflexivity].
    apply IH. unfold next. cbn [lastIndex_ index_]. lia.
Qed.

End StatisticsFacts.

Lemma appendEvent_type (e : EventDataEntry) (it : EventIterator) :
  EventDataEntry_getEventType (EventDataEntry_appendEvent e it)
  = EventDataEntry_getEventType e.
Proof. by destruct e. Qed.

Section StatisticsTable.
Variables EventFlag_INTERNAL EventFlag_BUILTIN : Z.
Variable opt_filter : option (EventIterator → bool).

Local Abbreviation counted_as' :=
  (counted_as EventFlag_INTERNAL EventFlag_BUILTIN opt_filter).
Local Abbreviation number' :=
  (number_counted_as EventFlag_INTERNAL EventFlag_BUILTIN opt_filter).
Local Abbreviation table_inv' :=
  (stats_table_inv EventFlag_INTERNAL EventFlag_BUILTIN opt_filter).

Lemma number_counted_snoc (i : Z) (seen : list EventIterator) (it : EventIterator) :
  number' i (seen ++ [it])
  = number' i seen + (if counted_as' i it then 1 else 0).
Proof.
  unfold number_counted_as. rewrite filter_app, length_app.
  destruct (counted_as' i it) eqn:Hc.
  - rewrite filter_cons_True by done. simpl. lia.
  - rewrite filter_cons_False by (by rewrite Hc). simpl. lia.
Qed.

Lemma stats_table_inv_event (b b' : StatsBuild) (seen : list EventIterator)
    (it : EventIterator) :
  table_inv' b seen →
  stats_event EventFlag_INTERNAL EventFlag_BUILTIN opt_filter b it = Normal b' →
  table_inv' b' (seen ++ [it]).
Proof.
  intros [Htab Hlist]. unfold stats_event.
  destruct (getType it) as [type|] eqn:Hty; [|discriminate].
  destruct (_ || _) eqn:Hflags.
  { assert (Hc0 : ∀ i, counted_as' i it = false)
      by (intros i; unfold counted_as; by rewrite Hty, Hflags).
    intros [= <-]. split; [|done]. intros i.
    rewrite number_counted_snoc, Hc0, Z.add_0_r. apply Htab. }
  destruct (match opt_filter with Some _ => _ | None => _ end) eqn:Hflt.
  { assert (Hc0 : ∀ i, counted_as' i it = false).
    { intros i. unfold counted_as. rewrite Hty, Hflags.
      replace (match opt_filter with Some filter => filter it | None => true end)
        with false by (destruct opt_filter; [by apply negb_true_iff in Hflt|done]).
      done. }
    intros [= <-]. split; [|done]. intros i.
    rewrite number_counted_snoc, Hc0, Z.add_0_r. apply Htab. }
  assert (Hcnt : ∀ i, counted_as' i it = (id type =? i)).
  { intros i. unfold counted_as. rewrite Hty, Hflags.
    replace (match opt_filter with Some filter => filter it | None => true end)
      with true by (destruct opt_filter; [by apply negb_false_iff in Hflt|done]).
    done. }
  intros [= <-]. unfold stats_entry.
  destruct (sb_tableById b !! id type) as [r|] eqn:Hlook; simpl.
  - pose proof (Htab (id type)) as Hr. rewrite Hlook in Hr.
    destruct Hr as (Hin & e & He & Hid & Hn).
    split; simpl.
    + intros i. rewrite number_counted_snoc, Hcnt.
      pose proof (Htab i) as Hi.
      destruct (sb_tableById b !! i) as [r'|] eqn:Hlook'.
      * destruct Hi as (Hin' & e' & He' & Hid' & Hn'). split; [done|].
        destruct (Z.eqb_spec (id type) i) as [<- | Hne].
        -- assert (r' = r) as -> by congruence.
           exists (EventDataEntry_appendEvent e it).
           rewrite list_lookup_alter_eq, He, appendEvent_type, appendEvent_counts.
           split; [done|]. split; [done|]. lia.
        -- assert (r' ≠ r) by congruence.
           exists e'. rewrite list_lookup_alter_ne by done.
           split; [done|]. split; [done|]. lia.
      * destruct (Z.eqb_spec (id type) i) as [<- | Hne]; [congruence|lia].
    + intros r' Hr'. destruct (Hlist r' Hr') as (e' & He' & Hback).
      destruct (decide (r' = r)) as [-> | Hne].
      * exists (EventDataEntry_appendEvent e' it).
        rewrite list_lookup_alter_eq, He', appendEvent_type. done.
      * exists e'. by rewrite list_lookup_alter_ne.
  - assert (Hvalid : ∀ r, r ∈ sb_list b → (r < length (sb_objects b))%nat).
    { intros r Hr. destruct (Hlist r Hr) as (e & He & _).
      by eapply lookup_lt_Some. }
    pose proof (Htab (id type)) as Hzero. rewrite Hlook in Hzero.
    set (fresh := if isScope it then ScopeEntry (new_ScopeEventDataEntry type)
                  else InstanceEntry type 0).
    assert (Hfresh : EventDataEntry_getEventType fresh = type
                     ∧ EventDataEntry_getCount fresh = 0)
      by (unfold fresh; by destruct (isScope it)).
    destruct Hfresh as [Hft Hfc].
    assert (Hshape : ∃ sc ins,
      (if isScope it
       then (length (sb_objects b),
             mkStatsBuild (sb_objects b ++ [ScopeEntry (new_ScopeEventDataEntry type)])
               (<[id type := length (sb_objects b)]> (sb_tableById b))
               (sb_list b ++ [length (sb_objects b)])
               (<[name type := length (sb_objects b)]> (sb_scopeEntries b))
               (sb_instanceEntries b) (sb_filteredEventCount b))
       else (length (sb_objects b),
             mkStatsBuild (sb_objects b ++ [InstanceEntry type 0])
               (<[id type := length (sb_objects b)]> (sb_tableById b))
               (sb_list b ++ [length (sb_objects b)])
               (sb_scopeEntries b)
               (<[name type := length (sb_objects b)]> (sb_instanceEntries b))
               (sb_filteredEventCount b)))
      = (length (sb_objects b),
         mkStatsBuild (sb_objects b ++ [fresh])
           (<[id type := length (sb_objects b)]> (sb_tableById b))
           (sb_list b ++ [length (sb_objects b)]) sc ins
           (sb_filteredEventCount b))).
    { unfold fresh. destruct (isScope it); by eexists _, _. }
    destruct Hshape as (sc & ins & ->). cbn [fst snd sb_objects sb_tableById sb_list].
    assert (Hnew : alter (λ e, EventDataEntry_appendEvent e it)
                     (length (sb_objects b)) (sb_objects b ++ [fresh])
                   = sb_objects b ++ [EventDataEntry_appendEvent fresh it]).
    { rewrite alter_app_r_alt by lia. by rewrite Nat.sub_diag. }
    rewrite Hnew.
    split; cbn [sb_objects sb_tableById sb_list].
    + intros i. rewrite number_counted_snoc, Hcnt.
      destruct (Z.eqb_spec (id type) i) as [<- | Hne].
      * rewrite lookup_insert_eq. split.
        { apply elem_of_app. right. by apply list_elem_of_singleton. }
        exists (EventDataEntry_appendEvent fresh it).
        rewrite lookup_app_r by lia. rewrite Nat.sub_diag.
        rewrite appendEvent_type, appendEvent_counts, Hft, Hfc.
        split; [done|]. split; [done|]. lia.
      * rewrite lookup_insert_ne by done. pose proof (Htab i) as Hi.
        destruct (sb_tableById b !! i) as [r'|]; [|lia].
        destruct Hi as (Hin' & e' & He' & Hid' & Hn'). split.
        { apply elem_of_app. by left. }
        exists e'. rewrite lookup_app_l by (by apply Hvalid).
        split; [done|]. split; [done|]. lia.
    + intros r Hr. apply elem_of_app in Hr as [Hr | Hr].
      * destruct (Hlist r Hr) as (e & He & Hback). exists e.
        rewrite lookup_app_l by (by apply Hvalid). split; [done|].
        rewrite lookup_insert_ne; [done|]. intros Heq. rewrite <- Heq in Hback.
        congruence.
      * apply list_elem_of_singleton in Hr. subst r.
        exists (EventDataEntry_appendEvent fresh it).
        rewrite lookup_app_r by lia. rewrite Nat.sub_diag.
        rewrite appendEvent_type, Hft, lookup_insert_eq. done.
Qed.

Lemma stats_table_inv_loop (fuel : nat) (it : EventIterator) (b b' : StatsBuild)
    (seen : list EventIterator) :
  table_inv' b seen →
  stats_loop EventFlag_INTERNAL EventFlag_BUILTIN opt_filter fuel it b = Normal b' →
  table_inv' b' (seen ++ visited fuel it).
Proof.
  revert it b seen. induction fuel as [|fuel IH]; intros it b seen Hinv; simpl.
  - intros [= <-]. by rewrite app_nil_r.
  - destruct (done it); [intros [= <-]; by rewrite app_nil_r|].
    destruct (stats_event _ _ _ b it) as [b1|b1] eqn:Hev; simpl; [|discriminate].
    intros Hloop. rewrite (cons_middle it), app_assoc.
    eapply IH; [|done]. by eapply stats_table_inv_event.
Qed.

Lemma stats_table_inv_zones (startTime endTime : Q) (zones : list EventList)
    (b b' : StatsBuild) (seen : list EventIterator) :
  table_inv' b seen →
  stats_zones EventFlag_INTERNAL EventFlag_BUILTIN opt_filter startTime endTime
    zones b = Normal b' →
  table_inv' b' (seen ++ (zones ≫= zone_visited startTime endTime)).
Proof.
  revert b seen. induction zones as [|el zones IH]; intros b seen Hinv; simpl.
  - intros [= <-]. by rewrite app_nil_r.
  - unfold stats_zone, zone_visited at 1.
    destruct (beginTimeRange 0 el startTime endTime false) as [it|];
      [|discriminate].
    destruct (stats_loop _ _ _ _ it b) as [b1|b1] eqn:Hloop; simpl;
      [|discriminate].
    intros Hz. rewrite app_assoc. eapply IH; [|done].
    by eapply stats_table_inv_loop.
Qed.

End StatisticsTable.

(** ** The statistics table after [rebuild] *)

Lemma stats_inv_start (objs : list EventDataEntry) :
  stats_inv (mkStatsBuild objs ∅ [] ∅ ∅ 0).
Proof.
  split; simpl.
  - apply NoDup_nil_2.
  - intros r Hr. by apply elem_of_nil in Hr.
  - intros i r Hi. by rewrite lookup_empty in Hi.
  - reflexivity.
  - intros r e Hr. by apply elem_of_nil in Hr.
Qed.

Lemma rebuild_returns_build (EventFlag_INTERNAL EventFlag_BUILTIN : Z)
    (opt_filter : option (EventIterator → bool)) (st st' : EventStatistics)
    (zones : list EventList) (startTime endTime : Q) :
  EventStatistics_rebuild EventFlag_INTERNAL EventFlag_BUILTIN opt_filter st zones
    startTime endTime = Normal st' →
  ∃ b, stats_zones EventFlag_INTERNAL EventFlag_BUILTIN opt_filter startTime endTime
         zones (mkStatsBuild (entry_objects st) ∅ [] ∅ ∅ 0) = Normal b ∧
       entry_objects st' = sb_objects b ∧ list_ st' = sb_list b ∧
       filteredEventCount_ st' = sb_filteredEventCount b ∧
       table_ st' = foldl (λ t r, <[key_of VUndefined := r]> t) ∅ (sb_list b) ∧
       listSortMode_ st' = ANY.
Proof.
  unfold EventStatistics_rebuild.
  destruct (stats_zones _ _ _ _ _ _ _) as [b|b]; [|discriminate].
  intros [= <-]. by exists b.
Qed.

Lemma stats_entries_elem (st : EventStatistics) (e : EventDataEntry) :
  e ∈ stats_entries st ↔ ∃ r, r ∈ list_ st ∧ entry_objects st !! r = Some e.
Proof. unfold stats_entries. apply list_elem_of_omap. Qed.

(** X17. When [EventStatistics.rebuild] returns, the filtered event count
    is the sum of the counts of the entries of the list; the list has no
    entry twice, and each entry of it has counted at least one event. *)
Theorem statistics_counts_add_up (EventFlag_INTERNAL EventFlag_BUILTIN : Z)
    (opt_filter : option (EventIterator → bool)) (st st' : EventStatistics)
    (zones : list EventList) (startTime endTime : Q) :
  EventStatistics_rebuild EventFlag_INTERNAL EventFlag_BUILTIN opt_filter st zones
    startTime endTime = Normal st' →
  getFilteredEventCount st' = sum_counts (entry_objects st') (list_ st') ∧
  NoDup (list_ st') ∧
  length (stats_entries st') = length (list_ st') ∧
  (∀ e, e ∈ stats_entries st' → 1 ≤ EventDataEntry_getCount e) ∧
  listSortMode_ st' = ANY.
Proof.
  intros Hret.
  destruct (rebuild_returns_build _ _ _ _ _ _ _ _ Hret)
    as (b & Hz & Hobjs & Hlist & Hcount & _ & Hmode).
  destruct (stats_inv_zones _ _ _ _ _ _ _ _ (stats_inv_start _) (Z.le_refl 0) Hz)
    as [[Hnd Hvalid Htable Hsum Hcounted] _].
  unfold getFilteredEventCount. rewrite Hobjs, Hlist, Hcount.
  split; [done|]. split; [done|]. split; [|split; [|done]].
  - unfold stats_entries. rewrite Hobjs, Hlist.
    clear -Hvalid. induction (sb_list b) as [|r refs IH]; [done|].
    simpl. destruct (Hvalid r) as [e He]; [apply list_elem_of_here|].
    rewrite He. simpl. f_equal. apply IH.
    intros r' Hr'. apply Hvalid. by apply list_elem_of_further.
  - intros e He. apply stats_entries_elem in He as (r & Hr & He).
    rewrite Hlist in Hr. rewrite Hobjs in He. by eapply Hcounted.
Qed.

Lemma statistics_counts_add_up_witness :
  let zones := [rebuilt 4 0 (system_time_events 0); rebuilt 4 0 three_instants] in
  let st' := outcome_state
    (EventStatistics_rebuild 8 16 None new_EventStatistics zones 0 10) in
  getFilteredEventCount st' = sum_counts (entry_objects st') (list_ st').
Proof.
  intros zones st'.
  assert (Hret : EventStatistics_rebuild 8 16 None new_EventStatistics zones 0 10
                 = Normal st') by (vm_compute; reflexivity).
  pose proof (statistics_counts_add_up 8 16 None new_EventStatistics st' zones
                0 10 Hret) as Hthm.
  exact (proj1 Hthm).
Defined.

Lemma number_counted_pos (EventFlag_INTERNAL EventFlag_BUILTIN : Z)
    (opt_filter : option (EventIterator → bool)) (i : Z)
    (its : list EventIterator) (it : EventIterator) :
  it ∈ its →
  counted_as EventFlag_INTERNAL EventFlag_BUILTIN opt_filter i it = true →
  0 < number_counted_as EventFlag_INTERNAL EventFlag_BUILTIN opt_filter i its.
Proof.
  intros Hin Hc. unfold number_counted_as.
  assert (Hf : it ∈ filter
            (λ it, counted_as EventFlag_INTERNAL EventFlag_BUILTIN opt_filter i it
                   = true) its)
    by (by apply list_elem_of_filter).
  destruct (filter _ its); [by apply elem_of_nil in Hf|]. simpl. lia.
Qed.

(** X18. When [EventStatistics.rebuild] returns, the count of an entry of
    the list is the number of the events of the time ranges of the zones
    that are of a type with the id of the entry's type, neither internal
    nor built in, and let through by the filter; every such event has an
    entry in the list, and no two entries are of types with the same id. *)
Theorem statistics_count_per_type (EventFlag_INTERNAL EventFlag_BUILTIN : Z)
    (opt_filter : option (EventIterator → bool)) (st st' : EventStatistics)
    (zones : list EventList) (startTime endTime : Q) :
  EventStatistics_rebuild EventFlag_INTERNAL EventFlag_BUILTIN opt_filter st zones
    startTime endTime = Normal st' →
  (∀ e, e ∈ stats_entries st' →
     EventDataEntry_getCount e
     = number_counted_as EventFlag_INTERNAL EventFlag_BUILTIN opt_filter
         (id (EventDataEntry_getEventType e))
         (zones ≫= zone_visited startTime endTime)) ∧
  (∀ it type, it ∈ zones ≫= zone_visited startTime endTime →
     getType it = Some type →
     counted_as EventFlag_INTERNAL EventFlag_BUILTIN opt_filter (id type) it = true →
     ∃ e, e ∈ stats_entries st' ∧ id (EventDataEntry_getEventType e) = id type) ∧
  (∀ r1 r2 e1 e2, r1 ∈ list_ st' → r2 ∈ list_ st' →
     entry_objects st' !! r1 = Some e1 → entry_objects st' !! r2 = Some e2 →
     id (EventDataEntry_getEventType e1) = id (EventDataEntry_getEventType e2) →
     r1 = r2).
Proof.
  intros Hret.
  destruct (rebuild_returns_build _ _ _ _ _ _ _ _ Hret)
    as (b & Hz & Hobjs & Hlist & _).
  assert (Hstart : stats_table_inv EventFlag_INTERNAL EventFlag_BUILTIN opt_filter
                     (mkStatsBuild (entry_objects st) ∅ [] ∅ ∅ 0) []).
  { split; simpl.
    - intros i. by rewrite lookup_empty.
    - intros r Hr. by apply elem_of_nil in Hr. }
  destruct (stats_table_inv_zones _ _ _ _ _ _ _ _ _ Hstart Hz) as [Htab Hrefs].
  simpl in Htab, Hrefs.
  split; [|split].
  - intros e He. apply stats_entries_elem in He as (r & Hr & He).
    rewrite Hlist in Hr. rewrite Hobjs in He.
    destruct (Hrefs r Hr) as (e' & He' & Hback).
    assert (e' = e) as -> by congruence.
    pose proof (Htab (id (EventDataEntry_getEventType e))) as Hi.
    rewrite Hback in Hi. destruct Hi as (_ & e' & He'' & _ & Hn).
    by assert (e' = e) as -> by congruence.
  - intros it type Hin Hty Hc.
    pose proof (number_counted_pos _ _ _ _ _ _ Hin Hc) as Hpos.
    pose proof (Htab (id type)) as Hi.
    destruct (sb_tableById b !! id type) as [r|]; [|lia].
    destruct Hi as (Hr & e & He & Hid & _).
    exists e. split; [|done].
    apply stats_entries_elem. exists r. by rewrite Hlist, Hobjs.
  - intros r1 r2 e1 e2 Hr1 Hr2 He1 He2 Hid.
    rewrite Hlist in Hr1, Hr2. rewrite Hobjs in He1, He2.
    destruct (Hrefs r1 Hr1) as (e1' & He1' & Hback1).
    destruct (Hrefs r2 Hr2) as (e2' & He2' & Hback2).
    assert (e1' = e1) as -> by congruence.
    assert (e2' = e2) as -> by congruence.
    rewrite Hid in Hback1. congruence.
Qed.

Lemma statistics_count_per_type_witness :
  let zones := [rebuilt 4 0 (system_time_events 0); rebuilt 4 0 three_instants] in
  let st' := outcome_state
    (EventStatistics_rebuild 8 16 None new_EventStatistics zones 0 10) in
  let e := default (InstanceEntry ty_X 0) (last (stats_entries st')) in
  EventDataEntry_getCount e
  = number_counted_as 8 16 None (id (EventDataEntry_getEventType e))
      (zones ≫= zone_visited 0 10).
Proof.
  intros zones st' e.
  assert (Hret : EventStatistics_rebuild 8 16 None new_EventStatistics zones 0 10
                 = Normal st') by (vm_compute; reflexivity).
  assert (He : e ∈ stats_entries st').
  { apply list_elem_of_lookup. exists 3%nat. vm_compute. reflexivity. }
  pose proof (statistics_count_per_type 8 16 None new_EventStatistics st' zones
                0 10 Hret) as Hthm.
  exact (proj1 Hthm e He).
Defined.

Lemma foldl_insert_same {A} (k : string) (refs : list A) (t : gmap string A) :
  foldl (λ t r, <[k := r]> t) t refs
  = match last refs with
    | Some r => <[k := r]> t
    | None => t
    end.
Proof.
  revert t. induction refs as [|r refs IH]; intros t; [done|].
  simpl. rewrite IH. destruct refs as [|r' refs]; [done|].
  change (last (r :: r' :: refs)) with (last (r' :: refs)).
  destruct (last (r' :: refs)) as [r''|] eqn:Hl.
  - by rewrite insert_insert_eq.
  - by apply last_None in Hl.
Qed.

(** X19. When [EventStatistics.rebuild] returns, the table by name has no
    key but [undefined]: the entries have no property [name].  That key
    leads to the last entry of the list, and the table is empty if the
    list is. *)
Theorem statistics_table_by_name (EventFlag_INTERNAL EventFlag_BUILTIN : Z)
    (opt_filter : option (EventIterator → bool)) (st st' : EventStatistics)
    (zones : list EventList) (startTime endTime : Q) :
  EventStatistics_rebuild EventFlag_INTERNAL EventFlag_BUILTIN opt_filter st zones
    startTime endTime = Normal st' →
  (∀ eventName, eventName ≠ "undefined" → table_ st' !! eventName = None) ∧
  table_ st' !! "undefined" = last (list_ st').
Proof.
  intros Hret.
  destruct (rebuild_returns_build _ _ _ _ _ _ _ _ Hret)
    as (b & _ & _ & Hlist & _ & Htable & _).
  rewrite Htable, Hlist, foldl_insert_same. simpl.
  destruct (last (sb_list b)) as [r|].
  - split; [|by rewrite lookup_insert_eq].
    intros nm Hnm. rewrite lookup_insert_ne by done. apply lookup_empty.
  - split; [|apply lookup_empty]. intros nm _. apply lookup_empty.
Qed.

Lemma statistics_table_by_name_witness :
  let zones := [rebuilt 4 0 (system_time_events 0); rebuilt 4 0 three_instants] in
  let st' := outcome_state
    (EventStatistics_rebuild 8 16 None new_EventStatistics zones 0 10) in
  table_ st' !! "A" = None ∧ table_ st' !! "undefined" = last (list_ st').
Proof.
  intros zones st'.
  assert (Hret : EventStatistics_rebuild 8 16 None new_EventStatistics zones 0 10
                 = Normal st') by (vm_compute; reflexivity).
  pose proof (statistics_table_by_name 8 16 None new_EventStatistics st' zones
                0 10 Hret) as Hthm.
  assert (Hne : "A" ≠ "undefined") by discriminate.
  exact (conj (proj1 Hthm "A" Hne) (proj2 Hthm)).
Defined.
